(** * pg-archiver: archival of old PostgreSQL rows to Parquet files on S3

    A shallow embedding of [main.go] (the multi-table program) and of the
    older single-table program, together with the properties the
    specification states about them and further properties read off the
    code.

    The program is a straight-line pipeline over three libraries
    ([database/sql], [parquet-go], the AWS S3 client).  The libraries are
    modelled by a small world (database tables, local disk, object store,
    wall clock) with fallible primitive operations; every Go function of the
    repository is transcribed on top of those primitives in an error/state
    monad that also records the sequence of external calls.

    Not modelled: the status lines the program prints with [fmt.Printf]
    (they influence neither the stores nor the sequence of external calls),
    and the recovery of a panic in [main] (no transcribed operation
    panics).

    Limits of the embedding:
    - the deferred [db.Close()], [rows.Close()] and [file.Close()] are not
      recorded in the sequence of external calls: they run when [run] or
      [processTable] returns, after its last recorded call; their errors
      are dropped, and they change neither the stores nor the value
      returned;
    - a table name is looked up in the database as it stands, and only the
      empty name is refused as a statement that does not parse; quoting,
      case folding and schema qualification of identifiers are left to the
      database and not modelled;
    - [AddDate] is taken in a location without daylight-saving
      transitions; the cut-off enters every statement as a parameter. *)

From Stdlib Require Import ZArith Lia String Ascii DecimalString.
From Stdlib Require Import Sorting.Sorted Sorting.Permutation.
From stdpp Require Import base option list gmap strings fin_maps.

Local Open Scope string_scope.
Local Open Scope list_scope.
Local Open Scope Z_scope.

(** ** Go scalar values *)

(** Two's-complement wrap-around of [int64] arithmetic. *)
Definition int64_wrap (z : Z) : Z := (z + 2 ^ 63) mod 2 ^ 64 - 2 ^ 63.

Definition int64_min : Z := - 2 ^ 63.
Definition int64_max : Z := 2 ^ 63 - 1.

(** A [float64] is only ever copied by the program: it is kept as its
    64-bit IEEE-754 pattern. *)
Definition float64 : Type := Z.

(** ** [time.Time]

    An instant is kept as the number of nanoseconds since the Unix epoch
    (unbounded, as Go's seconds/nanoseconds pair is far wider than [int64]
    nanoseconds), together with the offset in seconds east of UTC of the
    location the value is presented in.  The monotonic reading plays no role
    in the program. *)
Record Time : Type := mkTime { t_ns : Z; t_off : Z }.

#[global] Instance Time_eq_dec : EqDecision Time.
Proof. solve_decision. Defined.

Definition nanos_per_sec : Z := 1000000000.
Definition secs_per_day : Z := 86400.

(** [t.After(u)], [t.Before(u)], [t.Equal(u)]: comparison of instants. *)
Definition After (t u : Time) : bool := t_ns u <? t_ns t.
Definition Before (t u : Time) : bool := t_ns t <? t_ns u.
Definition Equal (t u : Time) : bool := t_ns t =? t_ns u.

(** [t.UnixNano()]: [unixSec*1e9 + nsec] computed in [int64]. *)
Definition UnixNano (t : Time) : Z := int64_wrap (t_ns t).

(** [time.Unix(0, nsec)], presented in the local zone of offset [loc]. *)
Definition Unix_nsec (loc : Z) (nsec : Z) : Time := mkTime nsec loc.

(** [t.AddDate(0, 0, days)] for a location without daylight-saving
    transitions: the same wall-clock time [days] days away. *)
Definition AddDate_days (t : Time) (days : Z) : Time :=
  mkTime (t_ns t + days * secs_per_day * nanos_per_sec) (t_off t).

(** *** Calendar fields (proleptic Gregorian calendar) *)

(** Seconds since the epoch on the wall clock of the value's location. *)
Definition local_secs (t : Time) : Z := t_ns t / nanos_per_sec + t_off t.
Definition local_days (t : Time) : Z := local_secs t / secs_per_day.
Definition secs_of_day (t : Time) : Z := local_secs t mod secs_per_day.

(** A date within the 400-year cycle that starts on 1 March. *)
Definition day_of_era (days : Z) : Z := (days + 719468) mod 146097.
Definition era (days : Z) : Z := (days + 719468) / 146097.
Definition year_of_era (doe : Z) : Z :=
  (doe - doe / 1460 + doe / 36524 - doe / 146096) / 365.
Definition day_of_year (doe : Z) : Z :=
  let yoe := year_of_era doe in doe - (365 * yoe + yoe / 4 - yoe / 100).
Definition month_index (doy : Z) : Z := (5 * doy + 2) / 153.

Definition civil_month (days : Z) : Z :=
  let mp := month_index (day_of_year (day_of_era days)) in
  if mp <? 10 then mp + 3 else mp - 9.
Definition civil_day (days : Z) : Z :=
  let doy := day_of_year (day_of_era days) in
  doy - (153 * month_index doy + 2) / 5 + 1.
Definition civil_year (days : Z) : Z :=
  let y := year_of_era (day_of_era days) + era days * 400 in
  if civil_month days <=? 2 then y + 1 else y.

Definition Year (t : Time) : Z := civil_year (local_days t).
Definition Month (t : Time) : Z := civil_month (local_days t).
Definition Day (t : Time) : Z := civil_day (local_days t).
Definition Hour (t : Time) : Z := secs_of_day t / 3600.
Definition Minute (t : Time) : Z := secs_of_day t mod 3600 / 60.
Definition Second (t : Time) : Z := secs_of_day t mod 60.

(** [time.Date(y, m, d, hh, mm, ss, 0, UTC)], used to write instants down. *)
Definition days_from_civil (y m d : Z) : Z :=
  let y' := if m <=? 2 then y - 1 else y in
  let e := y' / 400 in
  let yoe := y' - e * 400 in
  let doy := (153 * (if 2 <? m then m - 3 else m + 9) + 2) / 5 + d - 1 in
  let doe := yoe * 365 + yoe / 4 - yoe / 100 + doy in
  e * 146097 + doe - 719468.
Definition Date (y m d hh mm ss : Z) : Time :=
  mkTime ((days_from_civil y m d * secs_per_day + hh * 3600 + mm * 60 + ss)
          * nanos_per_sec) 0.

(** ** Formatting *)

(** Decimal digits of a non-negative number. *)
Definition digits (z : Z) : string := NilZero.string_of_uint (N.to_uint (Z.to_N z)).

Fixpoint zeros (n : nat) : string :=
  match n with O => "" | S n' => String "0" (zeros n') end.

(** Left-pad with zeros up to [width] characters. *)
Definition pad_zeros (width : nat) (s : string) : string :=
  zeros (width - String.length s) +:+ s.

(** [fmt.Sprintf("%d", z)]. *)
Definition fmt_d (z : Z) : string :=
  if z <? 0 then "-" +:+ digits (- z) else digits z.

(** [fmt.Sprintf("%02d", z)]: the sign counts towards the width. *)
Definition fmt_02d (z : Z) : string :=
  if z <? 0 then "-" +:+ pad_zeros 1 (digits (- z)) else pad_zeros 2 (digits z).

(** [appendInt(b, x, width)] of package [time]: zero padding after the sign. *)
Definition appendInt (z : Z) (width : nat) : string :=
  if z <? 0 then "-" +:+ pad_zeros width (digits (- z))
  else pad_zeros width (digits z).

(** [t.Format("20060102_150405")]. *)
Definition Format_20060102_150405 (t : Time) : string :=
  appendInt (Year t) 4 +:+ appendInt (Month t) 2 +:+ appendInt (Day t) 2 +:+ "_"
  +:+ appendInt (Hour t) 2 +:+ appendInt (Minute t) 2 +:+ appendInt (Second t) 2.


(** ** Strings *)

(** [strings.Split(s, ",")]: the pieces between commas; the empty string
    yields one empty piece. *)
Fixpoint Split_comma (s : string) : list string :=
  match s with
  | EmptyString => [""]
  | String c rest =>
      if Ascii.eqb c "," then "" :: Split_comma rest
      else match Split_comma rest with
           | [] => [String c ""]
           | piece :: pieces => String c piece :: pieces
           end
  end.

(** A Go string is a sequence of bytes, read as UTF-8 where runes matter. *)
Definition bytes (l : list nat) : string :=
  string_of_list_ascii (List.map ascii_of_nat l).

(** The UTF-8 encodings of the code points [unicode.IsSpace] accepts:
    U+0009..U+000D, U+0020, U+0085, U+00A0, U+1680, U+2000..U+200A, U+2028,
    U+2029, U+202F, U+205F and U+3000. *)
Definition space_runes : list string :=
  List.map bytes
    [ [9%nat]; [10%nat]; [11%nat]; [12%nat]; [13%nat]; [32%nat];
      [194; 133]; [194; 160]; [225; 154; 128];
      [226; 128; 128]; [226; 128; 129]; [226; 128; 130]; [226; 128; 131];
      [226; 128; 132]; [226; 128; 133]; [226; 128; 134]; [226; 128; 135];
      [226; 128; 136]; [226; 128; 137]; [226; 128; 138];
      [226; 128; 168]; [226; 128; 169]; [226; 128; 175]; [226; 129; 159];
      [227; 128; 128] ]%nat.

(** The string is the encoding of one white-space rune. *)
Definition is_space_rune (s : string) : bool :=
  existsb (String.eqb s) space_runes.

(** [strings.TrimLeftFunc(s, unicode.IsSpace)]: runes are decoded from the
    front; an encoding of a white-space rune is one, two or three bytes
    long, and bytes that decode to anything else stop the trimming. *)
Fixpoint trim_left (s : string) : string :=
  match s with
  | EmptyString => ""
  | String a s1 =>
      if is_space_rune (String a "") then trim_left s1
      else
        match s1 with
        | EmptyString => s
        | String b s2 =>
            if is_space_rune (String a (String b "")) then trim_left s2
            else
              match s2 with
              | EmptyString => s
              | String c s3 =>
                  if is_space_rune (String a (String b (String c "")))
                  then trim_left s3
                  else s
              end
        end
  end.

(** [strings.TrimRightFunc(s, unicode.IsSpace)]: the last rune is dropped
    as long as it is white space.  What is kept of [String a rest] is [a]
    followed by what is kept of [rest], unless that is itself the encoding
    of one white-space rune. *)
Fixpoint trim_right (s : string) : string :=
  match s with
  | EmptyString => ""
  | String a rest =>
      let kept := String a (trim_right rest) in
      if is_space_rune kept then "" else kept
  end.

(** [strings.TrimSpace(s)]. *)
Definition TrimSpace (s : string) : string := trim_right (trim_left s).

(** ** Errors

    A Go [error] is a library error or an error wrapped by
    [fmt.Errorf("<context>: %w", err)]. *)
Inductive error : Type :=
  | LibError (msg : string)
  | Errorf (context : string) (cause : error).

Inductive result (A : Type) : Type :=
  | Ok (a : A)
  | Fail (e : error).
Arguments Ok {A} a.
Arguments Fail {A} e.

Definition is_ok {A} (r : result A) : bool :=
  match r with Ok _ => true | Fail _ => false end.

(** ** The world outside the process *)

(** A row of a source table: [id BIGINT, timestamp TIMESTAMP,
    device_id TEXT, value DOUBLE PRECISION]. *)
Record Row : Type := mkRow {
  row_id : Z;
  row_timestamp : Time;
  row_device_id : string;
  row_value : float64
}.

#[global] Instance Row_eq_dec : EqDecision Row.
Proof. solve_decision. Defined.

(** A value of a Parquet column: [INT64], [DOUBLE], [BYTE_ARRAY]. *)
Inductive PValue : Type :=
  | PInt64 (z : Z)
  | PDouble (bits : float64)
  | PByteArray (s : string).

#[global] Instance PValue_eq_dec : EqDecision PValue.
Proof. solve_decision. Defined.

Inductive Codec : Type := UNCOMPRESSED | SNAPPY.

(** A Parquet file on disk or in the object store: its column names, the
    rows written so far, the codec, and whether the footer was written. *)
Record File : Type := mkFile {
  columns : list string;
  rows : list (list PValue);
  codec : Codec;
  complete : bool
}.

Definition empty_file : File := mkFile [] [] UNCOMPRESSED false.

Record World : Type := mkWorld {
  environ : gmap string string;            (* process environment *)
  clock : Time;                            (* what time.Now() returns *)
  database : gmap string (list Row);       (* tables by name *)
  disk : gmap string File;                 (* local files by path *)
  objects : gmap (string * string) File    (* objects by (bucket, key) *)
}.

(** What the libraries may answer.  Faults of the database are keyed by
    table name, a write fault by the number of rows already written. *)
Inductive QueryFault : Type :=
  | QueryOk
  | QueryFails                  (* db.Query returns an error *)
  | ScanFails (n : nat)         (* rows.Scan fails on row n *)
  | RowsErrAfter (n : nat).     (* iteration stops after n rows, rows.Err() *)

Inductive ExecFault : Type :=
  | ExecOk
  | ExecFails                   (* db.Exec returns an error *)
  | RowsAffectedFails.          (* the statement ran, RowsAffected errors *)

Record Faults : Type := mkFaults {
  open_fails : bool;
  ping_fails : bool;
  query_fault : string -> QueryFault;
  create_fails : bool;
  writer_fails : bool;
  write_fails : nat -> bool;
  stop_fails : bool;
  close_fails : bool;
  config_fails : bool;
  open_file_fails : bool;
  put_fails : bool;
  exec_fault : string -> ExecFault;
  latency : Z                   (* nanoseconds an external call takes *)
}.

Definition no_faults : Faults :=
  mkFaults false false (fun _ => QueryOk) false false (fun _ => false)
           false false false false false (fun _ => ExecOk) 1000000.

(** The external calls of a run, in order, with their outcome. *)
Inductive Event : Type :=
  | EvSqlOpen (conn : string) (ok : bool)
  | EvPing (ok : bool)
  | EvQuery (table : string) (cutoff : Time) (limit : Z) (ok : bool)
  | EvScanError (table : string)
  | EvRowsError (table : string)
  | EvCreate (path : string) (ok : bool)
  | EvNewWriter (path : string) (ok : bool)
  | EvWrite (path : string) (row : list PValue) (ok : bool)
  | EvWriteStop (path : string) (ok : bool)
  | EvClose (path : string) (ok : bool)
  | EvLoadConfig (ok : bool)
  | EvOpenFile (path : string) (ok : bool)
  | EvPutObject (bucket key : string) (body : File) (ok : bool)
  | EvDelete (table : string) (cutoff : Time) (ok : bool).

Definition is_delete (ev : Event) : bool :=
  match ev with EvDelete _ _ _ => true | _ => false end.
Definition is_put (ev : Event) : bool :=
  match ev with EvPutObject _ _ _ _ => true | _ => false end.
Definition is_put_ok (ev : Event) : bool :=
  match ev with EvPutObject _ _ _ ok => ok | _ => false end.
Definition is_file_write (ev : Event) : bool :=
  match ev with
  | EvCreate _ _ | EvNewWriter _ _ | EvWrite _ _ _ | EvWriteStop _ _
  | EvClose _ _ => true
  | _ => false
  end.
Definition is_query (ev : Event) : bool :=
  match ev with EvQuery _ _ _ _ => true | _ => false end.
Definition is_query_failure (ev : Event) : bool :=
  match ev with
  | EvQuery _ _ _ false | EvScanError _ | EvRowsError _ => true
  | _ => false
  end.

(** The local path an event touches, if it touches one. *)
Definition event_path (ev : Event) : option string :=
  match ev with
  | EvCreate p _ | EvNewWriter p _ | EvWrite p _ _ | EvWriteStop p _
  | EvClose p _ | EvOpenFile p _ => Some p
  | _ => None
  end.

(** ** SQL statements as the database executes them

    The two statements of the program are kept by their parameters; the
    table name is spliced into the statement text exactly as configured. *)

(** [ORDER BY timestamp DESC]. *)
Fixpoint insert_desc (r : Row) (l : list Row) : list Row :=
  match l with
  | [] => [r]
  | x :: l' =>
      if Before (row_timestamp x) (row_timestamp r) then r :: l
      else x :: insert_desc r l'
  end.

Definition order_by_timestamp_desc (l : list Row) : list Row :=
  foldr insert_desc [] l.

Definition older_than (cutoff : Time) (r : Row) : bool :=
  Before (row_timestamp r) cutoff.

(** [SELECT id, timestamp, device_id, value FROM t WHERE timestamp < $1
     ORDER BY timestamp DESC LIMIT $2]. *)
Definition sql_select (t : list Row) (cutoff : Time) (limit : Z) : list Row :=
  take (Z.to_nat limit)
       (order_by_timestamp_desc (List.filter (older_than cutoff) t)).

(** [DELETE FROM t WHERE timestamp < $1]: the rows that stay. *)
Definition sql_delete (t : list Row) (cutoff : Time) : list Row :=
  List.filter (fun r => negb (older_than cutoff r)) t.

Definition sql_delete_count (t : list Row) (cutoff : Time) : Z :=
  Z.of_nat (length (List.filter (older_than cutoff) t)).

(** ** The monad of the program

    A computation reads the fault oracle, transforms the world, and yields a
    result or an error together with the external calls it made. *)
Record Out (A : Type) : Type := mkOut {
  res : result A;
  world : World;
  events : list Event
}.
Arguments mkOut {A} res world events.
Arguments res {A} o.
Arguments world {A} o.
Arguments events {A} o.

Definition M (A : Type) : Type := Faults -> World -> Out A.

#[global] Instance M_ret : MRet M :=
  fun A a _ w => mkOut (Ok a) w [].

#[global] Instance M_bind : MBind M :=
  fun A B k m F w =>
    match m F w with
    | mkOut (Ok a) w1 evs1 =>
        match k a F w1 with
        | mkOut r w2 evs2 => mkOut r w2 (evs1 ++ evs2)
        end
    | mkOut (Fail e) w1 evs1 => mkOut (Fail e) w1 evs1
    end.

(** [return err]. *)
Definition fail {A} (e : error) : M A := fun _ w => mkOut (Fail e) w [].

(** [if err != nil { return fmt.Errorf("<context>: %w", err) }]. *)
Definition wrap {A} (context : string) (m : M A) : M A :=
  fun F w =>
    match m F w with
    | mkOut (Ok a) w1 evs => mkOut (Ok a) w1 evs
    | mkOut (Fail e) w1 evs => mkOut (Fail (Errorf context e)) w1 evs
    end.

(** A call whose error the program drops ([fw.Close()] on an error path). *)
Definition ignore_error {A} (m : M A) : M unit :=
  fun F w => match m F w with mkOut _ w1 evs => mkOut (Ok tt) w1 evs end.

(** An external call takes time. *)
Definition tick (F : Faults) (w : World) : World :=
  mkWorld (environ w) (mkTime (t_ns (clock w) + latency F) (t_off (clock w)))
          (database w) (disk w) (objects w).

Definition set_database (db : gmap string (list Row)) (w : World) : World :=
  mkWorld (environ w) (clock w) db (disk w) (objects w).
Definition set_disk (d : gmap string File) (w : World) : World :=
  mkWorld (environ w) (clock w) (database w) d (objects w).
Definition set_objects (o : gmap (string * string) File) (w : World) : World :=
  mkWorld (environ w) (clock w) (database w) (disk w) o.

(** *** [os], [time] *)

Definition os_LookupEnv (key : string) : M (option string) :=
  fun _ w => mkOut (Ok (environ w !! key)) w [].

Definition time_Now : M Time :=
  fun _ w => mkOut (Ok (clock w)) w [].

Definition os_Open (path : string) : M string :=
  fun F w =>
    if open_file_fails F then
      mkOut (Fail (LibError "open: permission denied")) (tick F w)
            [EvOpenFile path false]
    else match disk w !! path with
         | None => mkOut (Fail (LibError "open: no such file")) (tick F w)
                         [EvOpenFile path false]
         | Some _ => mkOut (Ok path) (tick F w) [EvOpenFile path true]
         end.

(** *** [database/sql] with the [pq] driver *)

Definition sql_Open (conn : string) : M unit :=
  fun F w =>
    if open_fails F then
      mkOut (Fail (LibError "sql: cannot open")) (tick F w) [EvSqlOpen conn false]
    else mkOut (Ok tt) (tick F w) [EvSqlOpen conn true].

Definition db_Ping : M unit :=
  fun F w =>
    if ping_fails F then
      mkOut (Fail (LibError "pq: connection refused")) (tick F w) [EvPing false]
    else mkOut (Ok tt) (tick F w) [EvPing true].

(** The cursor [*sql.Rows]: the rows still to be scanned ([None] where
    [Scan] will fail) and the error [rows.Err()] reports at the end. *)
Record Rows : Type := mkRows {
  cursor : list (option Row);
  rows_err : bool
}.

Definition faulty_cursor (fault : QueryFault) (found : list Row) : Rows :=
  match fault with
  | ScanFails n =>
      mkRows (take n (Some <$> found) ++
              match drop n found with [] => [] | _ :: rest => None :: (Some <$> rest) end)
             false
  | RowsErrAfter n => mkRows (Some <$> take n found) true
  | _ => mkRows (Some <$> found) false
  end.

(** The table the name spliced into a statement denotes.  With the empty
    name the statement reads [FROM  WHERE] and does not parse; any other
    name is looked up as it stands. *)
Definition named_table (w : World) (name : string) : option (list Row) :=
  if String.eqb name "" then None else database w !! name.

Definition no_such_table (name : string) : error :=
  if String.eqb name "" then LibError "pq: syntax error"
  else LibError "pq: relation does not exist".

(** [db.Query(<select>, cutoff, batchSize)] on table [table]. *)
Definition db_Query (table : string) (cutoff : Time) (limit : Z) : M Rows :=
  fun F w =>
    match query_fault F table, named_table w table with
    | QueryFails, _ =>
        mkOut (Fail (LibError "pq: query failed")) (tick F w)
              [EvQuery table cutoff limit false]
    | _, None =>
        mkOut (Fail (no_such_table table)) (tick F w)
              [EvQuery table cutoff limit false]
    | fault, Some t =>
        mkOut (Ok (faulty_cursor fault (sql_select t cutoff limit))) (tick F w)
              [EvQuery table cutoff limit true]
    end.

(** [rows.Scan(...)] of the current row. *)
Definition rows_Scan (table : string) (item : option Row) : M Row :=
  fun _ w =>
    match item with
    | Some r => mkOut (Ok r) w []
    | None => mkOut (Fail (LibError "sql: Scan error")) w [EvScanError table]
    end.

(** [rows.Err()]. *)
Definition rows_Err (table : string) (r : Rows) : M unit :=
  fun _ w =>
    if rows_err r then
      mkOut (Fail (LibError "pq: connection lost")) w [EvRowsError table]
    else mkOut (Ok tt) w [].

(** The [sql.Result] of a statement. *)
Record ExecResult : Type := mkExecResult {
  affected : Z;
  affected_err : bool
}.

(** [db.Exec(<delete>, cutoff)] on table [table]. *)
Definition db_Exec (table : string) (cutoff : Time) : M ExecResult :=
  fun F w =>
    match exec_fault F table, named_table w table with
    | ExecFails, _ =>
        mkOut (Fail (LibError "pq: exec failed")) (tick F w)
              [EvDelete table cutoff false]
    | _, None =>
        mkOut (Fail (no_such_table table)) (tick F w)
              [EvDelete table cutoff false]
    | fault, Some t =>
        mkOut (Ok (mkExecResult (sql_delete_count t cutoff)
                     (match fault with RowsAffectedFails => true | _ => false end)))
              (set_database (<[table := sql_delete t cutoff]> (database w)) (tick F w))
              [EvDelete table cutoff true]
    end.

(** [result.RowsAffected()]. *)
Definition RowsAffected (r : ExecResult) : M Z :=
  if affected_err r then fail (LibError "no RowsAffected available")
  else mret (affected r).

(** *** [parquet-go] *)

Record ParquetWriter : Type := mkParquetWriter {
  pw_path : string;
  pw_columns : list string;
  CompressionType : Codec
}.

(** [local.NewLocalFileWriter(filename)]: creates or truncates the file. *)
Definition NewLocalFileWriter (filename : string) : M string :=
  fun F w =>
    if create_fails F then
      mkOut (Fail (LibError "create: permission denied")) (tick F w)
            [EvCreate filename false]
    else mkOut (Ok filename)
               (set_disk (<[filename := empty_file]> (disk w)) (tick F w))
               [EvCreate filename true].

(** [writer.NewParquetWriter(fw, new(ParquetFile), 1)]: the schema is read
    from the struct tags. *)
Definition NewParquetWriter (fw : string) (schema : list string) : M ParquetWriter :=
  fun F w =>
    if writer_fails F then
      mkOut (Fail (LibError "parquet: bad schema")) (tick F w) [EvNewWriter fw false]
    else mkOut (Ok (mkParquetWriter fw schema UNCOMPRESSED))
               (set_disk (<[fw := mkFile schema [] UNCOMPRESSED false]> (disk w))
                         (tick F w))
               [EvNewWriter fw true].

Definition file_at (w : World) (path : string) : File :=
  default empty_file (disk w !! path).

(** [pw.Write(row)]. *)
Definition pw_Write (pw : ParquetWriter) (row : list PValue) : M unit :=
  fun F w =>
    let f := file_at w (pw_path pw) in
    if write_fails F (length (rows f)) then
      mkOut (Fail (LibError "parquet: write failed")) (tick F w)
            [EvWrite (pw_path pw) row false]
    else mkOut (Ok tt)
               (set_disk (<[pw_path pw :=
                             mkFile (columns f) (rows f ++ [row]) (codec f) false]>
                            (disk w)) (tick F w))
               [EvWrite (pw_path pw) row true].

(** [pw.WriteStop()]: flushes the pages and writes the footer. *)
Definition pw_WriteStop (pw : ParquetWriter) : M unit :=
  fun F w =>
    let f := file_at w (pw_path pw) in
    if stop_fails F then
      mkOut (Fail (LibError "parquet: flush failed")) (tick F w)
            [EvWriteStop (pw_path pw) false]
    else mkOut (Ok tt)
               (set_disk (<[pw_path pw :=
                             mkFile (columns f) (rows f) (CompressionType pw) true]>
                            (disk w)) (tick F w))
               [EvWriteStop (pw_path pw) true].

(** [fw.Close()]. *)
Definition fw_Close (fw : string) : M unit :=
  fun F w =>
    if close_fails F then
      mkOut (Fail (LibError "close: i/o error")) (tick F w) [EvClose fw false]
    else mkOut (Ok tt) (tick F w) [EvClose fw true].

(** *** AWS SDK *)

Definition config_LoadDefaultConfig : M unit :=
  fun F w =>
    if config_fails F then
      mkOut (Fail (LibError "aws: no credentials")) (tick F w) [EvLoadConfig false]
    else mkOut (Ok tt) (tick F w) [EvLoadConfig true].

(** [s3Client.PutObject(ctx, {Bucket, Key, Body: file})]. *)
Definition s3_PutObject (bucket key : string) (file : string) : M unit :=
  fun F w =>
    let body := file_at w file in
    if put_fails F then
      mkOut (Fail (LibError "s3: PutObject failed")) (tick F w)
            [EvPutObject bucket key body false]
    else mkOut (Ok tt)
               (set_objects (<[(bucket, key) := body]> (objects w)) (tick F w))
               [EvPutObject bucket key body true].

(** ** Functions shared by both programs *)

(** [getEnv(key, fallback)]. *)
Definition getEnv (key fallback : string) : M string :=
  found ← os_LookupEnv key;
  match found with
  | Some value => mret value
  | None => mret fallback
  end.

(** The exit status [main] ends with, given what [run] returned. *)
Definition exit_status (r : result unit) : Z :=
  match r with Ok _ => 0 | Fail _ => 1 end.

(** [if err != nil { <cleanup>; return fmt.Errorf("<context>: %w", err) }]. *)
Definition wrap_cleanup {A} (context : string) (cleanup : M unit) (m : M A) : M A :=
  fun F w =>
    match m F w with
    | mkOut (Ok a) w1 evs => mkOut (Ok a) w1 evs
    | mkOut (Fail e) w1 evs =>
        match cleanup F w1 with
        | mkOut _ w2 evs2 => mkOut (Fail (Errorf context e)) w2 (evs ++ evs2)
        end
    end.

Definition set_CompressionType (c : Codec) (pw : ParquetWriter) : ParquetWriter :=
  mkParquetWriter (pw_path pw) (pw_columns pw) c.

(** The zero [time.Time]: 1 January of year 1, 00:00 UTC. *)
Definition zero_Time : Time := mkTime (-62135596800 * nanos_per_sec) 0.

Definition parquetFile : string := "/tmp/archive.parquet".

(** ** The multi-table program ([main.go]) *)
Module Multi.

Record IoTRecord : Type := mkIoTRecord {
  ID : Z;
  Timestamp : Time;
  DeviceID : string;
  Value : float64;
  TableName : string               (* added to track the source table *)
}.

Record ParquetFile : Type := mkParquetFile {
  pf_ID : Z;                       (* name=id, type=INT64 *)
  pf_Timestamp : Z;                (* name=timestamp, type=INT64 *)
  pf_DeviceID : string;            (* name=device_id, type=BYTE_ARRAY *)
  pf_Value : float64;              (* name=value, type=DOUBLE *)
  pf_TableName : string            (* name=table_name, type=BYTE_ARRAY *)
}.

#[global] Instance IoTRecord_eq_dec : EqDecision IoTRecord.
Proof. solve_decision. Defined.

Definition ToParquet (r : IoTRecord) : ParquetFile :=
  {| pf_ID := ID r;
     pf_Timestamp := UnixNano (Timestamp r);
     pf_DeviceID := DeviceID r;
     pf_Value := Value r;
     pf_TableName := TableName r |}.

(** The column names and the row [parquet-go] derives from the struct tags. *)
Definition schema : list string :=
  ["id"; "timestamp"; "device_id"; "value"; "table_name"].

Definition marshal (p : ParquetFile) : list PValue :=
  [PInt64 (pf_ID p); PInt64 (pf_Timestamp p); PByteArray (pf_DeviceID p);
   PDouble (pf_Value p); PByteArray (pf_TableName p)].

(** The loop [for i, record := range records] of [writeParquetFile]. *)
Fixpoint write_records (pw : ParquetWriter) (fw : string) (i : Z)
    (records : list IoTRecord) : M unit :=
  match records with
  | [] => mret tt
  | record :: rest =>
      let pRecord := ToParquet record in
      wrap_cleanup ("writing record " +:+ fmt_d i)
        (ignore_error (pw_WriteStop pw);; ignore_error (fw_Close fw))
        (pw_Write pw (marshal pRecord));;
      write_records pw fw (i + 1) rest
  end.

Definition writeParquetFile (records : list IoTRecord) (filename : string) : M unit :=
  fw ← wrap "creating file writer" (NewLocalFileWriter filename);
  pw ← wrap_cleanup "creating parquet writer" (ignore_error (fw_Close fw))
         (NewParquetWriter fw schema);
  let pw := set_CompressionType SNAPPY pw in
  write_records pw fw 0 records;;
  wrap_cleanup "stopping writer" (ignore_error (fw_Close fw)) (pw_WriteStop pw);;
  wrap "closing file" (fw_Close fw);;
  mret tt.

(** The record a scanned row becomes: [record.TableName = tableName]. *)
Definition tag (tableName : string) (r : Row) : IoTRecord :=
  {| ID := row_id r;
     Timestamp := row_timestamp r;
     DeviceID := row_device_id r;
     Value := row_value r;
     TableName := tableName |}.

(** The loop [for rows.Next()] of [processTable]. *)
Fixpoint scan_rows (tableName : string) (cur : list (option Row))
    (records : list IoTRecord) : M (list IoTRecord) :=
  match cur with
  | [] => mret records
  | item :: rest =>
      r ← wrap ("scanning row from " +:+ tableName) (rows_Scan tableName item);
      scan_rows tableName rest (records ++ [tag tableName r])
  end.

Definition processTable (tableName : string) (cutoff : Time) (batchSize : Z)
    : M (list IoTRecord) :=
  rows ← wrap ("querying old records from " +:+ tableName)
           (db_Query tableName cutoff batchSize);
  records ← scan_rows tableName (cursor rows) [];
  wrap ("reading rows from " +:+ tableName) (rows_Err tableName rows);;
  mret records.

Definition deleteArchivedRecords (tableName : string) (cutoff : Time) : M Z :=
  result ← wrap ("deleting archived records from " +:+ tableName)
             (db_Exec tableName cutoff);
  deleted ← wrap ("getting affected rows count from " +:+ tableName)
              (RowsAffected result);
  mret deleted.

(** The loop [for _, tableName := range tables] over [processTable]. *)
Fixpoint process_tables (tables : list string) (cutoff : Time) (batchSize : Z)
    (allRecords : list IoTRecord) : M (list IoTRecord) :=
  match tables with
  | [] => mret allRecords
  | tableName :: rest =>
      records ← wrap ("processing table " +:+ tableName)
                  (processTable tableName cutoff batchSize);
      process_tables rest cutoff batchSize (allRecords ++ records)
  end.

(** The loop [for _, tableName := range tables] over
    [deleteArchivedRecords]. *)
Fixpoint delete_tables (tables : list string) (cutoff : Time) : M unit :=
  match tables with
  | [] => mret tt
  | tableName :: rest =>
      wrap "deleting archived records" (deleteArchivedRecords tableName cutoff);;
      delete_tables rest cutoff
  end.

(** [lastTimestamp]: starts at [allRecords[0]] and moves to every record of
    [allRecords[1:]] that is [After] it. *)
Definition latest (first : IoTRecord) (rest : list IoTRecord) : Time :=
  fold_left (fun lastTimestamp record =>
               if After (Timestamp record) lastTimestamp
               then Timestamp record else lastTimestamp)
            rest (Timestamp first).

Definition s3Key (lastTimestamp : Time) : string :=
  "year=" +:+ fmt_d (Year lastTimestamp) +:+ "/month="
  +:+ fmt_02d (Month lastTimestamp) +:+ "/multi_table_"
  +:+ Format_20060102_150405 lastTimestamp +:+ ".parquet".

Definition batchSize : Z := 100.
Definition retentionDays : Z := 90.

(** What [run] holds once every table has been read. *)
Record Extracted : Type := mkExtracted {
  x_bucket : string;
  x_tables : list string;
  x_cutoff : Time;
  x_records : list IoTRecord
}.

(** [run], from the configuration to the end of the extraction loop. *)
Definition extract : M Extracted :=
  pgConnStr ← getEnv "PG_CONN_STRING"
                "postgresql://localhost:5432/iot?sslmode=disable";
  s3Bucket ← getEnv "S3_BUCKET" "my-iot-archive";
  tableNames ← getEnv "TABLE_NAMES" "iot_data";
  let tables := TrimSpace <$> Split_comma tableNames in
  wrap "connecting to postgres" (sql_Open pgConnStr);;
  wrap "testing database connection" db_Ping;;
  now ← time_Now;
  let cutoff := AddDate_days now (- retentionDays) in
  allRecords ← process_tables tables cutoff batchSize [];
  mret (mkExtracted s3Bucket tables cutoff allRecords).

(** [run], from the empty-batch test to the end. *)
Definition archive (x : Extracted) : M unit :=
  match x_records x with
  | [] => mret tt                                  (* "No records to archive" *)
  | first :: rest =>
      let allRecords := x_records x in
      let lastTimestamp := latest first rest in
      wrap "writing parquet file" (writeParquetFile allRecords parquetFile);;
      wrap "loading AWS config" config_LoadDefaultConfig;;
      let key := s3Key lastTimestamp in
      file ← wrap "opening parquet file" (os_Open parquetFile);
      wrap "uploading to S3" (s3_PutObject (x_bucket x) key file);;
      delete_tables (x_tables x) (x_cutoff x);;
      mret tt
  end.

Definition run : M unit := x ← extract; archive x.

(** [main]: the exit status of the process. *)
Definition main (F : Faults) (w : World) : Z := exit_status (res (run F w)).

End Multi.

(** ** The single-table program *)
Module Single.

Record IoTRecord : Type := mkIoTRecord {
  ID : Z;
  Timestamp : Time;
  DeviceID : string;
  Value : float64
}.

Record ParquetFile : Type := mkParquetFile {
  pf_ID : Z;                       (* name=id, type=INT64 *)
  pf_Timestamp : Z;                (* name=timestamp, type=INT64 *)
  pf_DeviceID : string;            (* name=device_id, type=BYTE_ARRAY *)
  pf_Value : float64               (* name=value, type=DOUBLE *)
}.

Definition ToParquet (r : IoTRecord) : ParquetFile :=
  {| pf_ID := ID r;
     pf_Timestamp := UnixNano (Timestamp r);
     pf_DeviceID := DeviceID r;
     pf_Value := Value r |}.

Definition schema : list string := ["id"; "timestamp"; "device_id"; "value"].

Definition marshal (p : ParquetFile) : list PValue :=
  [PInt64 (pf_ID p); PInt64 (pf_Timestamp p); PByteArray (pf_DeviceID p);
   PDouble (pf_Value p)].

Fixpoint write_records (pw : ParquetWriter) (fw : string) (i : Z)
    (records : list IoTRecord) : M unit :=
  match records with
  | [] => mret tt
  | record :: rest =>
      let pRecord := ToParquet record in
      wrap_cleanup ("writing record " +:+ fmt_d i)
        (ignore_error (pw_WriteStop pw);; ignore_error (fw_Close fw))
        (pw_Write pw (marshal pRecord));;
      write_records pw fw (i + 1) rest
  end.

Definition writeParquetFile (records : list IoTRecord) (filename : string) : M unit :=
  fw ← wrap "creating file writer" (NewLocalFileWriter filename);
  pw ← wrap_cleanup "creating parquet writer" (ignore_error (fw_Close fw))
         (NewParquetWriter fw schema);
  let pw := set_CompressionType SNAPPY pw in
  write_records pw fw 0 records;;
  wrap_cleanup "stopping writer" (ignore_error (fw_Close fw)) (pw_WriteStop pw);;
  wrap "closing file" (fw_Close fw);;
  mret tt.

Definition record_of (r : Row) : IoTRecord :=
  {| ID := row_id r;
     Timestamp := row_timestamp r;
     DeviceID := row_device_id r;
     Value := row_value r |}.

(** What the scan loop of [run] carries: [records], [lastTimestamp],
    [recordCount]. *)
Record Scanned : Type := mkScanned {
  records : list IoTRecord;
  lastTimestamp : Time;
  recordCount : Z
}.

(** The loop [for rows.Next()] of [run]: [lastTimestamp] is the timestamp
    of the first row scanned. *)
Fixpoint scan_rows (tableName : string) (cur : list (option Row)) (s : Scanned)
    : M Scanned :=
  match cur with
  | [] => mret s
  | item :: rest =>
      r ← wrap "scanning row" (rows_Scan tableName item);
      let record := record_of r in
      let last := if recordCount s =? 0 then Timestamp record
                  else lastTimestamp s in
      scan_rows tableName rest
        (mkScanned (records s ++ [record]) last (recordCount s + 1))
  end.

Definition s3Key (lastTimestamp : Time) (tableName : string) : string :=
  "year=" +:+ fmt_d (Year lastTimestamp) +:+ "/month="
  +:+ fmt_02d (Month lastTimestamp) +:+ "/" +:+ tableName +:+ "_"
  +:+ Format_20060102_150405 lastTimestamp +:+ ".parquet".

Definition batchSize : Z := 100.
Definition retentionDays : Z := 90.

Record Extracted : Type := mkExtracted {
  x_bucket : string;
  x_table : string;
  x_cutoff : Time;
  x_scanned : Scanned
}.

(** [run], from the configuration to the end of the scan loop. *)
Definition extract : M Extracted :=
  pgConnStr ← getEnv "PG_CONN_STRING"
                "postgresql://localhost:5432/iot?sslmode=disable";
  s3Bucket ← getEnv "S3_BUCKET" "my-iot-archive";
  tableName ← getEnv "TABLE_NAME" "iot_data";
  wrap "connecting to postgres" (sql_Open pgConnStr);;
  wrap "testing database connection" db_Ping;;
  now ← time_Now;
  let cutoff := AddDate_days now (- retentionDays) in
  rows ← wrap "querying old records" (db_Query tableName cutoff batchSize);
  scanned ← scan_rows tableName (cursor rows) (mkScanned [] zero_Time 0);
  wrap "reading rows" (rows_Err tableName rows);;
  mret (mkExtracted s3Bucket tableName cutoff scanned).

(** [run], from the empty-batch test to the end. *)
Definition archive (x : Extracted) : M unit :=
  if recordCount (x_scanned x) =? 0 then mret tt   (* "No records to archive" *)
  else
    wrap "writing parquet file"
      (writeParquetFile (records (x_scanned x)) parquetFile);;
    wrap "loading AWS config" config_LoadDefaultConfig;;
    let key := s3Key (lastTimestamp (x_scanned x)) (x_table x) in
    file ← wrap "opening parquet file" (os_Open parquetFile);
    wrap "uploading to S3" (s3_PutObject (x_bucket x) key file);;
    result ← wrap "deleting archived records" (db_Exec (x_table x) (x_cutoff x));
    ignore_error (RowsAffected result);;           (* deleted, _ := ... *)
    mret tt.

Definition run : M unit := x ← extract; archive x.

Definition main (F : Faults) (w : World) : Z := exit_status (res (run F w)).

End Single.

(** * Reasoning about computations *)

Section Monad_laws.
Context {A B : Type}.
Implicit Types (m : M A) (k : A -> M B).

Lemma bind_Ok m k F w a :
  res (m F w) = Ok a ->
  (m ≫= k) F w =
    mkOut (res (k a F (world (m F w)))) (world (k a F (world (m F w))))
          (events (m F w) ++ events (k a F (world (m F w)))).
Proof.
  unfold mbind, M_bind. destruct (m F w) as [r w1 evs]. simpl.
  intros ->. now destruct (k a F w1).
Qed.

Lemma bind_Fail m k F w e :
  res (m F w) = Fail e ->
  (m ≫= k) F w = mkOut (Fail e) (world (m F w)) (events (m F w)).
Proof.
  unfold mbind, M_bind. destruct (m F w) as [r w1 evs]. simpl. now intros ->.
Qed.

(** The calls of [m ≫= k] start with the calls of [m]. *)
Lemma bind_events_prefix m k F w :
  exists rest, events ((m ≫= k) F w) = events (m F w) ++ rest.
Proof.
  destruct (res (m F w)) as [a|e] eqn:E.
  - rewrite (bind_Ok _ _ _ _ _ E). simpl. eauto.
  - rewrite (bind_Fail _ _ _ _ _ E). simpl. exists []. now rewrite app_nil_r.
Qed.
End Monad_laws.

Lemma wrap_world {A} ctx (m : M A) F w : world (wrap ctx m F w) = world (m F w).
Proof. unfold wrap. now destruct (m F w) as [[|] ? ?]. Qed.

Lemma wrap_events {A} ctx (m : M A) F w : events (wrap ctx m F w) = events (m F w).
Proof. unfold wrap. now destruct (m F w) as [[|] ? ?]. Qed.

Lemma wrap_res {A} ctx (m : M A) F w :
  res (wrap ctx m F w) =
    match res (m F w) with Ok a => Ok a | Fail e => Fail (Errorf ctx e) end.
Proof. unfold wrap. now destruct (m F w) as [[|] ? ?]. Qed.

(** ** Frames: what a computation leaves alone, what it may call *)

(** [keeps proj m]: [m] never changes the component [proj] of the world. *)
Definition keeps {X A} (proj : World -> X) (m : M A) : Prop :=
  forall F w, proj (world (m F w)) = proj w.

(** [emits P m]: every external call of [m] satisfies [P]. *)
Definition emits {A} (P : Event -> Prop) (m : M A) : Prop :=
  forall F w, Forall P (events (m F w)).

Section Frames.
Context {X : Type} (proj : World -> X) (P : Event -> Prop).

Lemma keeps_ret {A} (a : A) : keeps proj (mret a).
Proof. now intros F w. Qed.

Lemma keeps_fail {A} e : keeps proj (@fail A e).
Proof. now intros F w. Qed.

Lemma keeps_bind {A B} (m : M A) (k : A -> M B) :
  keeps proj m -> (forall a, keeps proj (k a)) -> keeps proj (m ≫= k).
Proof.
  intros Hm Hk F w. destruct (res (m F w)) as [a|e] eqn:E.
  - rewrite (bind_Ok _ _ _ _ _ E). simpl. now rewrite Hk, Hm.
  - rewrite (bind_Fail _ _ _ _ _ E). simpl. apply Hm.
Qed.

Lemma keeps_wrap {A} ctx (m : M A) : keeps proj m -> keeps proj (wrap ctx m).
Proof. intros Hm F w. rewrite wrap_world. apply Hm. Qed.

Lemma keeps_ignore_error {A} (m : M A) : keeps proj m -> keeps proj (ignore_error m).
Proof.
  intros Hm F w. specialize (Hm F w). unfold ignore_error.
  now destruct (m F w).
Qed.

Lemma keeps_wrap_cleanup {A} ctx c (m : M A) :
  keeps proj m -> keeps proj c -> keeps proj (wrap_cleanup ctx c m).
Proof.
  intros Hm Hc F w. specialize (Hm F w). unfold wrap_cleanup.
  destruct (m F w) as [[a|e] w1 evs]; simpl in *; [exact Hm|].
  specialize (Hc F w1). destruct (c F w1). simpl in *. congruence.
Qed.

Lemma emits_ret {A} (a : A) : emits P (mret a).
Proof. intros F w. constructor. Qed.

Lemma emits_fail {A} e : emits P (@fail A e).
Proof. intros F w. constructor. Qed.

Lemma emits_bind {A B} (m : M A) (k : A -> M B) :
  emits P m -> (forall a, emits P (k a)) -> emits P (m ≫= k).
Proof.
  intros Hm Hk F w. destruct (res (m F w)) as [a|e] eqn:E.
  - rewrite (bind_Ok _ _ _ _ _ E). simpl. apply Forall_app. split; [apply Hm | apply Hk].
  - rewrite (bind_Fail _ _ _ _ _ E). simpl. apply Hm.
Qed.

Lemma emits_wrap {A} ctx (m : M A) : emits P m -> emits P (wrap ctx m).
Proof. intros Hm F w. rewrite wrap_events. apply Hm. Qed.

Lemma emits_ignore_error {A} (m : M A) : emits P m -> emits P (ignore_error m).
Proof.
  intros Hm F w. specialize (Hm F w). unfold ignore_error.
  now destruct (m F w).
Qed.

Lemma emits_wrap_cleanup {A} ctx c (m : M A) :
  emits P m -> emits P c -> emits P (wrap_cleanup ctx c m).
Proof.
  intros Hm Hc F w. specialize (Hm F w). unfold wrap_cleanup.
  destruct (m F w) as [[a|e] w1 evs]; simpl in *; [exact Hm|].
  specialize (Hc F w1). destruct (c F w1). simpl in *.
  apply Forall_app. now split.
Qed.
End Frames.

Lemma emits_weaken {A} (P Q : Event -> Prop) (m : M A) :
  (forall ev, P ev -> Q ev) -> emits P m -> emits Q m.
Proof. intros HPQ Hm F w. eapply Forall_impl; [apply Hm | exact HPQ]. Qed.

(** Proves a frame of a primitive call by running it under every fault. *)
Ltac prim_frame :=
  intros F w; cbv beta delta [os_LookupEnv time_Now os_Open sql_Open db_Ping
    db_Query rows_Scan rows_Err db_Exec RowsAffected NewLocalFileWriter
    NewParquetWriter pw_Write pw_WriteStop fw_Close config_LoadDefaultConfig
    s3_PutObject fail mret M_ret] zeta;
  repeat case_match; simpl;
  repeat first [reflexivity | constructor | progress simpl | eauto].

(** Splits a frame goal along the structure of the program. *)
Ltac frame_step :=
  first
    [ apply keeps_bind | apply emits_bind
    | apply keeps_wrap | apply emits_wrap
    | apply keeps_wrap_cleanup | apply emits_wrap_cleanup
    | apply keeps_ignore_error | apply emits_ignore_error
    | apply keeps_ret | apply emits_ret
    | apply keeps_fail | apply emits_fail ].

Create HintDb frames discriminated.

Ltac frame :=
  repeat (intros; cbv zeta;
          first [ solve [auto 2 with frames nocore] | frame_step ]);
  try solve [prim_frame]; eauto.

(** ** Classes of external calls *)

(** A call of the extraction stage; a query carries [cutoff] and [limit]. *)
Definition extract_call (cutoff : Time) (limit : Z) (ev : Event) : Prop :=
  match ev with
  | EvQuery _ c l _ => c = cutoff /\ l = limit
  | EvSqlOpen _ _ | EvPing _ | EvScanError _ | EvRowsError _ => True
  | _ => False
  end.

(** A call of the encoder on the file [path]. *)
Definition file_call (path : string) (ev : Event) : Prop :=
  match ev with
  | EvCreate p _ | EvNewWriter p _ | EvWrite p _ _ | EvWriteStop p _
  | EvClose p _ => p = path
  | _ => False
  end.

(** A delete statement bounded by [cutoff]. *)
Definition delete_call (cutoff : Time) (ev : Event) : Prop :=
  match ev with
  | EvDelete _ c _ => c = cutoff
  | _ => False
  end.

(** The three stores of the world and pairs of them. *)
Definition stores (w : World) := (database w, disk w, objects w).
Definition database_objects (w : World) := (database w, objects w).
Definition disk_objects (w : World) := (disk w, objects w).

Lemma extract_call_quiet cutoff limit ev :
  extract_call cutoff limit ev ->
  is_delete ev = false /\ is_put ev = false /\ is_file_write ev = false
  /\ event_path ev = None.
Proof. destruct ev; simpl; intuition. Qed.

Lemma file_call_quiet path ev :
  file_call path ev ->
  is_delete ev = false /\ is_put ev = false /\ is_query_failure ev = false
  /\ event_path ev = Some path.
Proof. destruct ev; simpl; intuition; subst; auto. Qed.

Lemma delete_call_quiet cutoff ev :
  delete_call cutoff ev ->
  is_delete ev = true /\ is_put ev = false /\ is_file_write ev = false
  /\ is_query_failure ev = false /\ event_path ev = None.
Proof. destruct ev; simpl; intuition. Qed.

(** ** Frames of the two programs *)

Section Extraction_frames.
Variables (cutoff : Time) (limit : Z).

Lemma scan_rows_keeps t cur acc : keeps stores (Multi.scan_rows t cur acc).
Proof. revert acc. induction cur; intros; simpl; frame. Qed.

Lemma scan_rows_emits t cur acc :
  emits (extract_call cutoff limit) (Multi.scan_rows t cur acc).
Proof. revert acc. induction cur; intros; simpl; frame. Qed.

Hint Resolve scan_rows_keeps scan_rows_emits : frames.

Lemma processTable_keeps t : keeps stores (Multi.processTable t cutoff limit).
Proof. unfold Multi.processTable. frame. Qed.

Lemma processTable_emits t :
  emits (extract_call cutoff limit) (Multi.processTable t cutoff limit).
Proof. unfold Multi.processTable. frame. Qed.

Hint Resolve processTable_keeps processTable_emits : frames.

Lemma process_tables_keeps ts acc :
  keeps stores (Multi.process_tables ts cutoff limit acc).
Proof. revert acc. induction ts; intros; simpl; frame. Qed.

Lemma process_tables_emits ts acc :
  emits (extract_call cutoff limit) (Multi.process_tables ts cutoff limit acc).
Proof. revert acc. induction ts; intros; simpl; frame. Qed.

Lemma single_scan_rows_keeps t cur s : keeps stores (Single.scan_rows t cur s).
Proof. revert s. induction cur; intros; simpl; frame. Qed.

Lemma single_scan_rows_emits t cur s :
  emits (extract_call cutoff limit) (Single.scan_rows t cur s).
Proof. revert s. induction cur; intros; simpl; frame. Qed.
End Extraction_frames.

Section Encoder_frames.
Variable filename : string.

Lemma write_records_keeps pw fw i recs :
  keeps database_objects (Multi.write_records pw fw i recs).
Proof. revert i. induction recs; intros; simpl; frame. Qed.

Lemma write_records_emits pw i recs :
  pw_path pw = filename ->
  emits (file_call filename) (Multi.write_records pw filename i recs).
Proof.
  intros Hp. revert i. induction recs; intros; simpl; frame;
    intros F w; unfold pw_Write, pw_WriteStop; cbv zeta;
    repeat case_match; repeat constructor; simpl; auto.
Qed.

Hint Resolve write_records_keeps write_records_emits : frames.

Lemma writeParquetFile_keeps recs :
  keeps database_objects (Multi.writeParquetFile recs filename).
Proof. unfold Multi.writeParquetFile. frame. Qed.

Lemma single_write_records_keeps pw fw i recs :
  keeps database_objects (Single.write_records pw fw i recs).
Proof. revert i. induction recs; intros; simpl; frame. Qed.

Lemma single_write_records_emits pw i recs :
  pw_path pw = filename ->
  emits (file_call filename) (Single.write_records pw filename i recs).
Proof.
  intros Hp. revert i. induction recs; intros; simpl; frame;
    intros F w; unfold pw_Write, pw_WriteStop; cbv zeta;
    repeat case_match; repeat constructor; simpl; auto.
Qed.

Hint Resolve single_write_records_keeps single_write_records_emits : frames.

Lemma single_writeParquetFile_keeps recs :
  keeps database_objects (Single.writeParquetFile recs filename).
Proof. unfold Single.writeParquetFile. frame. Qed.
End Encoder_frames.

Section Purger_frames.
Variable cutoff : Time.

Lemma deleteArchivedRecords_keeps t :
  keeps disk_objects (Multi.deleteArchivedRecords t cutoff).
Proof. unfold Multi.deleteArchivedRecords. frame. Qed.

Lemma deleteArchivedRecords_emits t :
  emits (delete_call cutoff) (Multi.deleteArchivedRecords t cutoff).
Proof. unfold Multi.deleteArchivedRecords. frame. Qed.

Hint Resolve deleteArchivedRecords_keeps deleteArchivedRecords_emits : frames.

Lemma delete_tables_keeps ts : keeps disk_objects (Multi.delete_tables ts cutoff).
Proof. induction ts; simpl; frame. Qed.

Lemma delete_tables_emits ts :
  emits (delete_call cutoff) (Multi.delete_tables ts cutoff).
Proof. induction ts; simpl; frame. Qed.
End Purger_frames.

#[global] Hint Resolve scan_rows_keeps scan_rows_emits processTable_keeps
  processTable_emits process_tables_keeps process_tables_emits
  single_scan_rows_keeps single_scan_rows_emits write_records_keeps
  writeParquetFile_keeps single_write_records_keeps
  single_writeParquetFile_keeps deleteArchivedRecords_keeps
  deleteArchivedRecords_emits delete_tables_keeps delete_tables_emits : frames.

(** ** Symbolic execution of straight-line code *)

Lemma emits_bind_res {A B} (P : Event -> Prop) (m : M A) (k : A -> M B) :
  emits P m ->
  (forall a F w, res (m F w) = Ok a -> Forall P (events (k a F (world (m F w))))) ->
  emits P (m ≫= k).
Proof.
  intros Hm Hk F w. destruct (res (m F w)) as [a|e] eqn:E.
  - rewrite (bind_Ok _ _ _ _ _ E). simpl. apply Forall_app. split; [apply Hm | now apply Hk].
  - rewrite (bind_Fail _ _ _ _ _ E). simpl. apply Hm.
Qed.

(** Unfolds the monad and the library calls, then computes the outcome as
    far as the faults decided so far allow. *)
Ltac mrun :=
  unfold mbind, M_bind, mret, M_ret, fail, wrap, wrap_cleanup, ignore_error,
    getEnv, os_LookupEnv, time_Now, os_Open, sql_Open, db_Ping, rows_Scan,
    rows_Err, RowsAffected, NewLocalFileWriter, NewParquetWriter,
    pw_WriteStop, fw_Close, config_LoadDefaultConfig, s3_PutObject in *;
  cbn beta iota zeta delta [res world events from_option id rows columns codec
    complete disk database objects environ clock set_disk set_database
    set_objects tick pw_path pw_columns CompressionType set_CompressionType
    cursor rows_err affected affected_err] in *.


(** Decides every remaining fault. *)
Ltac mcases :=
  repeat match goal with
         | |- context [if ?b then _ else _] => destruct b eqn:?; mrun
         end;
  try discriminate.

Ltac mcase b := destruct b eqn:?; mrun; try discriminate; try solve [mcases].

(** Names the outcome of a computation the goal is stuck on. *)
Ltac mstuck o r w evs E := destruct o as [r w evs] eqn:E; mrun.

(** ** The encoder *)

(** The file [writeParquetFile] leaves behind when it succeeds. *)
Definition multi_encode (recs : list Multi.IoTRecord) : list (list PValue) :=
  (fun r => Multi.marshal (Multi.ToParquet r)) <$> recs.
Definition multi_encoded (recs : list Multi.IoTRecord) : File :=
  mkFile Multi.schema (multi_encode recs) SNAPPY true.

Definition single_encode (recs : list Single.IoTRecord) : list (list PValue) :=
  (fun r => Single.marshal (Single.ToParquet r)) <$> recs.
Definition single_encoded (recs : list Single.IoTRecord) : File :=
  mkFile Single.schema (single_encode recs) SNAPPY true.

Lemma multi_write_records_ok pw i recs F w cols rws cdc :
  disk w !! pw_path pw = Some (mkFile cols rws cdc false) ->
  res (Multi.write_records pw (pw_path pw) i recs F w) = Ok tt ->
  disk (world (Multi.write_records pw (pw_path pw) i recs F w)) =
    <[pw_path pw := mkFile cols (rws ++ multi_encode recs) cdc false]> (disk w).
Proof.
  revert i w rws. induction recs as [|r recs IH]; intros i w rws Hf.
  - simpl. rewrite app_nil_r. intros _. symmetry. now apply insert_id.
  - simpl. unfold pw_Write. mrun. unfold file_at. rewrite Hf. mrun.
    mcase (write_fails F (length rws)).
    specialize (IH (i + 1) (set_disk (<[pw_path pw :=
       mkFile cols (rws ++ [Multi.marshal (Multi.ToParquet r)]) cdc false]> (disk w)) (tick F w))
       (rws ++ [Multi.marshal (Multi.ToParquet r)])).
    destruct (Multi.write_records _ _ _ _ _ _) as [[[]|e] w' evs']; mrun; [|discriminate].
    intros _. rewrite IH; [| apply lookup_insert_eq | reflexivity].
    cbn. rewrite insert_insert_eq. now rewrite <- app_assoc.
Qed.

Lemma multi_writeParquetFile_ok recs filename F w :
  res (Multi.writeParquetFile recs filename F w) = Ok tt ->
  disk (world (Multi.writeParquetFile recs filename F w)) =
    <[filename := multi_encoded recs]> (disk w).
Proof.
  unfold Multi.writeParquetFile. mrun.
  mcase (create_fails F). mcase (writer_fails F).
  set (pw := set_CompressionType SNAPPY _).
  set (w2 := set_disk _ _).
  pose proof (multi_write_records_ok pw 0 recs F w2 Multi.schema [] UNCOMPRESSED) as Hd.
  change (pw_path pw) with filename in Hd.
  destruct (Multi.write_records pw filename 0 recs F w2) as [[[]|e] w3 evs3];
    mrun; [|discriminate].
  unfold file_at. rewrite Hd; [| apply lookup_insert_eq | reflexivity]. clear Hd.
  rewrite lookup_insert_eq. cbn.
  mcase (stop_fails F). mcase (close_fails F).
  intros _. cbn. now rewrite !insert_insert_eq.
Qed.

Lemma single_write_records_ok pw i recs F w cols rws cdc :
  disk w !! pw_path pw = Some (mkFile cols rws cdc false) ->
  res (Single.write_records pw (pw_path pw) i recs F w) = Ok tt ->
  disk (world (Single.write_records pw (pw_path pw) i recs F w)) =
    <[pw_path pw := mkFile cols (rws ++ single_encode recs) cdc false]> (disk w).
Proof.
  revert i w rws. induction recs as [|r recs IH]; intros i w rws Hf.
  - simpl. rewrite app_nil_r. intros _. symmetry. now apply insert_id.
  - simpl. unfold pw_Write. mrun. unfold file_at. rewrite Hf. mrun.
    mcase (write_fails F (length rws)).
    specialize (IH (i + 1) (set_disk (<[pw_path pw :=
       mkFile cols (rws ++ [Single.marshal (Single.ToParquet r)]) cdc false]> (disk w)) (tick F w))
       (rws ++ [Single.marshal (Single.ToParquet r)])).
    destruct (Single.write_records _ _ _ _ _ _) as [[[]|e] w' evs']; mrun; [|discriminate].
    intros _. rewrite IH; [| apply lookup_insert_eq | reflexivity].
    cbn. rewrite insert_insert_eq. now rewrite <- app_assoc.
Qed.

Lemma single_writeParquetFile_ok recs filename F w :
  res (Single.writeParquetFile recs filename F w) = Ok tt ->
  disk (world (Single.writeParquetFile recs filename F w)) =
    <[filename := single_encoded recs]> (disk w).
Proof.
  unfold Single.writeParquetFile. mrun.
  mcase (create_fails F). mcase (writer_fails F).
  set (pw := set_CompressionType SNAPPY _).
  set (w2 := set_disk _ _).
  pose proof (single_write_records_ok pw 0 recs F w2 Single.schema [] UNCOMPRESSED) as Hd.
  change (pw_path pw) with filename in Hd.
  destruct (Single.write_records pw filename 0 recs F w2) as [[[]|e] w3 evs3];
    mrun; [|discriminate].
  unfold file_at. rewrite Hd; [| apply lookup_insert_eq | reflexivity]. clear Hd.
  rewrite lookup_insert_eq. cbn.
  mcase (stop_fails F). mcase (close_fails F).
  intros _. cbn. now rewrite !insert_insert_eq.
Qed.

Lemma NewLocalFileWriter_handle ctx filename F w fw :
  res (wrap ctx (NewLocalFileWriter filename) F w) = Ok fw -> fw = filename.
Proof. mrun. mcase (create_fails F). congruence. Qed.

Lemma NewParquetWriter_path ctx c fw cols F w pw :
  res (wrap_cleanup ctx c (NewParquetWriter fw cols) F w) = Ok pw ->
  pw_path pw = fw.
Proof.
  mrun. destruct (writer_fails F); mrun.
  - destruct (c F _). discriminate.
  - intros [= <-]. reflexivity.
Qed.

Lemma pw_WriteStop_emits pw : emits (file_call (pw_path pw)) (pw_WriteStop pw).
Proof.
  intros F w. unfold pw_WriteStop. cbv zeta.
  case_match; repeat constructor; simpl; auto.
Qed.

Lemma Forall_bind_res {A B} (P : Event -> Prop) (m : M A) (k : A -> M B) F w :
  Forall P (events (m F w)) ->
  (forall a, res (m F w) = Ok a -> Forall P (events (k a F (world (m F w))))) ->
  Forall P (events ((m ≫= k) F w)).
Proof.
  intros Hm Hk. destruct (res (m F w)) as [a|e] eqn:E.
  - rewrite (bind_Ok _ _ _ _ _ E). simpl. apply Forall_app. split; [apply Hm | now apply Hk].
  - rewrite (bind_Fail _ _ _ _ _ E). simpl. apply Hm.
Qed.

Lemma multi_write_tail_emits filename pw recs :
  pw_path pw = filename ->
  emits (file_call filename)
    (Multi.write_records pw filename 0 recs;;
     wrap_cleanup "stopping writer" (ignore_error (fw_Close filename))
       (pw_WriteStop pw);;
     wrap "closing file" (fw_Close filename);; mret ()).
Proof.
  intros Hp. frame. now apply write_records_emits.
Qed.

Lemma single_write_tail_emits filename pw recs :
  pw_path pw = filename ->
  emits (file_call filename)
    (Single.write_records pw filename 0 recs;;
     wrap_cleanup "stopping writer" (ignore_error (fw_Close filename))
       (pw_WriteStop pw);;
     wrap "closing file" (fw_Close filename);; mret ()).
Proof.
  intros Hp. frame. now apply single_write_records_emits.
Qed.

Lemma NewLocalFileWriter_emits ctx filename :
  emits (file_call filename) (wrap ctx (NewLocalFileWriter filename)).
Proof. frame. Qed.

Lemma NewParquetWriter_emits ctx fw cols :
  emits (file_call fw)
    (wrap_cleanup ctx (ignore_error (fw_Close fw)) (NewParquetWriter fw cols)).
Proof. frame. Qed.

Lemma multi_writeParquetFile_emits recs filename :
  emits (file_call filename) (Multi.writeParquetFile recs filename).
Proof.
  intros F w. unfold Multi.writeParquetFile.
  apply Forall_bind_res; [apply NewLocalFileWriter_emits|]. intros fw Hfw.
  apply NewLocalFileWriter_handle in Hfw as ->.
  apply Forall_bind_res; [apply NewParquetWriter_emits|].
  intros pw Hpw. apply NewParquetWriter_path in Hpw. cbv zeta.
  now apply multi_write_tail_emits.
Qed.

Lemma single_writeParquetFile_emits recs filename :
  emits (file_call filename) (Single.writeParquetFile recs filename).
Proof.
  intros F w. unfold Single.writeParquetFile.
  apply Forall_bind_res; [apply NewLocalFileWriter_emits|]. intros fw Hfw.
  apply NewLocalFileWriter_handle in Hfw as ->.
  apply Forall_bind_res; [apply NewParquetWriter_emits|].
  intros pw Hpw. apply NewParquetWriter_path in Hpw. cbv zeta.
  now apply single_write_tail_emits.
Qed.

(** ** The database statements *)

Lemma elem_of_List_filter {A} (f : A -> bool) (l : list A) x :
  x ∈ List.filter f l <-> f x = true /\ x ∈ l.
Proof. rewrite !list_elem_of_In, filter_In. tauto. Qed.

(** Newest first. *)
Definition newer_or_equal (a b : Row) : Prop :=
  t_ns (row_timestamp b) <= t_ns (row_timestamp a).

Lemma insert_desc_perm r l : insert_desc r l ≡ₚ r :: l.
Proof.
  induction l as [|x l IH]; simpl; [reflexivity|].
  destruct (Before _ _); [reflexivity|].
  rewrite IH. apply Permutation_swap.
Qed.

Lemma order_by_timestamp_desc_perm l : order_by_timestamp_desc l ≡ₚ l.
Proof.
  induction l as [|x l IH]; simpl; [reflexivity|].
  rewrite insert_desc_perm. now rewrite IH.
Qed.

Lemma insert_desc_sorted r l :
  StronglySorted newer_or_equal l -> StronglySorted newer_or_equal (insert_desc r l).
Proof.
  induction 1 as [|x l Hs IH Hx]; simpl.
  - repeat constructor.
  - unfold Before. destruct (Z.ltb_spec (t_ns (row_timestamp x)) (t_ns (row_timestamp r))).
    + constructor; [now constructor|].
      constructor; [unfold newer_or_equal; lia|].
      eapply Forall_impl; [exact Hx|]. unfold newer_or_equal. intros; lia.
    + constructor; [exact IH|].
      rewrite insert_desc_perm. constructor; [unfold newer_or_equal; lia | exact Hx].
Qed.

Lemma order_by_timestamp_desc_sorted l :
  StronglySorted newer_or_equal (order_by_timestamp_desc l).
Proof.
  induction l; simpl; [constructor | now apply insert_desc_sorted].
Qed.

Lemma StronglySorted_take {A} (R : relation A) n l :
  StronglySorted R l -> StronglySorted R (take n l).
Proof.
  intros H. revert n. induction H as [|x l Hs IH Hx]; intros [|n]; simpl;
    try constructor; auto.
  eapply Forall_forall. intros y Hy. eapply Forall_forall in Hx; [exact Hx|].
  eapply subseteq_take. exact Hy.
Qed.

Lemma sql_select_sorted t cutoff limit :
  StronglySorted newer_or_equal (sql_select t cutoff limit).
Proof. apply StronglySorted_take, order_by_timestamp_desc_sorted. Qed.

Lemma sql_select_elem t cutoff limit r :
  r ∈ sql_select t cutoff limit -> r ∈ t /\ Before (row_timestamp r) cutoff = true.
Proof.
  unfold sql_select. intros H. apply subseteq_take in H.
  rewrite order_by_timestamp_desc_perm in H.
  apply elem_of_List_filter in H. tauto.
Qed.

Lemma sql_select_length t cutoff limit :
  (length (sql_select t cutoff limit) =
     min (Z.to_nat limit) (length (List.filter (older_than cutoff) t)))%nat.
Proof.
  unfold sql_select. rewrite length_take.
  now rewrite (Permutation_length (order_by_timestamp_desc_perm _)).
Qed.

(** What a bounded query leaves behind: the older rows split into the rows
    selected and the rest. *)
Lemma sql_select_rest t cutoff limit :
  List.filter (older_than cutoff) t ≡ₚ
    sql_select t cutoff limit ++
    drop (Z.to_nat limit) (order_by_timestamp_desc (List.filter (older_than cutoff) t)).
Proof.
  unfold sql_select. rewrite take_drop. now rewrite order_by_timestamp_desc_perm.
Qed.

Lemma sql_delete_elem t cutoff r :
  r ∈ sql_delete t cutoff <-> r ∈ t /\ Before (row_timestamp r) cutoff = false.
Proof.
  unfold sql_delete. rewrite elem_of_List_filter. unfold older_than.
  destruct (Before _ _); simpl; intuition congruence.
Qed.

Lemma sql_delete_idemp t cutoff :
  sql_delete (sql_delete t cutoff) cutoff = sql_delete t cutoff.
Proof.
  unfold sql_delete. induction t as [|x t IH]; simpl; [reflexivity|].
  destruct (negb (older_than cutoff x)) eqn:E; simpl; [rewrite E|]; now rewrite IH.
Qed.

Lemma named_table_Some w t rows : named_table w t = Some rows -> database w !! t = Some rows.
Proof. unfold named_table. now destruct (String.eqb t ""). Qed.

Lemma named_table_empty w : named_table w "" = None.
Proof. reflexivity. Qed.

(** Decides whether the name denotes a table. *)
Tactic Notation "table_cases" constr(w) constr(t) "as" ident(rows) ident(Hdb) :=
  let Hrel := fresh "Hrel" in
  destruct (named_table w t) as [rows|] eqn:Hrel;
  [pose proof (named_table_Some _ _ _ Hrel) as Hdb; try rewrite Hdb|].

(** ** The extractor *)

Definition table_rows (w : World) (t : string) : list Row :=
  default [] (database w !! t).

Definition env_or (w : World) (key fallback : string) : string :=
  default fallback (environ w !! key).

(** The world once the connection is established, when [time.Now()] is
    read, and the cutoff computed there. *)
Definition connected (F : Faults) (w : World) : World := tick F (tick F w).
Definition run_cutoff (F : Faults) (w : World) : Time :=
  AddDate_days (clock (connected F w)) (- 90).

Definition configured_tables (w : World) : list string :=
  TrimSpace <$> Split_comma (env_or w "TABLE_NAMES" "iot_data").

(** The records one bounded query contributes, tagged with their table. *)
Definition selected (w : World) (cutoff : Time) (limit : Z) (t : string)
    : list Multi.IoTRecord :=
  Multi.tag t <$> sql_select (table_rows w t) cutoff limit.

(** The batch as the specification describes it: the records of every
    configured source, one source after the other. *)
Definition batch_of (w : World) (tables : list string) (cutoff : Time)
    (limit : Z) : list Multi.IoTRecord :=
  flat_map (selected w cutoff limit) tables.

Lemma faulty_cursor_clean fault found rs :
  cursor (faulty_cursor fault found) = Some <$> rs ->
  rows_err (faulty_cursor fault found) = false ->
  rs = found.
Proof.
  destruct fault as [| |n|n]; simpl; intros Hc He; try discriminate.
  - now apply (inj (fmap Some)) in Hc.
  - now apply (inj (fmap Some)) in Hc.
  - destruct (drop n found) as [|x rest] eqn:Hd.
    + rewrite app_nil_r in Hc. rewrite <- fmap_take in Hc.
      apply (inj (fmap Some)) in Hc. subst rs.
      pose proof (take_drop n found) as Htd. now rewrite Hd, app_nil_r in Htd.
    + exfalso. assert (None ∈ Some <$> rs) as Hin.
      { rewrite <- Hc. rewrite elem_of_app. right. left. }
      apply list_elem_of_fmap in Hin as (? & ? & _). discriminate.
Qed.

Lemma multi_scan_rows_ok t cur acc F w recs :
  res (Multi.scan_rows t cur acc F w) = Ok recs ->
  exists rs, cur = Some <$> rs /\ recs = acc ++ (Multi.tag t <$> rs)
             /\ Multi.scan_rows t cur acc F w = mkOut (Ok recs) w [].
Proof.
  revert acc. induction cur as [|[r|] cur IH]; intros acc; simpl; mrun.
  - intros [= <-]. exists []. now rewrite app_nil_r.
  - specialize (IH (acc ++ [Multi.tag t r])).
    destruct (Multi.scan_rows t cur _ F w) as [[rs|e] w' evs']; mrun; [|discriminate].
    intros [= <-]. destruct (IH eq_refl) as (found & -> & -> & [= -> ->]).
    exists (r :: found). simpl. now rewrite <- app_assoc.
  - discriminate.
Qed.

Lemma multi_processTable_ok t c l F w recs :
  res (Multi.processTable t c l F w) = Ok recs ->
  is_Some (database w !! t)
  /\ recs = selected w c l t
  /\ Multi.processTable t c l F w = mkOut (Ok recs) (tick F w) [EvQuery t c l true].
Proof.
  unfold Multi.processTable, db_Query, selected, table_rows. mrun.
  destruct (query_fault F t) eqn:Hq; table_cases w t as rows Hdb;
    mrun; try discriminate.
  all: match goal with
       | |- context [Multi.scan_rows ?t' ?cur [] ?F' ?w'] =>
           pose proof (multi_scan_rows_ok t' cur [] F' w') as Hs;
           destruct (Multi.scan_rows t' cur [] F' w') as [[rs|e] w1 evs1];
           mrun; [|discriminate];
           destruct (Hs _ eq_refl) as (found & Hc & -> & [= -> ->]); clear Hs
       end.
  all: try discriminate.
  all: intros [= <-]; split; [eauto|]; simpl.
  - assert (found = sql_select rows c l) as ->; [|easy].
    eapply (faulty_cursor_clean QueryOk); eauto.
  - assert (found = sql_select rows c l) as ->; [|easy].
    eapply (faulty_cursor_clean (ScanFails _)); eauto.
Qed.

Lemma table_rows_same w w' t : database w' = database w -> table_rows w' t = table_rows w t.
Proof. unfold table_rows. now intros ->. Qed.

Lemma selected_same w w' c l t : database w' = database w -> selected w' c l t = selected w c l t.
Proof. unfold selected. intros H. now rewrite (table_rows_same _ _ _ H). Qed.

Lemma batch_of_same w w' ts c l :
  database w' = database w -> batch_of w' ts c l = batch_of w ts c l.
Proof.
  intros H. unfold batch_of. apply flat_map_ext. intros t. now apply selected_same.
Qed.

Lemma multi_process_tables_ok ts c l acc F w recs :
  res (Multi.process_tables ts c l acc F w) = Ok recs ->
  Forall (fun t => is_Some (database w !! t)) ts
  /\ recs = acc ++ batch_of w ts c l
  /\ events (Multi.process_tables ts c l acc F w) = (fun t => EvQuery t c l true) <$> ts.
Proof.
  revert acc w. induction ts as [|t ts IH]; intros acc w; simpl.
  - mrun. intros [= <-]. now rewrite app_nil_r.
  - mrun. pose proof (multi_processTable_ok t c l F w) as Ht.
    destruct (Multi.processTable t c l F w) as [[rs|e] w1 evs1]; mrun; [|discriminate].
    destruct (Ht _ eq_refl) as (Hsome & -> & [= -> ->]). clear Ht.
    specialize (IH (acc ++ selected w c l t) (tick F w)).
    destruct (Multi.process_tables ts c l _ F (tick F w)) as [[rs|e] w2 evs2];
      mrun; [|discriminate].
    intros [= <-]. destruct (IH eq_refl) as (Hall & -> & ->).
    split; [constructor; assumption|]. split; [|reflexivity].
    rewrite (batch_of_same w (tick F w)) by reflexivity.
    now rewrite <- app_assoc.
Qed.

Lemma bind_out_eq {A B} (m : M A) (k : A -> M B) F w a w' evs :
  m F w = mkOut (Ok a) w' evs ->
  (m ≫= k) F w =
    match k a F w' with mkOut r w2 evs2 => mkOut r w2 (evs ++ evs2) end.
Proof. unfold mbind, M_bind. now intros ->. Qed.

Lemma getEnv_eq key fallback F w :
  getEnv key fallback F w = mkOut (Ok (env_or w key fallback)) w [].
Proof.
  unfold getEnv, env_or, os_LookupEnv, mbind, M_bind.
  now destruct (environ w !! key).
Qed.

Definition pg_conn (w : World) : string :=
  env_or w "PG_CONN_STRING" "postgresql://localhost:5432/iot?sslmode=disable".
Definition s3_bucket (w : World) : string := env_or w "S3_BUCKET" "my-iot-archive".

(** [extract], fault by fault. *)
Lemma multi_extract_eq F w :
  Multi.extract F w =
    if open_fails F then
      mkOut (Fail (Errorf "connecting to postgres" (LibError "sql: cannot open")))
            (tick F w) [EvSqlOpen (pg_conn w) false]
    else if ping_fails F then
      mkOut (Fail (Errorf "testing database connection"
                     (LibError "pq: connection refused")))
            (connected F w) [EvSqlOpen (pg_conn w) true; EvPing false]
    else
      match Multi.process_tables (configured_tables w) (run_cutoff F w) 100 []
              F (connected F w) with
      | mkOut (Ok recs) w' evs =>
          mkOut (Ok (Multi.mkExtracted (s3_bucket w) (configured_tables w)
                       (run_cutoff F w) recs))
                w' (EvSqlOpen (pg_conn w) true :: EvPing true :: evs)
      | mkOut (Fail e) w' evs =>
          mkOut (Fail e) w' (EvSqlOpen (pg_conn w) true :: EvPing true :: evs)
      end.
Proof.
  unfold Multi.extract.
  rewrite (bind_out_eq _ _ _ _ _ _ _ (getEnv_eq _ _ F w)).
  rewrite (bind_out_eq _ _ _ _ _ _ _ (getEnv_eq _ _ F w)).
  rewrite (bind_out_eq _ _ _ _ _ _ _ (getEnv_eq _ _ F w)).
  fold (pg_conn w) (s3_bucket w) (configured_tables w).
  unfold run_cutoff, connected, Multi.batchSize, Multi.retentionDays. mrun.
  destruct (open_fails F); mrun; [reflexivity|].
  destruct (ping_fails F); mrun; [reflexivity|].
  destruct (Multi.process_tables _ _ _ _ _ _) as [[?|?] ? ?];
    cbn [app]; rewrite ?app_nil_r; reflexivity.
Qed.

Lemma multi_extract_ok F w x :
  res (Multi.extract F w) = Ok x ->
  x = Multi.mkExtracted (s3_bucket w) (configured_tables w) (run_cutoff F w)
        (batch_of w (configured_tables w) (run_cutoff F w) 100)
  /\ Forall (fun t => is_Some (database w !! t)) (configured_tables w)
  /\ events (Multi.extract F w) =
       EvSqlOpen (pg_conn w) true :: EvPing true ::
       ((fun t => EvQuery t (run_cutoff F w) 100 true) <$> configured_tables w).
Proof.
  rewrite multi_extract_eq.
  destruct (open_fails F); [discriminate|].
  destruct (ping_fails F); [discriminate|].
  pose proof (multi_process_tables_ok (configured_tables w) (run_cutoff F w) 100 []
                F (connected F w)) as H.
  destruct (Multi.process_tables _ _ _ _ _ _) as [[recs|e] w' evs]; [|discriminate].
  simpl in *. intros [= <-]. destruct (H _ eq_refl) as (Hall & -> & ->).
  split; [|split]; [reflexivity | exact Hall | reflexivity].
Qed.

Lemma multi_extract_stores F w : stores (world (Multi.extract F w)) = stores w.
Proof.
  rewrite multi_extract_eq.
  destruct (open_fails F); [reflexivity|].
  destruct (ping_fails F); [reflexivity|].
  pose proof (process_tables_keeps (run_cutoff F w) 100 (configured_tables w) []
                F (connected F w)) as H.
  destruct (Multi.process_tables _ _ _ _ _ _) as [[recs|e] w' evs]; exact H.
Qed.

Lemma multi_extract_calls F w :
  Forall (extract_call (run_cutoff F w) 100) (events (Multi.extract F w)).
Proof.
  rewrite multi_extract_eq.
  destruct (open_fails F); [repeat constructor|].
  destruct (ping_fails F); [repeat constructor|].
  pose proof (process_tables_emits (run_cutoff F w) 100 (configured_tables w) []
                F (connected F w)) as H.
  destruct (Multi.process_tables _ _ _ _ _ _) as [[recs|e] w' evs];
    repeat constructor; exact H.
Qed.

(** *** The single-table program *)

Definition single_table (w : World) : string := env_or w "TABLE_NAME" "iot_data".

(** What the scan loop holds after the rows [rs]. *)
Definition scanned_of (rs : list Row) : Single.Scanned :=
  Single.mkScanned (Single.record_of <$> rs)
    (match rs with [] => zero_Time | r :: _ => row_timestamp r end)
    (Z.of_nat (length rs)).

Lemma single_scan_rows_ok t cur s F w s' :
  0 <= Single.recordCount s ->
  res (Single.scan_rows t cur s F w) = Ok s' ->
  exists rs,
    cur = Some <$> rs
    /\ s' = Single.mkScanned
              (Single.records s ++ (Single.record_of <$> rs))
              (if Single.recordCount s =? 0
               then match rs with
                    | [] => Single.lastTimestamp s
                    | r :: _ => row_timestamp r
                    end
               else Single.lastTimestamp s)
              (Single.recordCount s + Z.of_nat (length rs))
    /\ Single.scan_rows t cur s F w = mkOut (Ok s') w [].
Proof.
  revert s. induction cur as [|[r|] cur IH]; intros s Hs; simpl; mrun.
  - intros [= <-]. exists []. simpl. rewrite app_nil_r, Z.add_0_r.
    destruct s; simpl. now destruct (_ =? 0).
  - match goal with
    | |- context [Single.scan_rows t cur ?s1 F w] => specialize (IH s1)
    end.
    destruct (Single.scan_rows t cur _ F w) as [[s1|e] w' evs']; mrun; [|discriminate].
    intros [= <-]. destruct IH as (found & -> & -> & [= -> ->]); [simpl; lia | reflexivity |].
    exists (r :: found). simpl. split; [reflexivity|]. split; [|reflexivity].
    rewrite <- app_assoc. simpl. f_equal.
    + destruct (Z.eqb_spec (Single.recordCount s + 1) 0); [lia|].
      now destruct (Single.recordCount s =? 0).
    + lia.
  - discriminate.
Qed.

Lemma single_extract_start F w :
  Single.extract F w =
    if open_fails F then
      mkOut (Fail (Errorf "connecting to postgres" (LibError "sql: cannot open")))
            (tick F w) [EvSqlOpen (pg_conn w) false]
    else if ping_fails F then
      mkOut (Fail (Errorf "testing database connection"
                     (LibError "pq: connection refused")))
            (connected F w) [EvSqlOpen (pg_conn w) true; EvPing false]
    else
      match
        (rows ← wrap "querying old records"
                  (db_Query (single_table w) (run_cutoff F w) 100);
         scanned ← Single.scan_rows (single_table w) (cursor rows)
                     (Single.mkScanned [] zero_Time 0);
         wrap "reading rows" (rows_Err (single_table w) rows);;
         mret (Single.mkExtracted (s3_bucket w) (single_table w)
                 (run_cutoff F w) scanned)) F (connected F w)
      with
      | mkOut r w' evs =>
          mkOut r w' (EvSqlOpen (pg_conn w) true :: EvPing true :: evs)
      end.
Proof.
  unfold Single.extract.
  rewrite (bind_out_eq _ _ _ _ _ _ _ (getEnv_eq _ _ F w)).
  rewrite (bind_out_eq _ _ _ _ _ _ _ (getEnv_eq _ _ F w)).
  rewrite (bind_out_eq _ _ _ _ _ _ _ (getEnv_eq _ _ F w)).
  fold (pg_conn w) (s3_bucket w) (single_table w).
  unfold run_cutoff, connected, Single.batchSize, Single.retentionDays.
  unfold mbind at 1 2, M_bind at 1 2, wrap at 1 2, sql_Open, db_Ping.
  destruct (open_fails F); cbn; [reflexivity|].
  destruct (ping_fails F); cbn; [reflexivity|].
  unfold mbind at 1, M_bind at 1, time_Now. cbn.
  change (- (90)) with (-90).
  now destruct (@mbind M _ _ _ _ _ F (tick F (tick F w))) as [? ? ?].
Qed.

Lemma single_query_ok t c l b F w x :
  res ((rows ← wrap "querying old records" (db_Query t c l);
        scanned ← Single.scan_rows t (cursor rows) (Single.mkScanned [] zero_Time 0);
        wrap "reading rows" (rows_Err t rows);;
        mret (Single.mkExtracted b t c scanned)) F w) = Ok x ->
  is_Some (database w !! t)
  /\ x = Single.mkExtracted b t c (scanned_of (sql_select (table_rows w t) c l))
  /\ (rows ← wrap "querying old records" (db_Query t c l);
      scanned ← Single.scan_rows t (cursor rows) (Single.mkScanned [] zero_Time 0);
      wrap "reading rows" (rows_Err t rows);;
      mret (Single.mkExtracted b t c scanned)) F w
     = mkOut (Ok x) (tick F w) [EvQuery t c l true].
Proof.
  unfold db_Query, table_rows. mrun.
  destruct (query_fault F t) eqn:Hq; table_cases w t as rows Hdb;
    mrun; try discriminate.
  all: match goal with
       | |- context [Single.scan_rows ?t' ?cur ?s ?F' ?w'] =>
           pose proof (single_scan_rows_ok t' cur s F' w') as Hs;
           destruct (Single.scan_rows t' cur s F' w') as [[rs|e] w1 evs1];
           mrun; [|discriminate];
           destruct (Hs _ (Z.le_refl 0) eq_refl) as (found & Hc & -> & [= -> ->]);
           clear Hs
       end.
  all: try discriminate.
  all: intros [= <-]; split; [eauto|]; simpl.
  - assert (found = sql_select rows c l) as ->; [|easy].
    eapply (faulty_cursor_clean QueryOk); eauto.
  - assert (found = sql_select rows c l) as ->; [|easy].
    eapply (faulty_cursor_clean (ScanFails _)); eauto.
Qed.

Lemma single_query_keeps t c l b :
  keeps stores
    (rows ← wrap "querying old records" (db_Query t c l);
     scanned ← Single.scan_rows t (cursor rows) (Single.mkScanned [] zero_Time 0);
     wrap "reading rows" (rows_Err t rows);;
     mret (Single.mkExtracted b t c scanned)).
Proof. frame. Qed.

Lemma single_query_emits t c l b :
  emits (extract_call c l)
    (rows ← wrap "querying old records" (db_Query t c l);
     scanned ← Single.scan_rows t (cursor rows) (Single.mkScanned [] zero_Time 0);
     wrap "reading rows" (rows_Err t rows);;
     mret (Single.mkExtracted b t c scanned)).
Proof. frame. Qed.

Lemma single_extract_ok F w x :
  res (Single.extract F w) = Ok x ->
  x = Single.mkExtracted (s3_bucket w) (single_table w) (run_cutoff F w)
        (scanned_of (sql_select (table_rows w (single_table w)) (run_cutoff F w) 100))
  /\ is_Some (database w !! single_table w)
  /\ events (Single.extract F w) =
       [EvSqlOpen (pg_conn w) true; EvPing true;
        EvQuery (single_table w) (run_cutoff F w) 100 true].
Proof.
  rewrite single_extract_start.
  destruct (open_fails F); [discriminate|].
  destruct (ping_fails F); [discriminate|].
  pose proof (single_query_ok (single_table w) (run_cutoff F w) 100 (s3_bucket w)
                F (connected F w)) as H.
  destruct (@mbind M _ _ _ _ _ F (connected F w)) as [[x'|e] w' evs]; [|discriminate].
  simpl in *. intros [= <-]. destruct (H _ eq_refl) as (Hsome & -> & [= -> ->]).
  split; [|split]; [reflexivity | exact Hsome | reflexivity].
Qed.

Lemma single_extract_stores F w : stores (world (Single.extract F w)) = stores w.
Proof.
  rewrite single_extract_start.
  destruct (open_fails F); [reflexivity|].
  destruct (ping_fails F); [reflexivity|].
  pose proof (single_query_keeps (single_table w) (run_cutoff F w) 100 (s3_bucket w)
                F (connected F w)) as H.
  destruct (@mbind M _ _ _ _ _ F (connected F w)) as [r w' evs]; exact H.
Qed.

Lemma single_extract_calls F w :
  Forall (extract_call (run_cutoff F w) 100) (events (Single.extract F w)).
Proof.
  rewrite single_extract_start.
  destruct (open_fails F); [repeat constructor|].
  destruct (ping_fails F); [repeat constructor|].
  pose proof (single_query_emits (single_table w) (run_cutoff F w) 100 (s3_bucket w)
                F (connected F w)) as H.
  destruct (@mbind M _ _ _ _ _ F (connected F w)) as [r w' evs];
    repeat constructor; exact H.
Qed.

(** ** The purger *)

(** The tables after the delete statements on [ts] have run. *)
Definition purge (c : Time) (ts : list string) (db : gmap string (list Row))
    : gmap string (list Row) :=
  fold_left (fun db t => alter (fun rows => sql_delete rows c) t db) ts db.

Lemma purge_lookup c ts db t :
  purge c ts db !! t =
    if decide (t ∈ ts) then (fun rows => sql_delete rows c) <$> db !! t
    else db !! t.
Proof.
  revert db. induction ts as [|t' ts IH]; intros db; simpl.
  - reflexivity.
  - unfold purge in *. simpl. rewrite IH. rewrite lookup_alter.
    destruct (decide (t ∈ t' :: ts)) as [Hin|Hnin];
      destruct (decide (t ∈ ts)) as [Hts|Hts];
      destruct (decide (t' = t)) as [Heq|Hne]; subst; try reflexivity.
    + destruct (db !! t); simpl; [|reflexivity]. now rewrite sql_delete_idemp.
    + apply elem_of_cons in Hin as [->|?]; tauto.
    + exfalso. apply Hnin. now right.
    + exfalso. apply Hnin. now right.
    + exfalso. apply Hnin. now left.
Qed.

Lemma purge_app c ts1 ts2 db : purge c (ts1 ++ ts2) db = purge c ts2 (purge c ts1 db).
Proof. unfold purge. apply fold_left_app. Qed.

Lemma db_Exec_cases t c F w :
  (exists e, db_Exec t c F w = mkOut (Fail e) (tick F w) [EvDelete t c false])
  \/ (exists r rows,
        database w !! t = Some rows
        /\ affected r = sql_delete_count rows c
        /\ db_Exec t c F w =
             mkOut (Ok r) (set_database (purge c [t] (database w)) (tick F w))
                   [EvDelete t c true]).
Proof.
  unfold db_Exec.
  destruct (exec_fault F t); table_cases w t as rows Hdb;
    eauto.
  all: right; eexists (mkExecResult _ _), rows; split; [reflexivity|]; split; [reflexivity|].
  all: unfold purge; simpl; do 3 f_equal.
  all: apply map_eq; intros t'; rewrite lookup_alter, lookup_insert;
       destruct (decide (t = t')) as [->|]; [now rewrite Hdb | reflexivity].
Qed.

Lemma multi_deleteArchivedRecords_cases t c F w :
  let o := Multi.deleteArchivedRecords t c F w in
  (is_ok (res o) = false /\ world o = tick F w
   /\ events o = [EvDelete t c false])
  \/ (is_Some (database w !! t)
      /\ world o = set_database (purge c [t] (database w)) (tick F w)
      /\ events o = [EvDelete t c true]).
Proof.
  unfold Multi.deleteArchivedRecords. mrun.
  destruct (db_Exec_cases t c F w) as [(e & ->)|(r & rows & Hdb & _ & ->)]; mrun.
  - now left.
  - right. destruct (affected_err r); mrun; eauto.
Qed.

(** A delete statement of a purge that ran on the tables [done]. *)
Definition purge_call (c : Time) (done : list string) (ev : Event) : Prop :=
  match ev with
  | EvDelete t c' ok => c' = c /\ (ok = true -> t ∈ done)
  | _ => False
  end.

Lemma purge_call_mono c done done' ev :
  (forall t, t ∈ done -> t ∈ done') -> purge_call c done ev -> purge_call c done' ev.
Proof. destruct ev; simpl; intuition. Qed.

(** The purge stops at the first table whose statement fails. *)
Lemma multi_delete_tables_db ts c F w :
  let o := Multi.delete_tables ts c F w in
  exists done rest,
    ts = done ++ rest
    /\ database (world o) = purge c done (database w)
    /\ Forall (fun t => is_Some (database w !! t)) done
    /\ Forall (purge_call c done) (events o)
    /\ (is_ok (res o) = true -> rest = []).
Proof.
  revert w. induction ts as [|t ts IH]; intros w; simpl.
  - exists [], []. mrun. repeat split; auto.
  - mrun.
    destruct (multi_deleteArchivedRecords_cases t c F w) as [(Hr & Hw & He)|(Hs & Hw & He)].
    + destruct (Multi.deleteArchivedRecords t c F w) as [[n|e] w1 evs1];
        simpl in *; [discriminate|]. subst.
      exists [], (t :: ts). simpl. repeat split; auto; try discriminate.
      repeat constructor. discriminate.
    + destruct (Multi.deleteArchivedRecords t c F w) as [[n|e] w1 evs1];
        simpl in *; subst.
      * specialize (IH (set_database (purge c [t] (database w)) (tick F w))).
        destruct (Multi.delete_tables ts c F _) as [r w2 evs2]. simpl in *.
        destruct IH as (done & rest & -> & Hdb & Hall & Hev & Hok).
        exists (t :: done), rest. repeat split; auto.
        -- constructor; [exact Hs|].
           eapply Forall_impl; [exact Hall|]. intros t' [rows' Ht'].
           destruct (database w !! t') eqn:E; [eauto|]. exfalso.
           cbn in Ht'. rewrite lookup_alter in Ht'.
           destruct (decide (t = t')) as [->|]; rewrite E in Ht'; discriminate.
        -- constructor; [simpl; split; [reflexivity | intros _; left]|].
           eapply Forall_impl; [exact Hev|]. intros ev.
           apply purge_call_mono. intros t'. now right.
      * exists [t], ts. simpl. repeat split; auto; try discriminate.
        repeat constructor.
Qed.

(** ** The stages after the extraction *)

(** The calls between the encoder and the upload. *)
Definition before_upload (tl : list Event) : Prop :=
  tl = [] \/ tl = [EvLoadConfig false]
  \/ tl = [EvLoadConfig true; EvOpenFile parquetFile false].

(** How [archive] can end on a non-empty batch. *)
Lemma multi_archive_cases x first rest F w :
  Multi.x_records x = first :: rest ->
  let o := Multi.archive x F w in
  let key := Multi.s3Key (Multi.latest first rest) in
  let body := multi_encoded (Multi.x_records x) in
  exists enc,
    Forall (file_call parquetFile) enc
    /\ ((* stopped before the upload *)
        (exists tl,
            is_ok (res o) = false /\ events o = enc ++ tl /\ before_upload tl
            /\ database_objects (world o) = database_objects w)
        \/ (* the upload failed *)
        (is_ok (res o) = false
         /\ events o = enc ++ [EvLoadConfig true; EvOpenFile parquetFile true;
                               EvPutObject (Multi.x_bucket x) key body false]
         /\ database_objects (world o) = database_objects w
         /\ disk (world o) = <[parquetFile := body]> (disk w))
        \/ (* uploaded, then the purge *)
        (exists w5,
            database w5 = database w
            /\ let d := Multi.delete_tables (Multi.x_tables x) (Multi.x_cutoff x) F w5 in
               is_ok (res o) = is_ok (res d)
               /\ database (world o) = database (world d)
               /\ events o = enc ++ [EvLoadConfig true; EvOpenFile parquetFile true;
                                     EvPutObject (Multi.x_bucket x) key body true]
                                 ++ events d
               /\ disk (world o) = <[parquetFile := body]> (disk w)
               /\ objects (world o) =
                    <[(Multi.x_bucket x, key) := body]> (objects w))).
Proof.
  intros Hx. cbv zeta. unfold Multi.archive. rewrite Hx. rewrite <- Hx.
  pose proof (multi_writeParquetFile_emits (Multi.x_records x) parquetFile F w) as Hemit.
  pose proof (writeParquetFile_keeps parquetFile (Multi.x_records x) F w) as Hkeep.
  pose proof (multi_writeParquetFile_ok (Multi.x_records x) parquetFile F w) as Hok.
  mrun.
  destruct (Multi.writeParquetFile (Multi.x_records x) parquetFile F w)
    as [[[]|e] w1 evs1]; mrun; exists evs1; (split; [exact Hemit|]).
  2:{ left. exists []. rewrite app_nil_r. unfold before_upload. auto. }
  specialize (Hok eq_refl).
  destruct (config_fails F); mrun.
  { left. eexists. unfold before_upload. repeat split; eauto. }
  destruct (open_file_fails F); mrun.
  { left. eexists. unfold before_upload. repeat split; eauto. }
  unfold file_at. mrun. rewrite Hok, lookup_insert_eq. mrun.
  destruct (put_fails F); mrun; unfold file_at; mrun;
    rewrite Hok, lookup_insert_eq; mrun.
  { right. left. repeat split; auto. }
  right. right.
  pose proof (delete_tables_keeps (Multi.x_cutoff x) (Multi.x_tables x) F) as Hd.
  match goal with
  | |- context [Multi.delete_tables ?ts ?c F ?w'] =>
      exists w'; specialize (Hd w');
      destruct (Multi.delete_tables ts c F w') as [[[]|e] w6 evs6]
  end; mrun; injection Hkeep as Hk1 Hk2; injection Hd as Hd1 Hd2;
    rewrite ?app_nil_r; repeat split; auto; congruence.
Qed.

(** The last two statements of [Single.archive] (the one delete statement
    of the single-table program and the read of its row count), named so
    that they can be reasoned about apart from the stages before them. *)
Definition single_purge (x : Single.Extracted) : M unit :=
  result ← wrap "deleting archived records"
             (db_Exec (Single.x_table x) (Single.x_cutoff x));
  ignore_error (RowsAffected result);;
  mret tt.

Lemma single_purge_cases x F w :
  let o := single_purge x F w in
  (is_ok (res o) = false /\ world o = tick F w
   /\ events o = [EvDelete (Single.x_table x) (Single.x_cutoff x) false])
  \/ (is_ok (res o) = true
      /\ is_Some (database w !! Single.x_table x)
      /\ world o = set_database
                     (purge (Single.x_cutoff x) [Single.x_table x] (database w))
                     (tick F w)
      /\ events o = [EvDelete (Single.x_table x) (Single.x_cutoff x) true]).
Proof.
  unfold single_purge. mrun.
  destruct (db_Exec_cases (Single.x_table x) (Single.x_cutoff x) F w)
    as [(e & ->)|(r & rows & Hdb & _ & ->)]; mrun.
  - now left.
  - right. destruct (affected_err r); mrun; eauto.
Qed.

Lemma single_archive_cases x F w :
  Single.recordCount (Single.x_scanned x) <> 0 ->
  let o := Single.archive x F w in
  let key := Single.s3Key (Single.lastTimestamp (Single.x_scanned x))
               (Single.x_table x) in
  let body := single_encoded (Single.records (Single.x_scanned x)) in
  exists enc,
    Forall (file_call parquetFile) enc
    /\ ((* stopped before the upload *)
        (exists tl,
            is_ok (res o) = false /\ events o = enc ++ tl /\ before_upload tl
            /\ database_objects (world o) = database_objects w)
        \/ (* the upload failed *)
        (is_ok (res o) = false
         /\ events o = enc ++ [EvLoadConfig true; EvOpenFile parquetFile true;
                               EvPutObject (Single.x_bucket x) key body false]
         /\ database_objects (world o) = database_objects w
         /\ disk (world o) = <[parquetFile := body]> (disk w))
        \/ (* uploaded, then the purge *)
        (exists w5,
            database w5 = database w
            /\ let d := single_purge x F w5 in
               is_ok (res o) = is_ok (res d)
               /\ database (world o) = database (world d)
               /\ events o = enc ++ [EvLoadConfig true; EvOpenFile parquetFile true;
                                     EvPutObject (Single.x_bucket x) key body true]
                                 ++ events d
               /\ disk (world o) = <[parquetFile := body]> (disk w)
               /\ objects (world o) =
                    <[(Single.x_bucket x, key) := body]> (objects w))).
Proof.
  intros Hx. cbv zeta. unfold Single.archive.
  destruct (Z.eqb_spec (Single.recordCount (Single.x_scanned x)) 0) as [|_]; [tauto|].
  set (recs := Single.records (Single.x_scanned x)).
  pose proof (single_writeParquetFile_emits recs parquetFile F w) as Hemit.
  pose proof (single_writeParquetFile_keeps parquetFile recs F w) as Hkeep.
  pose proof (single_writeParquetFile_ok recs parquetFile F w) as Hok.
  unfold single_purge. mrun.
  destruct (Single.writeParquetFile recs parquetFile F w)
    as [[[]|e] w1 evs1]; mrun; exists evs1; (split; [exact Hemit|]).
  2:{ left. exists []. rewrite app_nil_r. unfold before_upload. auto. }
  specialize (Hok eq_refl).
  destruct (config_fails F); mrun.
  { left. eexists. unfold before_upload. repeat split; eauto. }
  destruct (open_file_fails F); mrun.
  { left. eexists. unfold before_upload. repeat split; eauto. }
  unfold file_at. mrun. rewrite Hok, lookup_insert_eq. mrun.
  destruct (put_fails F); mrun; unfold file_at; mrun;
    rewrite Hok, lookup_insert_eq; mrun.
  { right. left. repeat split; auto. }
  right. right.
  match goal with
  | |- context [db_Exec ?t ?c F ?w'] =>
      exists w';
      destruct (db_Exec_cases t c F w') as [(e & ->)|(r & rows & Hdb & _ & ->)]
  end; mrun; injection Hkeep as Hk1 Hk2.
  - repeat split; auto; congruence.
  - destruct (affected_err r); mrun; repeat split; auto; congruence.
Qed.

(** * The shape of a run, for either program *)

Inductive Program : Type := MultiTable | SingleTable.

Definition run_of (p : Program) : M unit :=
  match p with MultiTable => Multi.run | SingleTable => Single.run end.

Definition main_of (p : Program) (F : Faults) (w : World) : Z :=
  match p with MultiTable => Multi.main F w | SingleTable => Single.main F w end.

(** The configured sources. *)
Definition sources_of (p : Program) (w : World) : list string :=
  match p with
  | MultiTable => configured_tables w
  | SingleTable => [single_table w]
  end.

(** The timestamps of the extracted batch, in batch order; [None] when the
    extraction fails. *)
Definition batch_timestamps (p : Program) (F : Faults) (w : World)
    : option (list Time) :=
  match p with
  | MultiTable =>
      match res (Multi.extract F w) with
      | Ok x => Some (Multi.Timestamp <$> Multi.x_records x)
      | Fail _ => None
      end
  | SingleTable =>
      match res (Single.extract F w) with
      | Ok x => Some (Single.Timestamp <$> Single.records (Single.x_scanned x))
      | Fail _ => None
      end
  end.

(** The timestamp the object key is computed from. *)
Definition key_timestamp (p : Program) (F : Faults) (w : World) : Time :=
  match p with
  | MultiTable =>
      match res (Multi.extract F w) with
      | Ok x => match Multi.x_records x with
                | first :: rest => Multi.latest first rest
                | [] => zero_Time
                end
      | Fail _ => zero_Time
      end
  | SingleTable =>
      match res (Single.extract F w) with
      | Ok x => Single.lastTimestamp (Single.x_scanned x)
      | Fail _ => zero_Time
      end
  end.

(** The object key of the run. *)
Definition key_of (p : Program) (F : Faults) (w : World) : string :=
  match p with
  | MultiTable => Multi.s3Key (key_timestamp p F w)
  | SingleTable => Single.s3Key (key_timestamp p F w) (single_table w)
  end.

(** The encoded batch of the run. *)
Definition artifact_of (p : Program) (F : Faults) (w : World) : File :=
  match p with
  | MultiTable =>
      match res (Multi.extract F w) with
      | Ok x => multi_encoded (Multi.x_records x)
      | Fail _ => empty_file
      end
  | SingleTable =>
      match res (Single.extract F w) with
      | Ok x => single_encoded (Single.records (Single.x_scanned x))
      | Fail _ => empty_file
      end
  end.

Definition no_query_failure (ev : Event) : Prop := is_query_failure ev = false.

(** The five ways a run can go: [Idle → Extracting → Encoding → Uploading →
    Purging → Done], with a failure of any stage ending the run. *)
Inductive run_shape (p : Program) (F : Faults) (w : World) (o : Out unit) : Prop :=
  | aborted_in_extraction :
      batch_timestamps p F w = None ->
      is_ok (res o) = false ->
      Forall (extract_call (run_cutoff F w) 100) (events o) ->
      stores (world o) = stores w ->
      run_shape p F w o
  | nothing_to_archive :
      batch_timestamps p F w = Some [] ->
      res o = Ok tt ->
      Forall (extract_call (run_cutoff F w) 100) (events o) ->
      Forall no_query_failure (events o) ->
      stores (world o) = stores w ->
      run_shape p F w o
  | stopped_before_upload qs enc tl :
      batch_timestamps p F w <> None ->
      batch_timestamps p F w <> Some [] ->
      events o = qs ++ enc ++ tl ->
      Forall (extract_call (run_cutoff F w) 100) qs ->
      Forall no_query_failure qs ->
      Forall (file_call parquetFile) enc ->
      before_upload tl ->
      is_ok (res o) = false ->
      database_objects (world o) = database_objects w ->
      run_shape p F w o
  | upload_failed qs enc :
      batch_timestamps p F w <> None ->
      batch_timestamps p F w <> Some [] ->
      events o = qs ++ enc ++
                 [EvLoadConfig true; EvOpenFile parquetFile true;
                  EvPutObject (s3_bucket w) (key_of p F w) (artifact_of p F w) false] ->
      Forall (extract_call (run_cutoff F w) 100) qs ->
      Forall no_query_failure qs ->
      Forall (file_call parquetFile) enc ->
      is_ok (res o) = false ->
      database_objects (world o) = database_objects w ->
      disk (world o) = <[parquetFile := artifact_of p F w]> (disk w) ->
      run_shape p F w o
  | uploaded qs enc dels done rest :
      batch_timestamps p F w <> None ->
      batch_timestamps p F w <> Some [] ->
      events o = qs ++ enc ++
                 [EvLoadConfig true; EvOpenFile parquetFile true;
                  EvPutObject (s3_bucket w) (key_of p F w) (artifact_of p F w) true]
                 ++ dels ->
      Forall (extract_call (run_cutoff F w) 100) qs ->
      Forall no_query_failure qs ->
      Forall (file_call parquetFile) enc ->
      Forall (purge_call (run_cutoff F w) done) dels ->
      sources_of p w = done ++ rest ->
      (is_ok (res o) = true -> rest = []) ->
      database (world o) = purge (run_cutoff F w) done (database w) ->
      disk (world o) = <[parquetFile := artifact_of p F w]> (disk w) ->
      objects (world o) =
        <[(s3_bucket w, key_of p F w) := artifact_of p F w]> (objects w) ->
      run_shape p F w o.

Lemma multi_extract_no_failure F w x :
  res (Multi.extract F w) = Ok x ->
  Forall no_query_failure (events (Multi.extract F w)).
Proof.
  intros H. destruct (multi_extract_ok _ _ _ H) as (_ & _ & ->).
  repeat constructor. apply Forall_fmap. apply Forall_forall. now intros.
Qed.

Lemma single_extract_no_failure F w x :
  res (Single.extract F w) = Ok x ->
  Forall no_query_failure (events (Single.extract F w)).
Proof.
  intros H. destruct (single_extract_ok _ _ _ H) as (_ & _ & ->).
  repeat constructor.
Qed.

Lemma multi_run_shape F w : run_shape MultiTable F w (Multi.run F w).
Proof.
  pose proof (multi_extract_ok F w) as Hok.
  pose proof (multi_extract_no_failure F w) as Hnf.
  pose proof (multi_extract_stores F w) as Hst.
  pose proof (multi_extract_calls F w) as Hca.
  unfold Multi.run, mbind, M_bind.
  destruct (Multi.extract F w) as [[x|e] w1 evs1] eqn:Hex; simpl in *.
  2:{ apply aborted_in_extraction; simpl; auto. now rewrite Hex. }
  destruct (Hok _ eq_refl) as (Hx & Hsrc & Hevs). specialize (Hnf _ eq_refl).
  destruct (Multi.x_records x) as [|first rest] eqn:Hrecs.
  - unfold Multi.archive. rewrite Hrecs. mrun. rewrite app_nil_r.
    apply nothing_to_archive; simpl; auto. now rewrite Hex; simpl; rewrite Hrecs.
  - injection Hst as Hdb Hdisk Hobj.
    assert (batch_timestamps MultiTable F w <> None) as Hb1
      by (simpl; rewrite Hex; simpl; discriminate).
    assert (batch_timestamps MultiTable F w <> Some []) as Hb2
      by (simpl; rewrite Hex; simpl; rewrite Hrecs; discriminate).
    assert (key_of MultiTable F w = Multi.s3Key (Multi.latest first rest)) as Hkey
      by (simpl; rewrite Hex; simpl; now rewrite Hrecs).
    assert (artifact_of MultiTable F w = multi_encoded (Multi.x_records x)) as Hart
      by (simpl; now rewrite Hex).
    assert (Multi.x_bucket x = s3_bucket w) as Hbu by now rewrite Hx.
    assert (Multi.x_cutoff x = run_cutoff F w) as Hcu by now rewrite Hx.
    assert (Multi.x_tables x = configured_tables w) as Hta by now rewrite Hx.
    destruct (multi_archive_cases x first rest F w1 Hrecs)
      as (enc & Henc & [(tl & Hr & He & Htl & Hk)
                       |[(Hr & He & Hk & Hd)|(w5 & Hw5 & Hr & Hdd & He & Hd & Ho)]]);
      cbv zeta in *; rewrite <- ?Hrecs in *;
      destruct (Multi.archive x F w1) as [r w2 evs2]; simpl in *.
    + eapply (stopped_before_upload _ _ _ _ evs1 enc tl); simpl; auto.
      * now rewrite He.
      * unfold database_objects in *. congruence.
    + eapply (upload_failed _ _ _ _ evs1 enc); simpl; auto.
      * rewrite He, Hkey, Hart, Hbu. reflexivity.
      * unfold database_objects in *. congruence.
      * rewrite Hart. congruence.
    + destruct (multi_delete_tables_db (Multi.x_tables x) (Multi.x_cutoff x) F w5)
        as (done & rst & Hsplit & Hpdb & _ & Hpev & Hpok).
      cbv zeta in *. rewrite Hcu in *.
      eapply (uploaded _ _ _ _ evs1 enc
                (events (Multi.delete_tables (Multi.x_tables x) (run_cutoff F w) F w5))
                done rst); simpl; auto.
      * rewrite He, Hkey, Hart, Hbu. reflexivity.
      * now rewrite <- Hta.
      * intros H. apply Hpok. now rewrite <- Hr.
      * rewrite Hdd, Hpdb. congruence.
      * rewrite Hart. congruence.
      * rewrite Hkey, Hart, <- Hbu. congruence.
Qed.

Lemma single_purge_db x F w :
  let o := single_purge x F w in
  exists done rest,
    [Single.x_table x] = done ++ rest
    /\ database (world o) = purge (Single.x_cutoff x) done (database w)
    /\ Forall (purge_call (Single.x_cutoff x) done) (events o)
    /\ (is_ok (res o) = true -> rest = []).
Proof.
  destruct (single_purge_cases x F w) as [(Hr & Hw & He)|(Hr & Hs & Hw & He)];
    cbv zeta in *.
  - exists [], [Single.x_table x]. rewrite Hw, He, Hr. repeat split; auto.
    + repeat constructor. discriminate.
    + discriminate.
  - exists [Single.x_table x], []. rewrite Hw, He. repeat split; auto.
    repeat constructor.
Qed.

Lemma single_run_shape F w : run_shape SingleTable F w (Single.run F w).
Proof.
  pose proof (single_extract_ok F w) as Hok.
  pose proof (single_extract_no_failure F w) as Hnf.
  pose proof (single_extract_stores F w) as Hst.
  pose proof (single_extract_calls F w) as Hca.
  unfold Single.run, mbind, M_bind.
  destruct (Single.extract F w) as [[x|e] w1 evs1] eqn:Hex; simpl in *.
  2:{ apply aborted_in_extraction; simpl; auto. now rewrite Hex. }
  destruct (Hok _ eq_refl) as (Hx & Hsrc & Hevs). specialize (Hnf _ eq_refl).
  set (q := sql_select (table_rows w (single_table w)) (run_cutoff F w) 100) in *.
  assert (Single.recordCount (Single.x_scanned x) = Z.of_nat (length q)) as Hcount
    by now rewrite Hx.
  assert (Single.records (Single.x_scanned x) = Single.record_of <$> q) as Hrecs
    by now rewrite Hx.
  destruct q as [|r0 q'] eqn:Hq.
  - unfold Single.archive. rewrite Hcount. cbn. mrun. rewrite ?app_nil_r.
    apply nothing_to_archive; simpl; rewrite ?app_nil_r; auto.
    rewrite Hex; simpl. now rewrite Hrecs.
  - injection Hst as Hdb Hdisk Hobj.
    assert (Single.recordCount (Single.x_scanned x) <> 0) as Hne
      by (rewrite Hcount; simpl; lia).
    assert (batch_timestamps SingleTable F w <> None) as Hb1
      by (simpl; rewrite Hex; simpl; discriminate).
    assert (batch_timestamps SingleTable F w <> Some []) as Hb2
      by (simpl; rewrite Hex; simpl; rewrite Hrecs; discriminate).
    assert (Single.x_bucket x = s3_bucket w) as Hbu by now rewrite Hx.
    assert (Single.x_cutoff x = run_cutoff F w) as Hcu by now rewrite Hx.
    assert (Single.x_table x = single_table w) as Hta by now rewrite Hx.
    assert (key_of SingleTable F w =
              Single.s3Key (Single.lastTimestamp (Single.x_scanned x))
                (Single.x_table x)) as Hkey
      by (simpl; rewrite Hex; simpl; now rewrite Hta).
    assert (artifact_of SingleTable F w =
              single_encoded (Single.records (Single.x_scanned x))) as Hart
      by (simpl; now rewrite Hex).
    clear Hx Hq Hcount Hrecs.
    destruct (single_archive_cases x F w1 Hne)
      as (enc & Henc & [(tl & Hr & He & Htl & Hk)
                       |[(Hr & He & Hk & Hd)|(w5 & Hw5 & Hr & Hdd & He & Hd & Ho)]]);
      cbv zeta in *;
      destruct (Single.archive x F w1) as [r w2 evs2]; simpl in *.
    + eapply (stopped_before_upload _ _ _ _ evs1 enc tl); simpl; auto.
      * now rewrite He.
      * unfold database_objects in *. congruence.
    + eapply (upload_failed _ _ _ _ evs1 enc); simpl; auto.
      * rewrite He. fold (key_of SingleTable F w). rewrite Hkey, Hart, Hbu. reflexivity.
      * unfold database_objects in *. congruence.
      * rewrite Hart. congruence.
    + destruct (single_purge_db x F w5) as (done & rst & Hsplit & Hpdb & Hpev & Hpok).
      cbv zeta in *. rewrite Hcu in *.
      eapply (uploaded _ _ _ _ evs1 enc (events (single_purge x F w5)) done rst);
        simpl; auto.
      * rewrite He. fold (key_of SingleTable F w). rewrite Hkey, Hart, Hbu. reflexivity.
      * now rewrite <- Hta.
      * intros H. apply Hpok. now rewrite <- Hr.
      * rewrite Hdd, Hpdb. congruence.
      * rewrite Hart. congruence.
      * fold (key_of SingleTable F w). rewrite Hkey, Hart, <- Hbu. congruence.
Qed.

Theorem run_shape_holds p F w : run_shape p F w (run_of p F w).
Proof. destruct p; [apply multi_run_shape | apply single_run_shape]. Qed.

(** ** Bounded checks by computation *)

(** One step of a scan of [f] upwards: the next number and whether [f] held
    so far. *)
Definition scan_step (f : Z -> bool) (s : Z * bool) : Z * bool :=
  (fst s + 1, (snd s && f (fst s))%bool).

Definition holds_on (f : Z -> bool) (lo : Z) (n : positive) : Z * bool :=
  Pos.iter (scan_step f) (lo, true) n.

Lemma holds_on_spec f lo n hi :
  holds_on f lo n = (hi, true) -> forall z, lo <= z < hi -> f z = true.
Proof.
  unfold holds_on. intros H.
  assert (let s := Pos.iter (scan_step f) (lo, true) n in
          lo <= fst s /\ (snd s = true -> forall z, lo <= z < fst s -> f z = true)) as Hinv.
  { apply Pos.iter_invariant.
    - intros [z ok] [Hlo Hall]. simpl in *. split; [lia|].
      intros [Hok Hf]%andb_prop y Hy.
      destruct (Z.eq_dec y z) as [->|]; [exact Hf|]. apply Hall; [exact Hok | lia].
    - simpl. split; [lia|]. intros _ z Hz. lia. }
  rewrite H in Hinv. simpl in Hinv. now apply Hinv.
Qed.

Definition is_digit (c : ascii) : bool :=
  let n := nat_of_ascii c in (Nat.leb 48 n && Nat.leb n 57)%bool.

(** [s] consists of exactly [width] decimal digits. *)
Definition all_digits (width : nat) (s : string) : bool :=
  (Nat.eqb (String.length s) width
   && forallb is_digit (list_ascii_of_string s))%bool.

Definition month_day_ok (doe : Z) : bool :=
  let doy := day_of_year doe in
  let mp := month_index doy in
  let d := doy - (153 * mp + 2) / 5 + 1 in
  ((0 <=? mp) && (mp <=? 11) && (1 <=? d) && (d <=? 31))%bool.

Lemma month_day_ok_cycle : holds_on month_day_ok 0 146097 = (146097, true).
Proof. vm_compute. reflexivity. Qed.

Lemma two_digits_ok :
  holds_on (fun v => all_digits 2 (appendInt v 2)) 0 100 = (100, true).
Proof. vm_compute. reflexivity. Qed.

Lemma four_digits_ok :
  holds_on (fun v => all_digits 4 (appendInt v 4)) 0 10000 = (10000, true).
Proof. vm_compute. reflexivity. Qed.

Lemma year_digits_ok :
  holds_on (fun v => all_digits 4 (fmt_d v)) 1000 9000 = (10000, true).
Proof. vm_compute. reflexivity. Qed.

Lemma month_digits_ok :
  holds_on (fun v => all_digits 2 (fmt_02d v)) 1 12 = (13, true).
Proof. vm_compute. reflexivity. Qed.

(** ** Calendar fields are in range *)

Lemma Month_Day_range t : 1 <= Month t <= 12 /\ 1 <= Day t <= 31.
Proof.
  unfold Month, Day, civil_month, civil_day.
  set (doe := day_of_era (local_days t)).
  assert (0 <= doe < 146097) as Hdoe by (apply Z.mod_pos_bound; lia).
  pose proof (holds_on_spec _ _ _ _ month_day_ok_cycle doe Hdoe) as H.
  unfold month_day_ok in H. cbv zeta in H.
  destruct (month_index (day_of_year doe) <? 10) eqn:E; lia.
Qed.

Lemma clock_range t :
  0 <= Hour t <= 23 /\ 0 <= Minute t <= 59 /\ 0 <= Second t <= 59.
Proof.
  unfold Hour, Minute, Second.
  assert (0 <= secs_of_day t < 86400) as H by (apply Z.mod_pos_bound; lia).
  repeat split.
  - apply Z.div_pos; lia.
  - assert (secs_of_day t / 3600 < 24) by (apply Z.div_lt_upper_bound; lia). lia.
  - apply Z.div_pos; [apply Z.mod_pos_bound|]; lia.
  - assert (secs_of_day t mod 3600 / 60 < 60)
      by (apply Z.div_lt_upper_bound; [|pose proof (Z.mod_pos_bound (secs_of_day t) 3600)]; lia).
    lia.
  - apply Z.mod_pos_bound; lia.
  - pose proof (Z.mod_pos_bound (secs_of_day t) 60). lia.
Qed.

Lemma two_digits v : 0 <= v <= 99 -> all_digits 2 (appendInt v 2) = true.
Proof. intros H. apply (holds_on_spec _ _ _ _ two_digits_ok). lia. Qed.

Lemma four_digits v : 0 <= v <= 9999 -> all_digits 4 (appendInt v 4) = true.
Proof. intros H. apply (holds_on_spec _ _ _ _ four_digits_ok). lia. Qed.

Lemma year_component_digits v : 1000 <= v <= 9999 -> all_digits 4 (fmt_d v) = true.
Proof. intros H. apply (holds_on_spec _ _ _ _ year_digits_ok). lia. Qed.

Lemma month_component_digits t : all_digits 2 (fmt_02d (Month t)) = true.
Proof.
  apply (holds_on_spec _ _ _ _ month_digits_ok).
  pose proof (Month_Day_range t). lia.
Qed.

(** The shape [YYYYMMDD_HHMMSS]. *)
Definition is_stamp (s : string) : bool :=
  match list_ascii_of_string s with
  | [y1; y2; y3; y4; m1; m2; d1; d2; u; h1; h2; i1; i2; s1; s2] =>
      (forallb is_digit [y1; y2; y3; y4; m1; m2; d1; d2; h1; h2; i1; i2; s1; s2]
       && Ascii.eqb u "_")%bool
  | _ => false
  end.

Lemma all_digits_2_inv s :
  all_digits 2 s = true ->
  exists a b, s = String a (String b "") /\ is_digit a = true /\ is_digit b = true.
Proof.
  unfold all_digits. destruct s as [|a [|b [|c s]]]; simpl; try discriminate.
  intros H. exists a, b. destruct (is_digit a), (is_digit b); simpl in *;
    try discriminate; auto.
Qed.

Lemma all_digits_4_inv s :
  all_digits 4 s = true ->
  exists a b c d, s = String a (String b (String c (String d "")))
    /\ is_digit a = true /\ is_digit b = true /\ is_digit c = true
    /\ is_digit d = true.
Proof.
  unfold all_digits. destruct s as [|a [|b [|c [|d [|e s]]]]]; simpl; try discriminate.
  intros H. exists a, b, c, d.
  destruct (is_digit a), (is_digit b), (is_digit c), (is_digit d); simpl in *;
    try discriminate; auto.
Qed.

Lemma Format_is_stamp t :
  0 <= Year t <= 9999 -> is_stamp (Format_20060102_150405 t) = true.
Proof.
  intros Hy. pose proof (Month_Day_range t) as [Hm Hd].
  pose proof (clock_range t) as (Hh & Hi & Hs).
  unfold Format_20060102_150405.
  destruct (all_digits_4_inv _ (four_digits _ Hy)) as (y1 & y2 & y3 & y4 & -> & ? & ? & ? & ?).
  destruct (all_digits_2_inv (appendInt (Month t) 2)) as (m1 & m2 & -> & ? & ?);
    [apply two_digits; lia|].
  destruct (all_digits_2_inv (appendInt (Day t) 2)) as (d1 & d2 & -> & ? & ?);
    [apply two_digits; lia|].
  destruct (all_digits_2_inv (appendInt (Hour t) 2)) as (h1 & h2 & -> & ? & ?);
    [apply two_digits; lia|].
  destruct (all_digits_2_inv (appendInt (Minute t) 2)) as (i1 & i2 & -> & ? & ?);
    [apply two_digits; lia|].
  destruct (all_digits_2_inv (appendInt (Second t) 2)) as (s1 & s2 & -> & ? & ?);
    [apply two_digits; lia|].
  unfold is_stamp. simpl.
  repeat match goal with H : is_digit _ = true |- _ => rewrite H; clear H end.
  reflexivity.
Qed.

(** ** Sample runs *)

Definition sample_now : Time := Date 2024 11 5 12 0 0.

Definition sample_rows : list Row :=
  [mkRow 1 (Date 2024 1 15 10 0 0) "dev1" 42;
   mkRow 2 (Date 2024 3 20 8 30 0) "dev2" 43;
   mkRow 3 (Date 2024 10 1 0 0 0) "dev1" 44].

Definition sample_environ : gmap string string :=
  <["TABLE_NAMES" := "a, b"]> (<["TABLE_NAME" := "a"]> ∅).

(** Two sources: [a] holds two rows older than the cutoff and a recent
    one, [b] is empty. *)
Definition sample_world : World :=
  mkWorld sample_environ sample_now
          (<["a" := sample_rows]> (<["b" := []]> ∅)) ∅ ∅.

(** The same sources with nothing old enough to archive. *)
Definition quiet_world : World :=
  mkWorld sample_environ sample_now
          (<["a" := [mkRow 3 (Date 2024 10 1 0 0 0) "dev1" 44]]> (<["b" := []]> ∅))
          ∅ ∅.

Definition upload_down : Faults :=
  mkFaults false false (fun _ => QueryOk) false false (fun _ => false)
           false false false false true (fun _ => ExecOk) 1000000.



(** * The properties of the specification *)

(** A call that neither writes the local file, nor uploads, nor deletes. *)
Definition read_only_call (ev : Event) : Prop :=
  is_file_write ev = false /\ is_put ev = false /\ is_delete ev = false.

Lemma extract_call_read_only c l ev : extract_call c l ev -> read_only_call ev.
Proof. intros H. apply extract_call_quiet in H. unfold read_only_call. tauto. Qed.

Lemma main_of_exit p F w :
  main_of p F w = if is_ok (res (run_of p F w)) then 0 else 1.
Proof. destruct p; simpl; unfold Multi.main, Single.main; now destruct (res _). Qed.

Lemma before_upload_no_put tl ev :
  before_upload tl -> ev ∈ tl ->
  is_put ev = false /\ is_delete ev = false /\ is_query_failure ev = false
  /\ (forall path, event_path ev = Some path -> path = parquetFile).
Proof.
  intros [-> | [-> | ->]] Hin.
  - inversion Hin.
  - apply list_elem_of_singleton in Hin as ->. repeat split; auto. discriminate.
  - apply elem_of_cons in Hin as [->|Hin]; [repeat split; auto; discriminate|].
    apply list_elem_of_singleton in Hin as ->. repeat split; auto.
    intros path [= <-]. reflexivity.
Qed.

Lemma purge_call_quiet c done ev :
  purge_call c done ev ->
  is_delete ev = true /\ is_put ev = false /\ is_file_write ev = false
  /\ is_query_failure ev = false /\ event_path ev = None.
Proof. destruct ev; simpl; intuition. Qed.

(** Where a call of a run that reached the upload can sit. *)
Lemma in_uploaded_run (qs enc dels : list Event) (cfg opn put ev : Event) :
  ev ∈ qs ++ enc ++ [cfg; opn; put] ++ dels ->
  ev ∈ qs \/ ev ∈ enc \/ ev = cfg \/ ev = opn \/ ev = put \/ ev ∈ dels.
Proof.
  rewrite !elem_of_app, !elem_of_cons. rewrite elem_of_nil. tauto.
Qed.

Lemma in_failed_upload_run (qs enc : list Event) (cfg opn put ev : Event) :
  ev ∈ qs ++ enc ++ [cfg; opn; put] ->
  ev ∈ qs \/ ev ∈ enc \/ ev = cfg \/ ev = opn \/ ev = put.
Proof.
  rewrite !elem_of_app, !elem_of_cons. rewrite elem_of_nil. tauto.
Qed.

Ltac class_of H :=
  match type of H with
  | ?ev ∈ ?l =>
      match goal with
      | HF : Forall _ l |- _ =>
          let Hc := fresh "Hc" in
          pose proof (proj1 (Forall_forall _ _) HF _ H) as Hc
      end
  end.

(** ** C1: an upload error aborts the run before the purge *)

(** C1. In every run — of either program — in which the upload to the
    object store returns an error, no delete statement is issued, the
    database is left as it was, [run] returns an error and the process exits
    with status 1. *)
Theorem upload_error_aborts_before_purge p F w bucket key body :
  EvPutObject bucket key body false ∈ events (run_of p F w) ->
  Forall (fun ev => is_delete ev = false) (events (run_of p F w))
  /\ database (world (run_of p F w)) = database w
  /\ is_ok (res (run_of p F w)) = false
  /\ main_of p F w = 1.
Proof.
  intros Hput. rewrite main_of_exit.
  destruct (run_shape_holds p F w)
    as [_ _ Hcalls _|_ _ Hcalls _ _|qs enc tl _ _ Hev Hqs _ Henc Htl _ _
       |qs enc _ _ Hev Hqs _ Henc Hres Hdb _
       |qs enc dels done rest _ _ Hev Hqs _ Henc Hdels _ _ _ _ _].
  - class_of Hput. contradiction.
  - class_of Hput. contradiction.
  - rewrite Hev in Hput. rewrite !elem_of_app in Hput.
    destruct Hput as [Hput|[Hput|Hput]].
    + class_of Hput. contradiction.
    + class_of Hput. contradiction.
    + now destruct (before_upload_no_put _ _ Htl Hput).
  - rewrite Hres. repeat split; auto.
    + rewrite Hev. rewrite !Forall_app. repeat split.
      * eapply Forall_impl; [exact Hqs|]. intros ev Hc.
        now apply extract_call_quiet in Hc.
      * eapply Forall_impl; [exact Henc|]. intros ev Hc.
        now apply file_call_quiet in Hc.
      * repeat constructor.
    + now injection Hdb.
  - rewrite Hev in Hput. apply in_uploaded_run in Hput.
    destruct Hput as [Hput|[Hput|[Hput|[Hput|[Hput|Hput]]]]]; try discriminate.
    + class_of Hput. contradiction.
    + class_of Hput. contradiction.
    + class_of Hput. contradiction.
Qed.

Lemma upload_error_witness :
  EvPutObject "my-iot-archive" (key_of MultiTable upload_down sample_world)
    (artifact_of MultiTable upload_down sample_world) false
    ∈ events (run_of MultiTable upload_down sample_world)
  /\ Forall (fun ev => is_delete ev = false)
       (events (run_of MultiTable upload_down sample_world))
  /\ database (world (run_of MultiTable upload_down sample_world))
     = database sample_world
  /\ is_ok (res (run_of MultiTable upload_down sample_world)) = false
  /\ main_of MultiTable upload_down sample_world = 1.
Proof.
  assert (EvPutObject "my-iot-archive" (key_of MultiTable upload_down sample_world)
            (artifact_of MultiTable upload_down sample_world) false
            ∈ events (run_of MultiTable upload_down sample_world)) as H
    by (vm_compute; repeat constructor).
  split; [exact H|].
  exact (upload_error_aborts_before_purge MultiTable upload_down sample_world _ _ _ H).
Defined.


(** ** C5: an empty batch ends the run successfully, untouched *)

(** C5. In every run — of either program — whose extraction yields an
    empty batch, [run] returns [nil] and the process exits with status 0; no
    call writes the local file, uploads or deletes, and database, disk and
    object store are left as they were. *)
Theorem empty_batch_is_a_successful_no_op p F w :
  batch_timestamps p F w = Some [] ->
  res (run_of p F w) = Ok tt
  /\ main_of p F w = 0
  /\ Forall read_only_call (events (run_of p F w))
  /\ stores (world (run_of p F w)) = stores w.
Proof.
  intros Hb. rewrite main_of_exit.
  destruct (run_shape_holds p F w)
    as [Hn _ _ _|_ Hres Hcalls _ Hst|qs enc tl _ Hn _ _ _ _ _ _ _
       |qs enc _ Hn _ _ _ _ _ _ _
       |qs enc dels done rest _ Hn _ _ _ _ _ _ _ _ _ _]; try congruence.
  rewrite Hres. repeat split; auto.
  eapply Forall_impl; [exact Hcalls|]. apply extract_call_read_only.
Qed.

Lemma empty_batch_witness :
  batch_timestamps SingleTable no_faults quiet_world = Some []
  /\ res (run_of SingleTable no_faults quiet_world) = Ok tt
  /\ main_of SingleTable no_faults quiet_world = 0
  /\ Forall read_only_call (events (run_of SingleTable no_faults quiet_world))
  /\ stores (world (run_of SingleTable no_faults quiet_world)) = stores quiet_world.
Proof.
  assert (batch_timestamps SingleTable no_faults quiet_world = Some []) as H
    by (vm_compute; reflexivity).
  split; [exact H|].
  exact (empty_batch_is_a_successful_no_op SingleTable no_faults quiet_world H).
Defined.


(** ** C6: a query or scan error aborts the run before anything is written *)



(** ** C2: what is deleted, when, and with which cutoff *)

(** A statement sent to the database is bounded by [c]. *)
Definition carries_cutoff (c : Time) (ev : Event) : Prop :=
  match ev with
  | EvQuery _ c' _ _ | EvDelete _ c' _ => c' = c
  | _ => True
  end.

Definition upload_succeeded (ev : Event) : Prop := is_put_ok ev = true.

Lemma table_rows_purge c done w w' t :
  database w' = purge c done (database w) ->
  table_rows w' t =
    if decide (t ∈ done) then sql_delete (table_rows w t) c else table_rows w t.
Proof.
  intros H. unfold table_rows. rewrite H, purge_lookup.
  destruct (decide (t ∈ done)); [|reflexivity].
  now destruct (database w !! t).
Qed.

(** A row that is gone after the delete statement was older than the
    cutoff, and every older row is gone. *)
Lemma sql_delete_gone rows c r :
  r ∈ rows -> (r ∉ sql_delete rows c <-> Before (row_timestamp r) c = true).
Proof.
  intros Hr. rewrite sql_delete_elem.
  destruct (Before (row_timestamp r) c); intuition congruence.
Qed.

(** A list that starts with calls that are not deletes: a delete sits
    after them. *)
Lemma delete_after_quiet (A B pre post : list Event) d :
  Forall (fun ev => is_delete ev = false) A ->
  is_delete d = true ->
  A ++ B = pre ++ d :: post ->
  exists pre', pre = A ++ pre'.
Proof.
  intros HA Hd. revert pre. induction HA as [|a A Ha HA IH]; intros pre Heq.
  - now exists pre.
  - destruct pre as [|a' pre]; simpl in Heq.
    + injection Heq as -> _. congruence.
    + injection Heq as -> Heq. destruct (IH _ Heq) as (pre' & ->). now exists pre'.
Qed.

(** Either a run issues no delete and leaves the database alone, or it
    uploaded and then purged the sources [done]. *)
Lemma run_database p F w :
  let o := run_of p F w in
  let c := run_cutoff F w in
  Forall (carries_cutoff c) (events o)
  /\ ((Forall (fun ev => is_delete ev = false) (events o)
       /\ database (world o) = database w
       /\ (is_ok (res o) = true -> batch_timestamps p F w = Some []))
      \/ (exists quiet dels done rest,
             events o = quiet ++ dels
             /\ Forall (fun ev => is_delete ev = false) quiet
             /\ Exists upload_succeeded quiet
             /\ Forall (purge_call c done) dels
             /\ sources_of p w = done ++ rest
             /\ (is_ok (res o) = true -> rest = [])
             /\ database (world o) = purge c done (database w))).
Proof.
  cbv zeta.
  assert (forall l, Forall (extract_call (run_cutoff F w) 100) l ->
            Forall (carries_cutoff (run_cutoff F w)) l
            /\ Forall (fun ev => is_delete ev = false) l) as Hq.
  { intros l H. split; (eapply Forall_impl; [exact H|]); intros [] Hc;
      simpl in *; tauto. }
  assert (forall l, Forall (file_call parquetFile) l ->
            Forall (carries_cutoff (run_cutoff F w)) l
            /\ Forall (fun ev => is_delete ev = false) l) as He.
  { intros l H. split; (eapply Forall_impl; [exact H|]); intros [] Hc;
      simpl in *; tauto. }
  destruct (run_shape_holds p F w)
    as [_ Hres Hcalls Hst|Hb _ Hcalls _ Hst|qs enc tl _ _ Hev Hqs _ Henc Htl Hres Hdb
       |qs enc _ _ Hev Hqs _ Henc Hres Hdb _
       |qs enc dels done rest _ _ Hev Hqs _ Henc Hdels Hsrc Hok Hdb _ _].
  - destruct (Hq _ Hcalls). split; [assumption|]. left.
    split; [assumption|]. split; [now injection Hst | congruence].
  - destruct (Hq _ Hcalls). split; [assumption|]. left.
    split; [assumption|]. split; [now injection Hst | auto].
  - destruct (Hq _ Hqs) as [Hq1 Hq2], (He _ Henc) as [He1 He2].
    assert (Forall (carries_cutoff (run_cutoff F w)) tl
            /\ Forall (fun ev => is_delete ev = false) tl) as [Ht1 Ht2]
      by (destruct Htl as [-> | [-> | ->]]; split; repeat constructor).
    rewrite Hev, !Forall_app. split; [tauto|]. left.
    split; [tauto|]. split; [now injection Hdb | congruence].
  - destruct (Hq _ Hqs) as [Hq1 Hq2], (He _ Henc) as [He1 He2].
    rewrite Hev, !Forall_app. split.
    + split; [exact Hq1|]. split; [exact He1|]. repeat constructor.
    + left. split; [|split; [now injection Hdb | congruence]].
      split; [exact Hq2|]. split; [exact He2|]. repeat constructor.
  - destruct (Hq _ Hqs) as [Hq1 Hq2], (He _ Henc) as [He1 He2]. split.
    + rewrite Hev, !Forall_app.
      split; [exact Hq1|]. split; [exact He1|]. split; [repeat constructor|].
      eapply Forall_impl; [exact Hdels|]. intros [] Hc; simpl in *; tauto.
    + right.
      exists (qs ++ enc ++ [EvLoadConfig true; EvOpenFile parquetFile true;
                            EvPutObject (s3_bucket w) (key_of p F w)
                              (artifact_of p F w) true]), dels, done, rest.
      split; [rewrite Hev; now rewrite <- !app_assoc|].
      split; [rewrite !Forall_app; split; [exact Hq2|]; split; [exact He2|];
              repeat constructor|].
      split; [rewrite !Exists_app; right; right;
              apply Exists_cons_tl, Exists_cons_tl, Exists_cons_hd; reflexivity|].
      auto.
Qed.

(** C2. For every run, of either program, with [c] the cutoff computed once
    at the start ([now] minus 90 days):
    - every query and every delete statement carries that same [c];
    - a delete statement is only issued after an upload that succeeded;
    - a row that is gone from a table at the end was older than [c] (and an
      upload succeeded);
    - on a source whose delete statement executed, a row is gone if and only
      if its timestamp is strictly less than [c];
    - when the run ends without error on a non-empty batch, that holds on
      every configured source. *)
Theorem deletion_follows_upload_and_shares_the_cutoff p F w :
  let o := run_of p F w in
  let c := run_cutoff F w in
  Forall (carries_cutoff c) (events o)
  /\ (forall pre t c' ok post,
         events o = pre ++ EvDelete t c' ok :: post ->
         Exists upload_succeeded pre)
  /\ (forall t r,
         r ∈ table_rows w t -> r ∉ table_rows (world o) t ->
         Before (row_timestamp r) c = true
         /\ Exists upload_succeeded (events o))
  /\ (forall t c',
         EvDelete t c' true ∈ events o ->
         forall r, r ∈ table_rows w t ->
           (r ∉ table_rows (world o) t <-> Before (row_timestamp r) c = true))
  /\ (is_ok (res o) = true -> batch_timestamps p F w <> Some [] ->
      forall t, t ∈ sources_of p w ->
      forall r, r ∈ table_rows w t ->
        (r ∉ table_rows (world o) t <-> Before (row_timestamp r) c = true)).
Proof.
  cbv zeta. destruct (run_database p F w) as (Hcut & Hdb). cbv zeta in *.
  split; [exact Hcut|].
  destruct Hdb as [(Hnd & Hdb & Hempty)
                  |(quiet & dels & done & rest & Hev & Hq & Hup & Hdels & Hsrc & Hok & Hdb)].
  - (* no delete statement at all *)
    assert (forall t, table_rows (world (run_of p F w)) t = table_rows w t) as Hsame
      by (intros t; unfold table_rows; now rewrite Hdb).
    split; [|split; [|split]].
    + intros pre t c' ok post Heq. rewrite Heq in Hnd.
      apply Forall_app in Hnd as [_ Hnd]. now inversion Hnd.
    + intros t r Hr Hgone. rewrite Hsame in Hgone. contradiction.
    + intros t c' Hin. exfalso.
      pose proof (proj1 (Forall_forall _ _) Hnd _ Hin). discriminate.
    + intros Hres Hne. now apply Hempty in Hres.
  - (* uploaded, then purged [done] *)
    pose proof (fun t => table_rows_purge _ _ _ _ t Hdb) as Hrows.
    assert (forall t r, t ∈ done -> r ∈ table_rows w t ->
              (r ∉ table_rows (world (run_of p F w)) t
               <-> Before (row_timestamp r) (run_cutoff F w) = true)) as Hiff.
    { intros t r Ht Hr. rewrite Hrows, decide_True by exact Ht.
      now apply sql_delete_gone. }
    split; [|split; [|split]].
    + intros pre t c' ok post Heq. rewrite Hev in Heq.
      destruct (delete_after_quiet quiet dels pre post (EvDelete t c' ok) Hq eq_refl Heq)
        as (pre' & ->).
      apply Exists_app. now left.
    + intros t r Hr Hgone. split; [|rewrite Hev; apply Exists_app; now left].
      destruct (decide (t ∈ done)) as [Ht|Ht]; [now apply (Hiff t)|].
      rewrite Hrows, decide_False in Hgone by exact Ht. contradiction.
    + intros t c' Hin r Hr. apply Hiff; [|exact Hr].
      rewrite Hev in Hin. apply elem_of_app in Hin as [Hin|Hin].
      * pose proof (proj1 (Forall_forall _ _) Hq _ Hin). discriminate.
      * pose proof (proj1 (Forall_forall _ _) Hdels _ Hin) as [_ Hd]. now apply Hd.
    + intros Hres _ t Ht r Hr. apply Hiff; [|exact Hr].
      rewrite Hsrc, (Hok Hres), app_nil_r in Ht. exact Ht.
Qed.

Definition delete_down : Faults :=
  mkFaults false false (fun _ => QueryOk) false false (fun _ => false)
           false false false false false
           (fun t => if String.eqb t "a" then ExecFails else ExecOk) 1000000.

(** The upload succeeded, the delete statement on [a] failed: the two rows
    of [a] that are older than the cutoff, and that were archived, are still
    in the table when the run ends. *)
Lemma old_rows_survive_a_failed_delete :
  EvPutObject "my-iot-archive" (key_of MultiTable delete_down sample_world)
    (artifact_of MultiTable delete_down sample_world) true
    ∈ events (run_of MultiTable delete_down sample_world)
  /\ Before (Date 2024 1 15 10 0 0) (run_cutoff delete_down sample_world) = true
  /\ mkRow 1 (Date 2024 1 15 10 0 0) "dev1" 42 ∈ table_rows sample_world "a"
  /\ mkRow 1 (Date 2024 1 15 10 0 0) "dev1" 42
       ∈ table_rows (world (run_of MultiTable delete_down sample_world)) "a"
  /\ is_ok (res (run_of MultiTable delete_down sample_world)) = false.
Proof. vm_compute. repeat split; repeat constructor. Qed.


(** ** C3: the object key *)

(** The rows the bounded queries return, source after source. *)
Definition batch_rows (p : Program) (F : Faults) (w : World) : list Row :=
  flat_map (fun t => sql_select (table_rows w t) (run_cutoff F w) 100)
           (sources_of p w).

(** The token of the key that tells which sources the artifact covers. *)
Definition discriminator (p : Program) (w : World) : string :=
  match p with
  | MultiTable => "multi_table"
  | SingleTable => single_table w
  end.

Lemma After_false t u : After t u = false <-> t_ns t <= t_ns u.
Proof. unfold After. rewrite Z.ltb_ge. tauto. Qed.

Lemma fold_latest rest : forall acc,
  let m := fold_left (fun lastTimestamp record =>
                        if After (Multi.Timestamp record) lastTimestamp
                        then Multi.Timestamp record else lastTimestamp) rest acc in
  (m = acc \/ m ∈ Multi.Timestamp <$> rest)
  /\ t_ns acc <= t_ns m
  /\ forall t, t ∈ Multi.Timestamp <$> rest -> t_ns t <= t_ns m.
Proof.
  induction rest as [|r rest IH]; intros acc; simpl.
  - split; [now left|]. split; [lia|]. intros t Ht. inversion Ht.
  - specialize (IH (if After (Multi.Timestamp r) acc then Multi.Timestamp r else acc)).
    cbv zeta in IH. destruct IH as (Hin & Hle & Hall).
    unfold After in *.
    destruct (Z.ltb_spec (t_ns acc) (t_ns (Multi.Timestamp r))).
    + split; [right; destruct Hin as [->|Hin]; [left | now right]|].
      split; [lia|]. intros t [->|Ht]%elem_of_cons; [lia | now apply Hall].
    + split; [destruct Hin as [->|Hin]; [now left | right; now right]|].
      split; [lia|]. intros t [->|Ht]%elem_of_cons; [lia | now apply Hall].
Qed.

Lemma latest_max first rest :
  Multi.latest first rest ∈ Multi.Timestamp <$> (first :: rest)
  /\ forall t, t ∈ Multi.Timestamp <$> (first :: rest) ->
       After t (Multi.latest first rest) = false.
Proof.
  destruct (fold_latest rest (Multi.Timestamp first)) as (Hin & Hle & Hall).
  fold (Multi.latest first rest) in *. split.
  - simpl. destruct Hin as [->|Hin]; [left | now right].
  - intros t Ht. apply After_false. simpl in Ht.
    apply elem_of_cons in Ht as [->|Ht]; [exact Hle | now apply Hall].
Qed.

Lemma sorted_head_max r q :
  StronglySorted newer_or_equal (r :: q) ->
  forall r', r' ∈ r :: q -> t_ns (row_timestamp r') <= t_ns (row_timestamp r).
Proof.
  intros Hs r' [->|Hin]%elem_of_cons; [lia|].
  inversion Hs as [|? ? _ Hall]; subst.
  exact (proj1 (Forall_forall _ _) Hall _ Hin).
Qed.

Lemma multi_tag_timestamps t (rows : list Row) :
  Multi.Timestamp <$> (Multi.tag t <$> rows) = row_timestamp <$> rows.
Proof. rewrite <- list_fmap_compose. reflexivity. Qed.

Lemma fmap_flat_map {A B C} (f : B -> C) (g : A -> list B) (l : list A) :
  f <$> flat_map g l = flat_map (fun a => f <$> g a) l.
Proof.
  induction l as [|a l IH]; simpl; [reflexivity|]. now rewrite fmap_app, IH.
Qed.

(** The batch is the rows of all the sources together. *)
Lemma batch_timestamps_all_sources p F w ts :
  batch_timestamps p F w = Some ts ->
  ts = row_timestamp <$> batch_rows p F w.
Proof.
  unfold batch_rows. destruct p; simpl.
  - destruct (res (Multi.extract F w)) as [x|] eqn:Hex; [|discriminate].
    destruct (multi_extract_ok _ _ _ Hex) as (-> & _ & _). simpl. intros [= <-].
    unfold batch_of, selected. rewrite !fmap_flat_map.
    apply flat_map_ext. intros t. apply multi_tag_timestamps.
  - destruct (res (Single.extract F w)) as [x|] eqn:Hex; [|discriminate].
    destruct (single_extract_ok _ _ _ Hex) as (-> & _ & _). simpl. intros [= <-].
    rewrite app_nil_r. rewrite <- list_fmap_compose. reflexivity.
Qed.

(** The key is computed from the latest timestamp of the whole batch. *)
Lemma key_timestamp_max p F w ts :
  batch_timestamps p F w = Some ts -> ts <> [] ->
  key_timestamp p F w ∈ ts
  /\ forall t, t ∈ ts -> After t (key_timestamp p F w) = false.
Proof.
  destruct p; simpl.
  - destruct (res (Multi.extract F w)) as [x|] eqn:Hex; [|discriminate].
    intros [= <-] Hne.
    destruct (Multi.x_records x) as [|first rest]; [now destruct Hne|].
    apply latest_max.
  - destruct (res (Single.extract F w)) as [x|] eqn:Hex; [|discriminate].
    destruct (single_extract_ok _ _ _ Hex) as (-> & _ & _). simpl.
    pose proof (sql_select_sorted (table_rows w (single_table w)) (run_cutoff F w) 100)
      as Hs.
    destruct (sql_select _ _ _) as [|r q]; intros [= <-] Hne; [now destruct Hne|].
    simpl. split; [left|].
    intros t Ht. apply After_false.
    change (t ∈ Single.Timestamp <$> (Single.record_of <$> (r :: q))) in Ht.
    rewrite <- list_fmap_compose in Ht.
    apply list_elem_of_fmap in Ht as (r' & -> & Hr').
    exact (sorted_head_max _ _ Hs _ Hr').
Qed.

(** The key, piece by piece. *)
Lemma key_of_pieces p F w :
  key_of p F w =
    "year=" +:+ fmt_d (Year (key_timestamp p F w))
    +:+ "/month=" +:+ fmt_02d (Month (key_timestamp p F w))
    +:+ "/" +:+ discriminator p w +:+ "_"
    +:+ Format_20060102_150405 (key_timestamp p F w) +:+ ".parquet".
Proof.
  destruct p; unfold key_of, Multi.s3Key, Single.s3Key, discriminator; reflexivity.
Qed.

(** C3 (amended). For every run, of either program, that ends without error
    on a non-empty batch: the batch is the rows of all configured sources
    together; the timestamp [m] the key is computed from occurs in the batch
    and no timestamp of the batch is after it; the artifact is uploaded, once
    the run is over it is stored, under the key
    [year=<Y>/month=<MM>/<discriminator>_<YYYYMMDD_HHMMSS>.parquet] where [<Y>]
    is the year of [m] in decimal without padding, [<MM>] its month on two
    digits, and the suffix is [m] formatted, which has the shape
    [YYYYMMDD_HHMMSS] for a year from 0 to 9999; [<Y>] has four digits when
    the year of [m] is from 1000 to 9999. *)
Theorem object_key_names_the_latest_timestamp p F w :
  is_ok (res (run_of p F w)) = true ->
  batch_timestamps p F w <> Some [] ->
  batch_timestamps p F w = Some (row_timestamp <$> batch_rows p F w)
  /\ key_timestamp p F w ∈ row_timestamp <$> batch_rows p F w
  /\ (forall t, t ∈ row_timestamp <$> batch_rows p F w ->
        After t (key_timestamp p F w) = false)
  /\ EvPutObject (s3_bucket w) (key_of p F w) (artifact_of p F w) true
       ∈ events (run_of p F w)
  /\ objects (world (run_of p F w)) !! (s3_bucket w, key_of p F w)
     = Some (artifact_of p F w)
  /\ key_of p F w =
       "year=" +:+ fmt_d (Year (key_timestamp p F w))
       +:+ "/month=" +:+ fmt_02d (Month (key_timestamp p F w))
       +:+ "/" +:+ discriminator p w +:+ "_"
       +:+ Format_20060102_150405 (key_timestamp p F w) +:+ ".parquet"
  /\ all_digits 2 (fmt_02d (Month (key_timestamp p F w))) = true
  /\ (0 <= Year (key_timestamp p F w) <= 9999 ->
      is_stamp (Format_20060102_150405 (key_timestamp p F w)) = true)
  /\ (1000 <= Year (key_timestamp p F w) <= 9999 ->
      all_digits 4 (fmt_d (Year (key_timestamp p F w))) = true).
Proof.
  intros Hok Hne.
  destruct (run_shape_holds p F w)
    as [_ Hres _ _|Hb _ _ _ _|qs enc tl _ _ _ _ _ _ _ Hres _
       |qs enc _ _ _ _ _ _ Hres _ _
       |qs enc dels done rest Hsome _ Hev _ _ _ _ _ _ _ _ Hobj]; try congruence.
  destruct (batch_timestamps p F w) as [ts|] eqn:Hts; [|congruence].
  pose proof (batch_timestamps_all_sources _ _ _ _ Hts) as ->.
  destruct (key_timestamp_max _ _ _ _ Hts) as (Hin & Hmax); [congruence|].
  split; [reflexivity|]. split; [exact Hin|]. split; [exact Hmax|].
  split; [rewrite Hev, !elem_of_app; right; right; left;
          apply list_elem_of_further, list_elem_of_further, list_elem_of_here|].
  split; [rewrite Hobj; apply lookup_insert_eq|].
  split; [apply key_of_pieces|].
  split; [apply month_component_digits|].
  split; [apply Format_is_stamp | apply year_component_digits].
Qed.

Lemma object_key_witness :
  is_ok (res (run_of MultiTable no_faults sample_world)) = true
  /\ batch_timestamps MultiTable no_faults sample_world <> Some []
  /\ key_timestamp MultiTable no_faults sample_world = Date 2024 3 20 8 30 0
  /\ key_of MultiTable no_faults sample_world
     = "year=2024/month=03/multi_table_20240320_083000.parquet"
  /\ objects (world (run_of MultiTable no_faults sample_world))
       !! (s3_bucket sample_world, key_of MultiTable no_faults sample_world)
     = Some (artifact_of MultiTable no_faults sample_world).
Proof.
  assert (is_ok (res (run_of MultiTable no_faults sample_world)) = true) as Hok
    by (vm_compute; reflexivity).
  assert (batch_timestamps MultiTable no_faults sample_world <> Some []) as Hne
    by (vm_compute; discriminate).
  split; [exact Hok|]. split; [exact Hne|].
  split; [vm_compute; reflexivity|]. split; [vm_compute; reflexivity|].
  exact (proj1 (proj2 (proj2 (proj2 (proj2
           (object_key_names_the_latest_timestamp MultiTable no_faults sample_world
              Hok Hne)))))).
Defined.

(** A source with one row dated 1 March 999. *)
Definition ancient_world : World :=
  mkWorld ∅ sample_now
          (<["iot_data" := [mkRow 7 (Date 999 3 1 0 0 0) "dev0" 0]]> ∅) ∅ ∅.

(** The run succeeds and uploads under a key whose year component is
    [999]: three digits. *)
Lemma year_component_has_three_digits_in_999 :
  is_ok (res (run_of MultiTable no_faults ancient_world)) = true
  /\ batch_timestamps MultiTable no_faults ancient_world = Some [Date 999 3 1 0 0 0]
  /\ key_of MultiTable no_faults ancient_world
     = "year=999/month=03/multi_table_09990301_000000.parquet"
  /\ EvPutObject "my-iot-archive"
       "year=999/month=03/multi_table_09990301_000000.parquet"
       (artifact_of MultiTable no_faults ancient_world) true
       ∈ events (run_of MultiTable no_faults ancient_world)
  /\ fmt_d (Year (key_timestamp MultiTable no_faults ancient_world)) = "999"
  /\ all_digits 4 (fmt_d (Year (key_timestamp MultiTable no_faults ancient_world)))
     = false.
Proof. vm_compute. repeat split; repeat constructor. Qed.

(** ** C10: the local file *)

Lemma artifact_complete p F w :
  batch_timestamps p F w <> None -> complete (artifact_of p F w) = true.
Proof.
  destruct p; simpl; destruct (res _); simpl; congruence.
Qed.

(** What a run does to the local disk: the calls that name a path name
    [/tmp/archive.parquet], and once the upload was attempted the file holds
    the artifact of this run, whatever it held before. *)
Lemma run_local_file p F w :
  let o := run_of p F w in
  (forall ev path, ev ∈ events o -> event_path ev = Some path -> path = parquetFile)
  /\ (forall bucket key body ok,
         EvPutObject bucket key body ok ∈ events o ->
         body = artifact_of p F w
         /\ complete body = true
         /\ disk (world o) !! parquetFile = Some body).
Proof.
  cbv zeta.
  assert (forall l ev path, Forall (extract_call (run_cutoff F w) 100) l ->
            ev ∈ l -> event_path ev = Some path -> path = parquetFile) as Hq.
  { intros l ev path H Hin Hp.
    pose proof (proj1 (Forall_forall _ _) H _ Hin) as Hc.
    apply extract_call_quiet in Hc. intuition congruence. }
  assert (forall l ev path, Forall (file_call parquetFile) l ->
            ev ∈ l -> event_path ev = Some path -> path = parquetFile) as He.
  { intros l ev path H Hin Hp.
    pose proof (proj1 (Forall_forall _ _) H _ Hin) as Hc.
    apply file_call_quiet in Hc. intuition congruence. }
  assert (forall l ev, Forall (extract_call (run_cutoff F w) 100) l ->
            ev ∈ l -> is_put ev = false) as Hqp.
  { intros l ev H Hin.
    pose proof (proj1 (Forall_forall _ _) H _ Hin) as Hc.
    now apply extract_call_quiet in Hc. }
  assert (forall l ev, Forall (file_call parquetFile) l ->
            ev ∈ l -> is_put ev = false) as Hep.
  { intros l ev H Hin.
    pose proof (proj1 (Forall_forall _ _) H _ Hin) as Hc.
    now apply file_call_quiet in Hc. }
  destruct (run_shape_holds p F w)
    as [_ _ Hcalls _|_ _ Hcalls _ _|qs enc tl _ _ Hev Hqs _ Henc Htl _ _
       |qs enc Hsome _ Hev Hqs _ Henc _ _ Hdisk
       |qs enc dels done rest Hsome _ Hev Hqs _ Henc Hdels _ _ _ Hdisk _].
  - split; [eauto|]. intros b k body ok Hin. now apply Hqp in Hin.
  - split; [eauto|]. intros b k body ok Hin. now apply Hqp in Hin.
  - split.
    + intros ev path Hin. rewrite Hev, !elem_of_app in Hin.
      destruct Hin as [Hin | [Hin | Hin]]; eauto.
      now apply (before_upload_no_put _ _ Htl Hin).
    + intros b k body ok Hin. rewrite Hev, !elem_of_app in Hin.
      destruct Hin as [Hin | [Hin | Hin]];
        [now apply Hqp in Hin | now apply Hep in Hin |].
      now destruct (before_upload_no_put _ _ Htl Hin).
  - split.
    + intros ev path Hin. rewrite Hev in Hin. apply in_failed_upload_run in Hin.
      destruct Hin as [Hin | [Hin | [-> | [-> | ->]]]]; eauto; try discriminate.
      now intros [= <-].
    + intros b k body ok Hin. rewrite Hev in Hin. apply in_failed_upload_run in Hin.
      destruct Hin as [Hin | [Hin | [Hin | [Hin | Hin]]]];
        [now apply Hqp in Hin | now apply Hep in Hin | discriminate | discriminate |].
      injection Hin as -> -> -> ->.
      split; [reflexivity|]. split; [now apply artifact_complete|].
      rewrite Hdisk. apply lookup_insert_eq.
  - split.
    + intros ev path Hin. rewrite Hev in Hin. apply in_uploaded_run in Hin.
      destruct Hin as [Hin | [Hin | [-> | [-> | [-> | Hin]]]]]; eauto;
        try discriminate.
      * now intros [= <-].
      * pose proof (proj1 (Forall_forall _ _) Hdels _ Hin) as Hc.
        apply purge_call_quiet in Hc. intuition congruence.
    + intros b k body ok Hin. rewrite Hev in Hin. apply in_uploaded_run in Hin.
      destruct Hin as [Hin | [Hin | [Hin | [Hin | [Hin | Hin]]]]];
        [now apply Hqp in Hin | now apply Hep in Hin | discriminate | discriminate | |].
      * injection Hin as -> -> -> ->.
        split; [reflexivity|]. split; [now apply artifact_complete|].
        rewrite Hdisk. apply lookup_insert_eq.
      * pose proof (proj1 (Forall_forall _ _) Hdels _ Hin) as Hc.
        now apply purge_call_quiet in Hc.
Qed.

(** The first call of a computation is the first call of what it starts
    with. *)
Lemma first_call_bind {A B} (m : M A) (k : A -> M B) F w ev tl :
  events (m F w) = ev :: tl ->
  exists tl', events ((m ≫= k) F w) = ev :: tl'.
Proof.
  intros H. destruct (bind_events_prefix m k F w) as (rest & ->).
  rewrite H. simpl. eauto.
Qed.

Lemma multi_writeParquetFile_first recs filename F w :
  exists tl,
    events (Multi.writeParquetFile recs filename F w)
    = EvCreate filename (negb (create_fails F)) :: tl.
Proof.
  unfold Multi.writeParquetFile. eapply first_call_bind.
  rewrite wrap_events. unfold NewLocalFileWriter.
  destruct (create_fails F); reflexivity.
Qed.

Lemma single_writeParquetFile_first recs filename F w :
  exists tl,
    events (Single.writeParquetFile recs filename F w)
    = EvCreate filename (negb (create_fails F)) :: tl.
Proof.
  unfold Single.writeParquetFile. eapply first_call_bind.
  rewrite wrap_events. unfold NewLocalFileWriter.
  destruct (create_fails F); reflexivity.
Qed.

(** On a non-empty batch the first thing [archive] does is to create the
    file, and it fails when the file cannot be created. *)
Lemma multi_archive_first x first rest F w :
  Multi.x_records x = first :: rest ->
  (exists tl,
      events (Multi.archive x F w)
      = EvCreate parquetFile (negb (create_fails F)) :: tl)
  /\ (create_fails F = true -> is_ok (res (Multi.archive x F w)) = false).
Proof.
  intros Hx. unfold Multi.archive. rewrite Hx. split.
  - destruct (multi_writeParquetFile_first (first :: rest) parquetFile F w)
      as (tl & Htl).
    eapply first_call_bind. rewrite wrap_events. exact Htl.
  - intros Hc. unfold Multi.writeParquetFile. mrun. now rewrite Hc.
Qed.

Lemma single_archive_first x F w :
  Single.recordCount (Single.x_scanned x) <> 0 ->
  (exists tl,
      events (Single.archive x F w)
      = EvCreate parquetFile (negb (create_fails F)) :: tl)
  /\ (create_fails F = true -> is_ok (res (Single.archive x F w)) = false).
Proof.
  intros Hx. unfold Single.archive.
  destruct (Z.eqb_spec (Single.recordCount (Single.x_scanned x)) 0) as [|_]; [tauto|].
  split.
  - destruct (single_writeParquetFile_first (Single.records (Single.x_scanned x))
                parquetFile F w) as (tl & Htl).
    eapply first_call_bind. rewrite wrap_events. exact Htl.
  - intros Hc. unfold Single.writeParquetFile. mrun. now rewrite Hc.
Qed.

(** A run whose extraction yields a non-empty batch creates the file as its
    first call after the extraction. *)
Lemma run_creates_the_file p F w ts :
  batch_timestamps p F w = Some ts -> ts <> [] ->
  (exists before after,
      events (run_of p F w)
      = before ++ EvCreate parquetFile (negb (create_fails F)) :: after
      /\ Forall (fun ev => event_path ev = None) before)
  /\ (create_fails F = true -> is_ok (res (run_of p F w)) = false).
Proof.
  assert (forall l, Forall (extract_call (run_cutoff F w) 100) l ->
            Forall (fun ev => event_path ev = None) l) as Hq.
  { intros l H. eapply Forall_impl; [exact H|]. intros ev Hc.
    now apply extract_call_quiet in Hc. }
  destruct p; simpl.
  - pose proof (multi_extract_calls F w) as Hca.
    destruct (res (Multi.extract F w)) as [x|e] eqn:Hex; [|discriminate].
    intros [= <-] Hne.
    destruct (Multi.x_records x) as [|first rest] eqn:Hrecs; [now destruct Hne|].
    destruct (multi_archive_first x first rest F (world (Multi.extract F w)) Hrecs)
      as [(tl & Htl) Hfail].
    unfold Multi.run. rewrite (bind_Ok _ _ _ _ _ Hex). simpl. rewrite Htl.
    split; [eauto|exact Hfail].
  - pose proof (single_extract_calls F w) as Hca.
    destruct (res (Single.extract F w)) as [x|e] eqn:Hex; [|discriminate].
    intros [= <-] Hne.
    destruct (single_extract_ok _ _ _ Hex) as (Hx & _ & _).
    assert (Single.recordCount (Single.x_scanned x) <> 0) as Hcount.
    { rewrite Hx in *. simpl in *.
      destruct (sql_select _ _ _); [now destruct Hne | simpl; lia]. }
    destruct (single_archive_first x F (world (Single.extract F w)) Hcount)
      as [(tl & Htl) Hfail].
    unfold Single.run. rewrite (bind_Ok _ _ _ _ _ Hex). simpl. rewrite Htl.
    split; [eauto|exact Hfail].
Qed.

(** As many rows are in the artifact as in the batch. *)
Lemma artifact_length p F w ts :
  batch_timestamps p F w = Some ts ->
  length (rows (artifact_of p F w)) = length ts.
Proof.
  destruct p; simpl; destruct (res _); simpl; intros [= <-];
    unfold multi_encode, single_encode; now rewrite !length_fmap.
Qed.

(** C10. For every run, of either program: every call that names a local
    path names [/tmp/archive.parquet], whatever the configuration, the sources
    and the timestamps; a run whose extraction yields a non-empty batch
    creates that file, as its first call on a local path; once the upload was
    attempted the file is still on disk at the end of the run and holds the
    finished artifact that was handed to the upload; a run that ends without
    error on a non-empty batch has created the file and uploaded it, and
    leaves in it its artifact, with one row for each row of the batch,
    whatever the file held before; and a run that follows and reaches its
    own upload leaves its own artifact in that file, in place of the
    earlier one. *)
Theorem artifact_path_is_fixed_and_reused p F w :
  (forall ev path,
      ev ∈ events (run_of p F w) -> event_path ev = Some path ->
      path = "/tmp/archive.parquet")
  /\ (forall ts,
         batch_timestamps p F w = Some ts -> ts <> [] ->
         exists before after,
           events (run_of p F w)
           = before ++ EvCreate "/tmp/archive.parquet" (negb (create_fails F)) :: after
           /\ Forall (fun ev => event_path ev = None) before)
  /\ (forall bucket key body ok,
         EvPutObject bucket key body ok ∈ events (run_of p F w) ->
         body = artifact_of p F w
         /\ complete body = true
         /\ disk (world (run_of p F w)) !! "/tmp/archive.parquet" = Some body)
  /\ (is_ok (res (run_of p F w)) = true ->
      batch_timestamps p F w <> Some [] ->
      EvCreate "/tmp/archive.parquet" true ∈ events (run_of p F w)
      /\ EvPutObject (s3_bucket w) (key_of p F w) (artifact_of p F w) true
           ∈ events (run_of p F w)
      /\ complete (artifact_of p F w) = true
      /\ length (rows (artifact_of p F w)) = length (batch_rows p F w)
      /\ rows (artifact_of p F w) <> []
      /\ disk (world (run_of p F w)) !! "/tmp/archive.parquet"
         = Some (artifact_of p F w))
  /\ (forall F' bucket key body ok,
         EvPutObject bucket key body ok
           ∈ events (run_of p F' (world (run_of p F w))) ->
         disk (world (run_of p F' (world (run_of p F w)))) !! "/tmp/archive.parquet"
         = Some (artifact_of p F' (world (run_of p F w)))).
Proof.
  destruct (run_local_file p F w) as [Hpath Hfile]. cbv zeta in *.
  split; [exact Hpath|].
  split; [intros ts Hts Hne; exact (proj1 (run_creates_the_file _ _ _ _ Hts Hne))|].
  split; [exact Hfile|]. split.
  - intros Hok Hne.
    destruct (run_shape_holds p F w)
      as [_ Hres _ _|Hb _ _ _ _|qs enc tl _ _ _ _ _ _ _ Hres _
         |qs enc _ _ _ _ _ _ Hres _ _
         |qs enc dels done rest Hsome _ Hev _ _ _ _ _ _ _ Hdisk _]; try congruence.
    destruct (batch_timestamps p F w) as [ts|] eqn:Hts; [|congruence].
    assert (ts <> []) as Hne' by congruence.
    destruct (run_creates_the_file _ _ _ _ Hts Hne') as [(before & after & Hsplit & _) Hcf].
    destruct (create_fails F); [specialize (Hcf eq_refl); congruence|].
    pose proof (artifact_length _ _ _ _ Hts) as Hlen.
    pose proof (batch_timestamps_all_sources _ _ _ _ Hts) as Hall.
    split; [rewrite Hsplit, elem_of_app; right; left|].
    split; [rewrite Hev, !elem_of_app; right; right; left;
            apply list_elem_of_further, list_elem_of_further, list_elem_of_here|].
    split; [apply artifact_complete; congruence|].
    split; [rewrite Hlen, Hall; apply length_fmap|].
    split; [intros Hnil; rewrite Hnil in Hlen; destruct ts; [congruence|discriminate]|].
    rewrite Hdisk. apply lookup_insert_eq.
  - intros F' bucket key body ok Hin.
    destruct (run_local_file p F' (world (run_of p F w))) as [_ Hfile'].
    destruct (Hfile' _ _ _ _ Hin) as (-> & _ & Hd). exact Hd.
Qed.

(** The world a year after the sample run: the file of that run is still on
    disk, and the row the run left in table [a] has become old. *)
Definition next_year_world : World :=
  mkWorld sample_environ (Date 2025 11 5 12 0 0)
          (database (world (run_of MultiTable no_faults sample_world)))
          (disk (world (run_of MultiTable no_faults sample_world)))
          (objects (world (run_of MultiTable no_faults sample_world))).

Lemma artifact_overwrite_witness :
  is_ok (res (run_of MultiTable no_faults sample_world)) = true
  /\ disk next_year_world !! "/tmp/archive.parquet"
     = Some (artifact_of MultiTable no_faults sample_world)
  /\ length (rows (artifact_of MultiTable no_faults sample_world)) = 2%nat
  /\ is_ok (res (run_of MultiTable no_faults next_year_world)) = true
  /\ batch_timestamps MultiTable no_faults next_year_world = Some [Date 2024 10 1 0 0 0]
  /\ artifact_of MultiTable no_faults next_year_world
     <> artifact_of MultiTable no_faults sample_world
  /\ EvCreate "/tmp/archive.parquet" true
       ∈ events (run_of MultiTable no_faults next_year_world)
  /\ EvPutObject (s3_bucket next_year_world)
       (key_of MultiTable no_faults next_year_world)
       (artifact_of MultiTable no_faults next_year_world) true
       ∈ events (run_of MultiTable no_faults next_year_world)
  /\ complete (artifact_of MultiTable no_faults next_year_world) = true
  /\ length (rows (artifact_of MultiTable no_faults next_year_world))
     = length (batch_rows MultiTable no_faults next_year_world)
  /\ rows (artifact_of MultiTable no_faults next_year_world) <> []
  /\ disk (world (run_of MultiTable no_faults next_year_world))
       !! "/tmp/archive.parquet"
     = Some (artifact_of MultiTable no_faults next_year_world).
Proof.
  assert (is_ok (res (run_of MultiTable no_faults next_year_world)) = true) as Hok
    by (vm_compute; reflexivity).
  assert (batch_timestamps MultiTable no_faults next_year_world <> Some []) as Hne
    by (vm_compute; discriminate).
  split; [vm_compute; reflexivity|]. split; [vm_compute; reflexivity|].
  split; [vm_compute; reflexivity|]. split; [exact Hok|].
  split; [vm_compute; reflexivity|].
  split; [intros H; apply (f_equal (fun f => length (rows f))) in H;
          vm_compute in H; discriminate|].
  exact (proj1 (proj2 (proj2 (proj2
           (artifact_path_is_fixed_and_reused MultiTable no_faults next_year_world))))
           Hok Hne).
Defined.

(** ** C4: the extractor *)

Lemma filter_queries c l (ts : list string) :
  List.filter is_query ((fun t => EvQuery t c l true) <$> ts)
  = (fun t => EvQuery t c l true) <$> ts.
Proof. induction ts as [|t ts IH]; simpl; [reflexivity | f_equal; exact IH]. Qed.

Lemma in_batch_of w ts c l rec :
  rec ∈ batch_of w ts c l <->
  exists t r, t ∈ ts /\ r ∈ sql_select (table_rows w t) c l /\ rec = Multi.tag t r.
Proof.
  unfold batch_of, selected. rewrite list_elem_of_In, in_flat_map. split.
  - intros (t & Ht & Hin). apply list_elem_of_In, list_elem_of_fmap in Hin as (r & -> & Hr).
    exists t, r. now rewrite list_elem_of_In.
  - intros (t & r & Ht & Hr & ->). exists t. split; [now apply list_elem_of_In|].
    apply list_elem_of_In, list_elem_of_fmap. eauto.
Qed.

(** C4. Whenever the extraction of the multi-table program completes: the
    queries it issued are one per configured source, in order, each bounded
    by the cutoff of the run and by the batch size 100; a query returns only
    rows of its table that are strictly older than the cutoff, newest first,
    at most 100 of them; the batch is the concatenation, source after
    source, of the rows returned, each as a record that carries the id, the
    timestamp, the device and the value of the row together with the name of
    its source; and the file handed to the upload holds, row by row, the
    five columns of exactly that batch. *)
Theorem extractor_queries_every_source F w x :
  res (Multi.extract F w) = Ok x ->
  List.filter is_query (events (Multi.extract F w))
    = (fun t => EvQuery t (run_cutoff F w) 100 true) <$> configured_tables w
  /\ Multi.x_records x
     = flat_map (fun t =>
                   (fun r => Multi.mkIoTRecord (row_id r) (row_timestamp r)
                               (row_device_id r) (row_value r) t)
                   <$> sql_select (table_rows w t) (run_cutoff F w) 100)
                (configured_tables w)
  /\ (forall t,
        let returned := sql_select (table_rows w t) (run_cutoff F w) 100 in
        (forall r, r ∈ returned ->
           r ∈ table_rows w t /\ Before (row_timestamp r) (run_cutoff F w) = true)
        /\ StronglySorted newer_or_equal returned
        /\ (length returned <= 100)%nat)
  /\ (forall rec, rec ∈ Multi.x_records x ->
        Multi.TableName rec ∈ configured_tables w
        /\ exists r, r ∈ table_rows w (Multi.TableName rec)
                     /\ Before (row_timestamp r) (run_cutoff F w) = true
                     /\ Multi.ID rec = row_id r
                     /\ Multi.Timestamp rec = row_timestamp r
                     /\ Multi.DeviceID rec = row_device_id r
                     /\ Multi.Value rec = row_value r)
  /\ (forall bucket key body ok,
        EvPutObject bucket key body ok ∈ events (Multi.run F w) ->
        columns body = ["id"; "timestamp"; "device_id"; "value"; "table_name"]
        /\ rows body
           = (fun rec => [PInt64 (Multi.ID rec);
                          PInt64 (UnixNano (Multi.Timestamp rec));
                          PByteArray (Multi.DeviceID rec);
                          PDouble (Multi.Value rec);
                          PByteArray (Multi.TableName rec)])
             <$> Multi.x_records x).
Proof.
  intros Hex. destruct (multi_extract_ok _ _ _ Hex) as (Hx & _ & Hev).
  split; [rewrite Hev; simpl; apply filter_queries|].
  split; [now rewrite Hx|].
  split.
  { intros t. cbv zeta. split; [apply sql_select_elem|].
    split; [apply sql_select_sorted|].
    rewrite sql_select_length. apply Nat.le_min_l. }
  split.
  { intros rec Hrec. rewrite Hx in Hrec. simpl in Hrec.
    apply in_batch_of in Hrec as (t & r & Ht & Hr & ->). simpl.
    split; [exact Ht|]. exists r.
    apply sql_select_elem in Hr as [Hin Hold]. auto 10. }
  intros bucket key body ok Hin.
  destruct (run_local_file MultiTable F w) as [_ Hfile].
  destruct (Hfile _ _ _ _ Hin) as (-> & _ & _). simpl. rewrite Hex.
  split; reflexivity.
Qed.

Lemma extractor_witness :
  res (Multi.extract no_faults sample_world)
  = Ok (Multi.mkExtracted "my-iot-archive" ["a"; "b"]
          (run_cutoff no_faults sample_world)
          [Multi.mkIoTRecord 2 (Date 2024 3 20 8 30 0) "dev2" 43 "a";
           Multi.mkIoTRecord 1 (Date 2024 1 15 10 0 0) "dev1" 42 "a"])
  /\ List.filter is_query (events (Multi.extract no_faults sample_world))
     = [EvQuery "a" (run_cutoff no_faults sample_world) 100 true;
        EvQuery "b" (run_cutoff no_faults sample_world) 100 true]
  /\ sql_select (table_rows sample_world "a") (run_cutoff no_faults sample_world) 100
     = [mkRow 2 (Date 2024 3 20 8 30 0) "dev2" 43;
        mkRow 1 (Date 2024 1 15 10 0 0) "dev1" 42]
  /\ sql_select (table_rows sample_world "b") (run_cutoff no_faults sample_world) 100
     = []
  /\ [Multi.mkIoTRecord 2 (Date 2024 3 20 8 30 0) "dev2" 43 "a";
      Multi.mkIoTRecord 1 (Date 2024 1 15 10 0 0) "dev1" 42 "a"]
     = flat_map (fun t =>
                   (fun r => Multi.mkIoTRecord (row_id r) (row_timestamp r)
                               (row_device_id r) (row_value r) t)
                   <$> sql_select (table_rows sample_world t)
                         (run_cutoff no_faults sample_world) 100)
                (configured_tables sample_world).
Proof.
  assert (res (Multi.extract no_faults sample_world)
          = Ok (Multi.mkExtracted "my-iot-archive" ["a"; "b"]
                  (run_cutoff no_faults sample_world)
                  [Multi.mkIoTRecord 2 (Date 2024 3 20 8 30 0) "dev2" 43 "a";
                   Multi.mkIoTRecord 1 (Date 2024 1 15 10 0 0) "dev1" 42 "a"])) as H
    by (vm_compute; reflexivity).
  split; [exact H|].
  split; [exact (proj1 (extractor_queries_every_source no_faults sample_world _ H))|].
  split; [vm_compute; reflexivity|]. split; [vm_compute; reflexivity|].
  exact (proj1 (proj2 (extractor_queries_every_source no_faults sample_world _ H))).
Defined.

(** ** C7: the purge is not bounded by the batch *)

Lemma tag_inj t r r' : Multi.tag t r = Multi.tag t r' -> r = r'.
Proof. destruct r, r'. unfold Multi.tag. simpl. now intros [= -> -> -> ->]. Qed.

(** C7. In every run of the multi-table program in which the delete
    statement of a source [t] executes while [t] holds more than 100 rows
    older than the cutoff: all those rows are gone from [t] at the end, but
    the query on [t] returned exactly 100 of them and every record of the
    batch that carries the tag [t] is one of these 100; the older rows are
    the returned rows plus a non-empty rest that was deleted without being
    archived — when the rows of [t] are pairwise distinct, some row of [t] is
    deleted although no record of the batch comes from it. *)
Theorem purge_deletes_more_than_was_archived F w x t c' :
  res (Multi.extract F w) = Ok x ->
  EvDelete t c' true ∈ events (Multi.run F w) ->
  (100 < length (List.filter (older_than (run_cutoff F w)) (table_rows w t)))%nat ->
  table_rows (world (Multi.run F w)) t = sql_delete (table_rows w t) (run_cutoff F w)
  /\ length (sql_select (table_rows w t) (run_cutoff F w) 100) = 100%nat
  /\ (forall rec, rec ∈ Multi.x_records x -> Multi.TableName rec = t ->
        exists r, r ∈ sql_select (table_rows w t) (run_cutoff F w) 100
                  /\ rec = Multi.tag t r)
  /\ (exists extra,
         extra <> []
         /\ (List.filter (older_than (run_cutoff F w)) (table_rows w t)
             ≡ₚ sql_select (table_rows w t) (run_cutoff F w) 100 ++ extra)
         /\ (forall r, r ∈ extra ->
                r ∈ table_rows w t
                /\ (r ∉ table_rows (world (Multi.run F w)) t)))
  /\ (NoDup (table_rows w t) ->
      exists r, r ∈ table_rows w t
                /\ (r ∉ table_rows (world (Multi.run F w)) t)
                /\ (Multi.tag t r ∉ Multi.x_records x)).
Proof.
  intros Hex Hdel Hmany.
  set (c := run_cutoff F w) in *. set (rows := table_rows w t) in *.
  assert (table_rows (world (Multi.run F w)) t = sql_delete rows c) as Hafter.
  { destruct (run_database MultiTable F w) as (_ & Hdb). cbv zeta in Hdb.
    destruct Hdb as [(Hnd & _)|(quiet & dels & done & rest & Hev & Hq & _ & Hdels & _ & _ & Hdb)].
    - pose proof (proj1 (Forall_forall _ _) Hnd _ Hdel). discriminate.
    - simpl in Hev. rewrite Hev in Hdel. apply elem_of_app in Hdel as [Hin|Hin].
      + pose proof (proj1 (Forall_forall _ _) Hq _ Hin). discriminate.
      + pose proof (proj1 (Forall_forall _ _) Hdels _ Hin) as [_ Ht].
        simpl in Hdb. rewrite (table_rows_purge _ _ _ _ t Hdb).
        now rewrite decide_True by auto. }
  assert (forall rec, rec ∈ Multi.x_records x -> Multi.TableName rec = t ->
            exists r, r ∈ sql_select rows c 100 /\ rec = Multi.tag t r) as Hfrom.
  { intros rec Hrec Htag. destruct (multi_extract_ok _ _ _ Hex) as (-> & _ & _).
    simpl in Hrec. apply in_batch_of in Hrec as (t' & r & _ & Hr & ->).
    simpl in Htag. subst t'. eauto. }
  pose proof (sql_select_rest rows c 100) as Hperm.
  set (extra := drop (Z.to_nat 100)
                  (order_by_timestamp_desc (List.filter (older_than c) rows))) in *.
  assert (extra <> []) as Hne.
  { intros Hnil. apply (f_equal length) in Hnil. unfold extra in Hnil.
    rewrite length_drop, (Permutation_length (order_by_timestamp_desc_perm _)) in Hnil.
    simpl in Hnil. lia. }
  assert (forall r, r ∈ extra -> r ∈ rows /\ r ∉ sql_delete rows c) as Hextra.
  { intros r Hr.
    assert (r ∈ List.filter (older_than c) rows) as Hold
      by (rewrite Hperm; apply elem_of_app; now right).
    apply elem_of_List_filter in Hold as [Hb Hin]. split; [exact Hin|].
    apply sql_delete_gone; [exact Hin | exact Hb]. }
  split; [exact Hafter|].
  split; [rewrite sql_select_length; change (Z.to_nat 100) with 100%nat;
          apply Nat.min_l; lia|].
  split; [exact Hfrom|].
  split; [exists extra; rewrite Hafter; auto|].
  intros Hnd. destruct extra as [|r extra'] eqn:Hx; [congruence|].
  exists r. destruct (Hextra r) as [Hin Hgone]; [left|].
  split; [exact Hin|]. split; [now rewrite Hafter|].
  intros Hrec. destruct (Hfrom _ Hrec eq_refl) as (r' & Hr' & Heq).
  apply tag_inj in Heq. subst r'.
  assert (NoDup (sql_select rows c 100 ++ r :: extra')) as Hnd'.
  { rewrite <- Hperm. apply NoDup_ListNoDup, List.NoDup_filter, NoDup_ListNoDup, Hnd. }
  apply NoDup_app in Hnd' as (_ & Hdisj & _). apply (Hdisj r Hr'). left.
Qed.

(** A source that holds 101 rows older than the cutoff. *)
Definition crowded_rows : list Row :=
  (fun i => mkRow (Z.of_nat i) (mkTime (Z.of_nat i * nanos_per_sec) 0) "dev" 0)
    <$> seq 0 101.

Definition crowded_world : World :=
  mkWorld sample_environ sample_now (<["a" := crowded_rows]> (<["b" := []]> ∅)) ∅ ∅.

Lemma purge_witness :
  EvDelete "a" (run_cutoff no_faults crowded_world) true
    ∈ events (Multi.run no_faults crowded_world)
  /\ (100 < length (List.filter (older_than (run_cutoff no_faults crowded_world))
                     (table_rows crowded_world "a")))%nat
  /\ table_rows (world (Multi.run no_faults crowded_world)) "a"
     = sql_delete (table_rows crowded_world "a") (run_cutoff no_faults crowded_world)
  /\ length (sql_select (table_rows crowded_world "a")
               (run_cutoff no_faults crowded_world) 100) = 100%nat.
Proof.
  assert (res (Multi.extract no_faults crowded_world)
          = Ok (Multi.mkExtracted (s3_bucket crowded_world)
                  (configured_tables crowded_world)
                  (run_cutoff no_faults crowded_world)
                  (batch_of crowded_world (configured_tables crowded_world)
                     (run_cutoff no_faults crowded_world) 100))) as Hex
    by (vm_compute; reflexivity).
  assert (EvDelete "a" (run_cutoff no_faults crowded_world) true
            ∈ events (Multi.run no_faults crowded_world)) as Hdel
    by (vm_compute; repeat constructor).
  assert (100 < length (List.filter (older_than (run_cutoff no_faults crowded_world))
                         (table_rows crowded_world "a")))%nat as Hmany
    by (vm_compute; lia).
  split; [exact Hdel|]. split; [exact Hmany|].
  split.
  - exact (proj1 (purge_deletes_more_than_was_archived no_faults crowded_world _
                    "a" _ Hex Hdel Hmany)).
  - exact (proj1 (proj2 (purge_deletes_more_than_was_archived no_faults crowded_world _
                    "a" _ Hex Hdel Hmany))).
Defined.

(** ** C8: the round trip through the file *)

(** Modelled from the spec: the reader of the artifact, which is not part of
    the repository.  A row is read back column by column into the struct the
    writer was given, and the instant is recovered from the stored integer by
    [time.Unix(0, nanoseconds)], in the zone [loc] of the reader. *)
Definition unmarshal (row : list PValue) : option Multi.ParquetFile :=
  match row with
  | [PInt64 id; PInt64 ts; PByteArray dev; PDouble v; PByteArray tbl] =>
      Some (Multi.mkParquetFile id ts dev v tbl)
  | _ => None
  end.

Definition FromParquet (loc : Z) (p : Multi.ParquetFile) : Multi.IoTRecord :=
  {| Multi.ID := Multi.pf_ID p;
     Multi.Timestamp := Unix_nsec loc (Multi.pf_Timestamp p);
     Multi.DeviceID := Multi.pf_DeviceID p;
     Multi.Value := Multi.pf_Value p;
     Multi.TableName := Multi.pf_TableName p |}.

Fixpoint decode_rows (loc : Z) (rs : list (list PValue))
    : option (list Multi.IoTRecord) :=
  match rs with
  | [] => Some []
  | row :: rest =>
      match unmarshal row, decode_rows loc rest with
      | Some p, Some recs => Some (FromParquet loc p :: recs)
      | _, _ => None
      end
  end.

Definition decode (loc : Z) (f : File) : option (list Multi.IoTRecord) :=
  decode_rows loc (rows f).

(** The same record: every field equal, the timestamps the same instant. *)
Definition same_record (r r' : Multi.IoTRecord) : Prop :=
  Multi.ID r = Multi.ID r'
  /\ Equal (Multi.Timestamp r) (Multi.Timestamp r') = true
  /\ Multi.DeviceID r = Multi.DeviceID r'
  /\ Multi.Value r = Multi.Value r'
  /\ Multi.TableName r = Multi.TableName r'.

(** The instants an [int64] count of nanoseconds can hold:
    1677-09-21 00:12:43.145224192 to 2262-04-11 23:47:16.854775807 UTC. *)
Definition representable (t : Time) : Prop := int64_min <= t_ns t <= int64_max.

Lemma UnixNano_representable t : representable t -> UnixNano t = t_ns t.
Proof.
  unfold representable, UnixNano, int64_wrap, int64_min, int64_max. intros H.
  rewrite Z.mod_small; lia.
Qed.

Lemma ToParquet_round_trip loc r :
  representable (Multi.Timestamp r) ->
  unmarshal (Multi.marshal (Multi.ToParquet r)) = Some (Multi.ToParquet r)
  /\ same_record r (FromParquet loc (Multi.ToParquet r)).
Proof.
  intros H. split; [reflexivity|]. unfold same_record, FromParquet, Equal. simpl.
  rewrite (UnixNano_representable _ H), Z.eqb_refl. auto.
Qed.

Lemma decode_encoded loc recs :
  Forall (fun r => representable (Multi.Timestamp r)) recs ->
  exists recs', decode loc (multi_encoded recs) = Some recs'
                /\ Forall2 same_record recs recs'.
Proof.
  unfold decode. simpl. induction 1 as [|r recs Hr _ (recs' & Hd & Hall)].
  - exists []. split; [reflexivity | constructor].
  - exists (FromParquet loc (Multi.ToParquet r) :: recs'). split.
    + change (multi_encode (r :: recs))
        with (Multi.marshal (Multi.ToParquet r) :: multi_encode recs).
      cbn [decode_rows]. rewrite Hd. reflexivity.
    + constructor; [now apply ToParquet_round_trip | exact Hall].
Qed.

(** C8 (amended). For every list of records whose timestamps fit in an
    [int64] count of nanoseconds since the Unix epoch: when
    [writeParquetFile] succeeds, the file it leaves is complete and reading
    it back yields, in the same order, records with the same identifier,
    device, value bits and table name, and a timestamp that is the same
    instant as the original. *)
Theorem parquet_round_trip_within_int64_nanoseconds recs filename loc F w :
  Forall (fun r => representable (Multi.Timestamp r)) recs ->
  is_ok (res (Multi.writeParquetFile recs filename F w)) = true ->
  exists f recs',
    disk (world (Multi.writeParquetFile recs filename F w)) !! filename = Some f
    /\ complete f = true
    /\ codec f = SNAPPY
    /\ decode loc f = Some recs'
    /\ Forall2 same_record recs recs'.
Proof.
  intros Hfit Hok.
  assert (res (Multi.writeParquetFile recs filename F w) = Ok tt) as Hres
    by (destruct (res _) as [[]|]; [reflexivity | discriminate]).
  destruct (decode_encoded loc recs Hfit) as (recs' & Hd & Hall).
  exists (multi_encoded recs), recs'.
  rewrite (multi_writeParquetFile_ok _ _ _ _ Hres), lookup_insert_eq. auto.
Qed.

Definition empty_world : World := mkWorld ∅ sample_now ∅ ∅ ∅.

Lemma round_trip_witness :
  Forall (fun r => representable (Multi.Timestamp r))
    [Multi.tag "a" (mkRow 2 (Date 2024 3 20 8 30 0) "dev2" 43)]
  /\ exists f recs',
       disk (world (Multi.writeParquetFile
                      [Multi.tag "a" (mkRow 2 (Date 2024 3 20 8 30 0) "dev2" 43)]
                      parquetFile no_faults empty_world)) !! parquetFile = Some f
       /\ complete f = true
       /\ codec f = SNAPPY
       /\ decode 3600 f = Some recs'
       /\ Forall2 same_record
            [Multi.tag "a" (mkRow 2 (Date 2024 3 20 8 30 0) "dev2" 43)] recs'.
Proof.
  assert (Forall (fun r => representable (Multi.Timestamp r))
            [Multi.tag "a" (mkRow 2 (Date 2024 3 20 8 30 0) "dev2" 43)]) as H
    by (repeat constructor; vm_compute; discriminate).
  split; [exact H|].
  exact (parquet_round_trip_within_int64_nanoseconds _ parquetFile 3600 no_faults
           empty_world H eq_refl).
Defined.

(** The zero [time.Time] (year 1), which a Go program stores for an unset
    timestamp, does not fit: the file holds a wrapped count and the reader
    recovers another instant. *)
Lemma round_trip_loses_year_one :
  res (Multi.writeParquetFile [Multi.mkIoTRecord 1 zero_Time "dev" 0 "a"]
         parquetFile no_faults empty_world) = Ok tt
  /\ disk (world (Multi.writeParquetFile [Multi.mkIoTRecord 1 zero_Time "dev" 0 "a"]
                    parquetFile no_faults empty_world)) !! parquetFile
     = Some (multi_encoded [Multi.mkIoTRecord 1 zero_Time "dev" 0 "a"])
  /\ decode 0 (multi_encoded [Multi.mkIoTRecord 1 zero_Time "dev" 0 "a"])
     = Some [Multi.mkIoTRecord 1 (mkTime (-6795364578871345152) 0) "dev" 0 "a"]
  /\ Equal zero_Time (mkTime (-6795364578871345152) 0) = false
  /\ Year (mkTime (-6795364578871345152) 0) = 1754.
Proof. vm_compute. repeat split; reflexivity. Qed.

(** ** C9: source names are not validated *)

(** The names the queries of a run were sent with, in order. *)
Definition queried (evs : list Event) : list string :=
  omap (fun ev => match ev with EvQuery t _ _ _ => Some t | _ => None end) evs.

(** The database call on source [t] failed: the query was refused, a row
    could not be scanned, or the iteration ended with an error. *)
Definition source_failed (t : string) (evs : list Event) : Prop :=
  (exists c l, EvQuery t c l false ∈ evs) \/ EvScanError t ∈ evs \/ EvRowsError t ∈ evs.

(** A table list with a blank entry between two names. *)
Definition blank_entry_world : World :=
  mkWorld (<["TABLE_NAMES" := "a, ,b"]> ∅) sample_now
          (<["a" := sample_rows]> (<["b" := []]> ∅)) ∅ ∅.

(** The blank entry becomes the empty name; the query with the empty name
    is sent, after table [a] was read, and the database refuses it; [b] is
    never reached. *)
Lemma empty_source_name_is_queried :
  configured_tables blank_entry_world = ["a"; ""; "b"]
  /\ queried (events (Multi.run no_faults blank_entry_world)) = ["a"; ""]
  /\ EvQuery "" (run_cutoff no_faults blank_entry_world) 100 false
       ∈ events (Multi.run no_faults blank_entry_world)
  /\ res (Multi.run no_faults blank_entry_world)
     = Fail (Errorf "processing table "
               (Errorf "querying old records from "
                  (LibError "pq: syntax error"))).
Proof.
  vm_compute. repeat split; repeat constructor.
Qed.

Lemma multi_scan_rows_events t cur acc F w :
  (is_ok (res (Multi.scan_rows t cur acc F w)) = true
   /\ events (Multi.scan_rows t cur acc F w) = [])
  \/ (is_ok (res (Multi.scan_rows t cur acc F w)) = false
      /\ events (Multi.scan_rows t cur acc F w) = [EvScanError t]).
Proof.
  revert acc. induction cur as [|[r|] cur IH]; intros acc; simpl; mrun; auto.
  specialize (IH (acc ++ [Multi.tag t r])).
  destruct (Multi.scan_rows t cur _ F w) as [[rs|e] w' evs']; mrun; exact IH.
Qed.

(** [processTable] sends its query first, whatever the name, and sends no
    other; when it returns an error, the database call on that source
    failed. *)
Lemma processTable_calls t c l F w :
  let o := Multi.processTable t c l F w in
  (exists ok rest, events o = EvQuery t c l ok :: rest)
  /\ queried (events o) = [t]
  /\ (is_ok (res o) = false -> source_failed t (events o)).
Proof.
  cbv zeta. unfold Multi.processTable, db_Query, source_failed. mrun.
  destruct (query_fault F t); destruct (named_table w t); mrun;
    try (split; [eauto|]; split; [reflexivity|]; intros _; left;
         exists c, l; apply list_elem_of_here);
    match goal with
    | |- context [Multi.scan_rows ?t' ?cur ?a ?F' ?w'] =>
        destruct (multi_scan_rows_events t' cur a F' w') as [[Hr He]|[Hr He]];
        destruct (Multi.scan_rows t' cur a F' w') as [[?|?] ? ?]
    end; mrun; try discriminate; subst;
    (split; [eauto|]); (split; [reflexivity|]);
    try (intros _; right; left; apply list_elem_of_further, list_elem_of_here);
    try match goal with
        | |- context [if ?b then _ else _] => destruct b
        end; mrun; try discriminate;
    try (intros _; right; right; apply list_elem_of_further, list_elem_of_here).
Qed.

Lemma queried_app l1 l2 : queried (l1 ++ l2) = queried l1 ++ queried l2.
Proof. unfold queried. apply omap_app. Qed.

Lemma source_failed_app t l1 l2 : source_failed t l2 -> source_failed t (l1 ++ l2).
Proof.
  unfold source_failed. setoid_rewrite elem_of_app.
  intros [(c & l & H)|[H|H]]; eauto 6.
Qed.

(** The loop over the sources queries them one after the other, as they
    stand, and stops after the first source on which the database call
    failed. *)
Lemma process_tables_queried ts c l acc F w :
  let o := Multi.process_tables ts c l acc F w in
  exists done rest,
    ts = done ++ rest
    /\ queried (events o) = done
    /\ (is_ok (res o) = true -> rest = [])
    /\ (is_ok (res o) = false ->
        exists t, last done = Some t /\ source_failed t (events o)).
Proof.
  cbv zeta. revert acc w. induction ts as [|t ts IH]; intros acc w; simpl.
  - mrun. exists [], []. repeat split; auto; discriminate.
  - mrun. destruct (processTable_calls t c l F w) as (_ & Hq & Hf). cbv zeta in *.
    destruct (Multi.processTable t c l F w) as [[rs|e] w1 evs1]; mrun.
    + destruct (IH (acc ++ rs) w1) as (done & rest & -> & Hd & Hok & Hfail).
      destruct (Multi.process_tables _ c l _ F w1) as [r w2 evs2]; mrun.
      exists (t :: done), rest. rewrite queried_app, Hq, Hd.
      split; [reflexivity|]. split; [reflexivity|]. split; [exact Hok|].
      intros Hr. destruct (Hfail Hr) as (t' & Hlast & Hsf).
      exists t'. split; [|now apply source_failed_app].
      destruct done; [discriminate | exact Hlast].
    + exists [t], ts. rewrite Hq.
      split; [reflexivity|]. split; [reflexivity|]. split; [discriminate|].
      intros _. exists t. split; [reflexivity | auto].
Qed.

(** The empty name denotes no table. *)
Lemma processTable_empty_name c l F w :
  is_ok (res (Multi.processTable "" c l F w)) = false
  /\ events (Multi.processTable "" c l F w) = [EvQuery "" c l false].
Proof.
  unfold Multi.processTable, db_Query. mrun. rewrite named_table_empty.
  destruct (query_fault F ""); mrun; auto.
Qed.

Lemma process_tables_no_empty_name ts c l acc F w :
  is_ok (res (Multi.process_tables ts c l acc F w)) = true -> "" ∉ ts.
Proof.
  revert acc w. induction ts as [|t ts IH]; intros acc w; simpl.
  - intros _. apply not_elem_of_nil.
  - mrun. destruct (String.eqb_spec t "") as [->|Hne].
    + destruct (processTable_empty_name c l F w) as [Hr _].
      destruct (Multi.processTable "" c l F w) as [[rs|e] w1 evs1]; mrun;
        discriminate.
    + destruct (Multi.processTable t c l F w) as [[rs|e] w1 evs1]; mrun;
        [|discriminate].
      specialize (IH (acc ++ rs) w1).
      destruct (Multi.process_tables ts c l _ F w1) as [r w2 evs2]; mrun.
      intros Hr [Heq|Hin]%elem_of_cons; [congruence | now apply IH].
Qed.

(** C9 (amended). The extractor does not validate source names.  Whatever
    the name — the empty string included — the first thing [processTable]
    does is to send the query with the name spliced in.  Once the connection
    is established, the names queried are, in order and as they stand after
    trimming, the configured names up to and including the first source on
    which the database call fails: the first configured name is always
    queried, every name is queried when the extraction completes, and an
    entry of the list is left unqueried only because the database call on
    an entry before it failed.  The empty name is refused by the database,
    with the query already sent, as is every name that is not a table of
    the database; so a table list with an empty entry makes extraction and
    run fail. *)
Theorem source_names_are_queried_unvalidated :
  (forall t c l F w,
      exists ok rest,
        events (Multi.processTable t c l F w) = EvQuery t c l ok :: rest)
  /\ (forall F w,
         open_fails F = false -> ping_fails F = false ->
         exists done rest,
           TrimSpace <$> Split_comma (env_or w "TABLE_NAMES" "iot_data") = done ++ rest
           /\ queried (events (Multi.extract F w)) = done
           /\ done <> []
           /\ (is_ok (res (Multi.extract F w)) = true -> rest = [])
           /\ (is_ok (res (Multi.extract F w)) = false ->
               exists t, last done = Some t
                         /\ source_failed t (events (Multi.extract F w))))
  /\ (forall c l F w,
         is_ok (res (Multi.processTable "" c l F w)) = false
         /\ events (Multi.processTable "" c l F w) = [EvQuery "" c l false])
  /\ (forall t c l F w,
         database w !! t = None ->
         is_ok (res (Multi.processTable t c l F w)) = false
         /\ events (Multi.processTable t c l F w) = [EvQuery t c l false])
  /\ (forall F w,
         "" ∈ TrimSpace <$> Split_comma (env_or w "TABLE_NAMES" "iot_data") ->
         is_ok (res (Multi.extract F w)) = false
         /\ is_ok (res (Multi.run F w)) = false).
Proof.
  split; [intros t c l F w; exact (proj1 (processTable_calls t c l F w))|].
  split; [|split; [exact processTable_empty_name|split]].
  - intros F w Hopen Hping. rewrite multi_extract_eq, Hopen, Hping.
    fold (configured_tables w).
    destruct (process_tables_queried (configured_tables w) (run_cutoff F w) 100 []
                F (connected F w)) as (done & rest & Hsplit & Hq & Hok & Hfail).
    cbv zeta in *.
    destruct (Multi.process_tables _ _ _ _ _ _) as [[recs|e] w' evs]; simpl in *.
    + exists done, rest. specialize (Hok eq_refl). subst rest.
      rewrite app_nil_r in Hsplit.
      split; [now rewrite Hsplit, app_nil_r|]. split; [exact Hq|].
      split; [|split; [reflexivity | discriminate]].
      rewrite <- Hsplit. unfold configured_tables.
      destruct (Split_comma _) eqn:E; [|discriminate].
      now destruct (env_or w "TABLE_NAMES" "iot_data") as [|a s0];
        simpl in E; [|destruct (Ascii.eqb a ","); [|destruct (Split_comma s0)]].
    + exists done, rest. destruct (Hfail eq_refl) as (t & Hlast & Hsf).
      split; [exact Hsplit|]. split; [exact Hq|].
      split; [intros ->; discriminate|]. split; [discriminate|].
      intros _. exists t. split; [exact Hlast|].
      apply (source_failed_app t [EvSqlOpen (pg_conn w) true; EvPing true]), Hsf.
  - intros t c l F w Hnone. unfold Multi.processTable, db_Query, named_table. mrun.
    rewrite Hnone. destruct (query_fault F t); destruct (String.eqb t ""); mrun; auto.
  - intros F w Hin.
    assert (is_ok (res (Multi.extract F w)) = false) as Hex.
    { rewrite multi_extract_eq.
      destruct (open_fails F); [reflexivity|].
      destruct (ping_fails F); [reflexivity|].
      pose proof (process_tables_no_empty_name (configured_tables w) (run_cutoff F w)
                    100 [] F (connected F w)) as Hno.
      destruct (Multi.process_tables _ _ _ _ _ _) as [[recs|e] w' evs]; simpl in *;
        [|reflexivity].
      destruct (Hno eq_refl Hin). }
    split; [exact Hex|]. unfold Multi.run.
    destruct (res (Multi.extract F w)) as [x|e] eqn:E; [discriminate|].
    now rewrite (bind_Fail _ _ _ _ _ E).
Qed.
(** * Further properties of the two programs *)

(** ** The order of the stages *)

(** The stage an external call belongs to: 1 extraction, 2 encoding,
    3 upload, 4 purge. *)
Definition stage (ev : Event) : nat :=
  match ev with
  | EvSqlOpen _ _ | EvPing _ | EvQuery _ _ _ _ | EvScanError _ | EvRowsError _ => 1
  | EvCreate _ _ | EvNewWriter _ _ | EvWrite _ _ _ | EvWriteStop _ _ | EvClose _ _ => 2
  | EvLoadConfig _ | EvOpenFile _ _ | EvPutObject _ _ _ _ => 3
  | EvDelete _ _ _ => 4
  end.

Definition stage_le (a b : Event) : Prop := (stage a <= stage b)%nat.

Lemma StronglySorted_app {A} (R : relation A) (l1 l2 : list A) :
  StronglySorted R l1 -> StronglySorted R l2 ->
  (forall a b, a ∈ l1 -> b ∈ l2 -> R a b) ->
  StronglySorted R (l1 ++ l2).
Proof.
  intros H1 H2 H. induction H1 as [|x l1 Hs IH Hx]; simpl; [exact H2|].
  constructor.
  - apply IH. intros a b Ha. apply H. now right.
  - apply Forall_app. split; [exact Hx|].
    apply Forall_forall. intros b Hb. apply H; [left | exact Hb].
Qed.

Lemma one_stage_sorted n (l : list Event) :
  Forall (fun ev => stage ev = n) l -> StronglySorted stage_le l.
Proof.
  induction 1 as [|x l Hx Hl IH]; constructor; [exact IH|].
  eapply Forall_impl; [exact Hl|]. unfold stage_le. intros; simpl in *. lia.
Qed.

Lemma extract_call_stage c l ev : extract_call c l ev -> stage ev = 1%nat.
Proof. destruct ev; simpl; tauto. Qed.

Lemma file_call_stage path ev : file_call path ev -> stage ev = 2%nat.
Proof. destruct ev; simpl; tauto. Qed.

Lemma purge_call_stage c done ev : purge_call c done ev -> stage ev = 4%nat.
Proof. destruct ev; simpl; tauto. Qed.

Lemma before_upload_stage tl : before_upload tl -> Forall (fun ev => stage ev = 3%nat) tl.
Proof. intros [-> | [-> | ->]]; repeat constructor. Qed.

(** Four blocks of calls, one per stage, in the order of the stages. *)
Lemma staged_blocks (qs enc upl dels : list Event) :
  Forall (fun ev => stage ev = 1%nat) qs ->
  Forall (fun ev => stage ev = 2%nat) enc ->
  Forall (fun ev => stage ev = 3%nat) upl ->
  Forall (fun ev => stage ev = 4%nat) dels ->
  StronglySorted stage_le (qs ++ enc ++ upl ++ dels).
Proof.
  intros H1 H2 H3 H4.
  repeat apply StronglySorted_app; eauto using one_stage_sorted.
  all: intros a b Ha Hb; unfold stage_le.
  all: rewrite ?elem_of_app in *.
  all: repeat match goal with
         | H : _ \/ _ |- _ => destruct H
         | H : ?x ∈ ?l, HF : Forall _ ?l |- _ =>
             apply (proj1 (Forall_forall _ _) HF) in H
         end; lia.
Qed.

(** X1. In every run, of either program, the external calls are made stage
    by stage: along the sequence of calls the stage never goes back, so that
    no file is written before the last query, nothing is uploaded before the
    file is closed, and no row is deleted before the upload. *)
Theorem stages_run_strictly_forward p F w :
  StronglySorted stage_le (events (run_of p F w)).
Proof.
  assert (forall l, Forall (extract_call (run_cutoff F w) 100) l ->
            Forall (fun ev => stage ev = 1%nat) l) as Hq
    by (intros l H; eapply Forall_impl; [exact H | apply extract_call_stage]).
  assert (forall l, Forall (file_call parquetFile) l ->
            Forall (fun ev => stage ev = 2%nat) l) as He
    by (intros l H; eapply Forall_impl; [exact H | apply file_call_stage]).
  destruct (run_shape_holds p F w)
    as [_ _ Hcalls _|_ _ Hcalls _ _|qs enc tl _ _ Hev Hqs _ Henc Htl _ _
       |qs enc _ _ Hev Hqs _ Henc _ _ _
       |qs enc dels done rest _ _ Hev Hqs _ Henc Hdels _ _ _ _ _].
  - eapply one_stage_sorted; eauto.
  - eapply one_stage_sorted; eauto.
  - rewrite Hev. rewrite <- (app_nil_r tl).
    apply staged_blocks; auto using before_upload_stage.
  - rewrite Hev.
    rewrite <- (app_nil_r [EvLoadConfig true; EvOpenFile parquetFile true; _]).
    apply staged_blocks; auto.
  - rewrite Hev. apply staged_blocks; auto.
    eapply Forall_impl; [exact Hdels | apply purge_call_stage].
Qed.

(** ** The upload *)

Lemma filter_none {A} (f : A -> bool) (l : list A) :
  Forall (fun x => f x = false) l -> List.filter f l = [].
Proof. induction 1 as [|x l Hx _ IH]; simpl; [reflexivity|]. now rewrite Hx. Qed.

Lemma extract_calls_no_put c l evs :
  Forall (extract_call c l) evs -> Forall (fun ev => is_put ev = false) evs.
Proof.
  intros H. eapply Forall_impl; [exact H|]. intros ev Hc.
  now apply extract_call_quiet in Hc.
Qed.

Lemma file_calls_no_put path evs :
  Forall (file_call path) evs -> Forall (fun ev => is_put ev = false) evs.
Proof.
  intros H. eapply Forall_impl; [exact H|]. intros ev Hc.
  now apply file_call_quiet in Hc.
Qed.

Lemma purge_calls_no_put c done evs :
  Forall (purge_call c done) evs -> Forall (fun ev => is_put ev = false) evs.
Proof.
  intros H. eapply Forall_impl; [exact H|]. intros ev Hc.
  now apply purge_call_quiet in Hc.
Qed.

Lemma before_upload_no_puts tl :
  before_upload tl -> Forall (fun ev => is_put ev = false) tl.
Proof. intros [-> | [-> | ->]]; repeat constructor. Qed.

(** A call that reads a source, writes the local file, uploads or deletes. *)
Definition moves_data (ev : Event) : bool :=
  is_query ev || is_file_write ev || is_put ev || is_delete ev.

(** X2. A run, of either program, calls [PutObject] at most once: there is no
    retry.  When the call fails, it was the upload of the artifact of the run
    under the key of the run, [run] returns an error, and no query, no write
    to the local file, no upload and no delete statement follows it; when the
    run ends without error on a non-empty batch, the one call is the
    successful upload of the artifact under the key of the run. *)
Theorem upload_is_attempted_at_most_once p F w :
  (length (List.filter is_put (events (run_of p F w))) <= 1)%nat
  /\ (forall bucket key body,
         EvPutObject bucket key body false ∈ events (run_of p F w) ->
         bucket = s3_bucket w /\ key = key_of p F w /\ body = artifact_of p F w
         /\ is_ok (res (run_of p F w)) = false
         /\ exists before after,
              events (run_of p F w)
              = before ++ EvPutObject bucket key body false :: after
              /\ Forall (fun ev => is_put ev = false) before
              /\ Forall (fun ev => moves_data ev = false) after)
  /\ (is_ok (res (run_of p F w)) = true ->
      batch_timestamps p F w <> Some [] ->
      List.filter is_put (events (run_of p F w))
      = [EvPutObject (s3_bucket w) (key_of p F w) (artifact_of p F w) true]).
Proof.
  destruct (run_shape_holds p F w)
    as [_ Hres Hcalls _|Hb _ Hcalls _ _|qs enc tl _ _ Hev Hqs _ Henc Htl Hres _
       |qs enc _ _ Hev Hqs _ Henc Hres _ _
       |qs enc dels done rest _ _ Hev Hqs _ Henc Hdels _ _ _ _ _].
  - pose proof (extract_calls_no_put _ _ _ Hcalls) as Hn.
    rewrite (filter_none _ _ Hn). split; [simpl; lia|]. split; [|intros; congruence].
    intros b k body Hin. pose proof (proj1 (Forall_forall _ _) Hn _ Hin). discriminate.
  - pose proof (extract_calls_no_put _ _ _ Hcalls) as Hn.
    rewrite (filter_none _ _ Hn). split; [simpl; lia|]. split; [|intros; congruence].
    intros b k body Hin. pose proof (proj1 (Forall_forall _ _) Hn _ Hin). discriminate.
  - assert (Forall (fun ev => is_put ev = false) (events (run_of p F w))) as Hn.
    { rewrite Hev, !Forall_app.
      split; [eapply extract_calls_no_put; exact Hqs|].
      split; [eapply file_calls_no_put; exact Henc | now apply before_upload_no_puts]. }
    rewrite (filter_none _ _ Hn). split; [simpl; lia|]. split; [|intros; congruence].
    intros b k body Hin. pose proof (proj1 (Forall_forall _ _) Hn _ Hin). discriminate.
  - pose proof (extract_calls_no_put _ _ _ Hqs) as Hn1.
    pose proof (file_calls_no_put _ _ Henc) as Hn2.
    rewrite Hev, !List.filter_app, (filter_none _ _ Hn1), (filter_none _ _ Hn2).
    split; [simpl; lia|]. split; [|intros; congruence].
    intros b k body Hin. apply in_failed_upload_run in Hin.
    destruct Hin as [Hin | [Hin | [Hin | [Hin | Hin]]]]; try discriminate.
    + pose proof (proj1 (Forall_forall _ _) Hn1 _ Hin). discriminate.
    + pose proof (proj1 (Forall_forall _ _) Hn2 _ Hin). discriminate.
    + injection Hin as -> -> ->. repeat (split; [reflexivity|]).
      split; [exact Hres|].
      exists (qs ++ enc ++ [EvLoadConfig true; EvOpenFile parquetFile true]), [].
      split; [now rewrite <- !app_assoc|].
      split; [|constructor].
      rewrite !Forall_app. repeat split; auto.
  - pose proof (extract_calls_no_put _ _ _ Hqs) as Hn1.
    pose proof (file_calls_no_put _ _ Henc) as Hn2.
    pose proof (purge_calls_no_put _ _ _ Hdels) as Hn3.
    rewrite Hev, !List.filter_app, (filter_none _ _ Hn1), (filter_none _ _ Hn2),
      (filter_none _ _ Hn3).
    split; [simpl; lia|]. split; [|reflexivity].
    intros b k body Hin. apply in_uploaded_run in Hin.
    destruct Hin as [Hin | [Hin | [Hin | [Hin | [Hin | Hin]]]]]; try discriminate.
    + pose proof (proj1 (Forall_forall _ _) Hn1 _ Hin). discriminate.
    + pose proof (proj1 (Forall_forall _ _) Hn2 _ Hin). discriminate.
    + pose proof (proj1 (Forall_forall _ _) Hn3 _ Hin). discriminate.
Qed.

(** ** What a run leaves alone *)

(** X3. The object store changes only by a successful [PutObject]: either no
    upload succeeded and the store is as it was, or the artifact was stored
    under the key of the run, in the configured bucket, and every other object
    is as it was.  No object is ever removed. *)
Theorem object_store_changes_only_by_the_upload p F w :
  let o := run_of p F w in
  let target := (s3_bucket w, key_of p F w) in
  ((Forall (fun ev => is_put_ok ev = false) (events o)
    /\ objects (world o) = objects w)
   \/ (EvPutObject (s3_bucket w) (key_of p F w) (artifact_of p F w) true ∈ events o
       /\ objects (world o) = <[target := artifact_of p F w]> (objects w)))
  /\ (forall k, k <> target -> objects (world o) !! k = objects w !! k)
  /\ (forall k, is_Some (objects w !! k) -> is_Some (objects (world o) !! k)).
Proof.
  cbv zeta.
  assert (forall l, Forall (extract_call (run_cutoff F w) 100) l ->
            Forall (fun ev => is_put_ok ev = false) l) as Hq
    by (intros l H; eapply Forall_impl; [exact H|]; intros [] Hc; simpl in *; tauto).
  assert (forall l, Forall (file_call parquetFile) l ->
            Forall (fun ev => is_put_ok ev = false) l) as He
    by (intros l H; eapply Forall_impl; [exact H|]; intros [] Hc; simpl in *; tauto).
  assert (objects (world (run_of p F w)) = objects w ->
          (forall k, k <> (s3_bucket w, key_of p F w) ->
             objects (world (run_of p F w)) !! k = objects w !! k)
          /\ (forall k, is_Some (objects w !! k) ->
                is_Some (objects (world (run_of p F w)) !! k))) as Hsame
    by (intros ->; auto).
  destruct (run_shape_holds p F w)
    as [_ _ Hcalls Hst|_ _ Hcalls _ Hst|qs enc tl _ _ Hev Hqs _ Henc Htl _ Hdb
       |qs enc _ _ Hev Hqs _ Henc _ Hdb _
       |qs enc dels done rest _ _ Hev Hqs _ Henc Hdels _ _ _ _ Hobj].
  - injection Hst as _ _ Hobj. split; [left; auto | auto].
  - injection Hst as _ _ Hobj. split; [left; auto | auto].
  - injection Hdb as _ Hobj. split; [left | auto]. split; [|exact Hobj].
    rewrite Hev, !Forall_app. split; [auto|]. split; [auto|].
    destruct Htl as [-> | [-> | ->]]; repeat constructor.
  - injection Hdb as _ Hobj. split; [left | auto]. split; [|exact Hobj].
    rewrite Hev, !Forall_app. split; [auto|]. split; [auto|]. repeat constructor.
  - split; [right; split; [|exact Hobj]|].
    + rewrite Hev, !elem_of_app. right. right. left.
      apply list_elem_of_further, list_elem_of_further, list_elem_of_here.
    + rewrite Hobj. split.
      * intros k Hk. now apply lookup_insert_ne.
      * intros k Hk. rewrite lookup_insert. case_decide; eauto.
Qed.

(** X4. A run only ever removes rows, and only from the configured sources:
    a table that is not configured is left exactly as it was, no table is
    created or dropped, and every row found in a table after the run was in
    that table before it. *)
Theorem run_only_removes_rows_of_configured_sources p F w :
  let o := run_of p F w in
  (forall t, t ∉ sources_of p w -> database (world o) !! t = database w !! t)
  /\ (forall t, is_Some (database (world o) !! t) <-> is_Some (database w !! t))
  /\ (forall t r, r ∈ table_rows (world o) t -> r ∈ table_rows w t).
Proof.
  cbv zeta. destruct (run_database p F w) as (_ & Hdb). cbv zeta in Hdb.
  destruct Hdb as [(_ & Hdb & _)
                  |(quiet & dels & done & rest & _ & _ & _ & _ & Hsrc & _ & Hdb)].
  - unfold table_rows. rewrite Hdb. auto.
  - split; [|split].
    + intros t Ht. rewrite Hdb, purge_lookup.
      rewrite decide_False; [reflexivity|].
      intros Hin. apply Ht. rewrite Hsrc. apply elem_of_app. now left.
    + intros t. rewrite Hdb, purge_lookup.
      destruct (decide (t ∈ done)); [|reflexivity]. apply fmap_is_Some.
    + intros t r. rewrite (table_rows_purge _ _ _ _ t Hdb).
      destruct (decide (t ∈ done)); [|auto].
      rewrite sql_delete_elem. tauto.
Qed.

(** *** The local disk *)

(** The files other than [path]. *)
Definition other_files (path : string) (w : World) : gmap string File :=
  delete path (disk w).

Lemma keeps_bind_res {X A B} (proj : World -> X) (m : M A) (k : A -> M B) :
  keeps proj m ->
  (forall a F w, res (m F w) = Ok a ->
     proj (world (k a F (world (m F w)))) = proj (world (m F w))) ->
  keeps proj (m ≫= k).
Proof.
  intros Hm Hk F w. destruct (res (m F w)) as [a|e] eqn:E.
  - rewrite (bind_Ok _ _ _ _ _ E). simpl. now rewrite (Hk _ _ _ E), Hm.
  - rewrite (bind_Fail _ _ _ _ _ E). simpl. apply Hm.
Qed.

(** What keeps the disk keeps the files other than [path]. *)
Lemma keeps_stores_other {A} path (m : M A) :
  keeps stores m -> keeps (other_files path) m.
Proof.
  intros H F w. specialize (H F w). injection H as _ Hd _.
  unfold other_files. now rewrite Hd.
Qed.

Lemma keeps_disk_objects_other {A} path (m : M A) :
  keeps disk_objects m -> keeps (other_files path) m.
Proof.
  intros H F w. specialize (H F w). injection H as Hd _.
  unfold other_files. now rewrite Hd.
Qed.

Section Other_files.
Variable filename : string.

Ltac other_prim :=
  intros F w; unfold other_files, NewLocalFileWriter, NewParquetWriter, pw_Write,
    pw_WriteStop, fw_Close, config_LoadDefaultConfig, os_Open, s3_PutObject;
  cbv zeta; repeat case_match; simpl; subst; rewrite ?delete_insert_eq; reflexivity.

Lemma NewLocalFileWriter_other :
  keeps (other_files filename) (NewLocalFileWriter filename).
Proof. other_prim. Qed.

Lemma NewParquetWriter_other cols :
  keeps (other_files filename) (NewParquetWriter filename cols).
Proof. other_prim. Qed.

Lemma pw_Write_other pw row :
  pw_path pw = filename -> keeps (other_files filename) (pw_Write pw row).
Proof. intros <-. other_prim. Qed.

Lemma pw_WriteStop_other pw :
  pw_path pw = filename -> keeps (other_files filename) (pw_WriteStop pw).
Proof. intros <-. other_prim. Qed.

Lemma fw_Close_other fw : keeps (other_files filename) (fw_Close fw).
Proof. other_prim. Qed.

Lemma config_other : keeps (other_files filename) config_LoadDefaultConfig.
Proof. other_prim. Qed.

Lemma os_Open_other path : keeps (other_files filename) (os_Open path).
Proof. other_prim. Qed.

Lemma s3_PutObject_other bucket key file :
  keeps (other_files filename) (s3_PutObject bucket key file).
Proof. other_prim. Qed.

Lemma db_Exec_other t c : keeps (other_files filename) (db_Exec t c).
Proof. apply keeps_disk_objects_other. frame. Qed.

Lemma delete_tables_other ts c :
  keeps (other_files filename) (Multi.delete_tables ts c).
Proof. apply keeps_disk_objects_other. frame. Qed.

Lemma multi_write_records_other pw i recs :
  pw_path pw = filename ->
  keeps (other_files filename) (Multi.write_records pw filename i recs).
Proof.
  intros Hp. pose proof (pw_Write_other pw). pose proof (pw_WriteStop_other pw Hp).
  pose proof fw_Close_other.
  revert i. induction recs; intros; simpl; frame.
Qed.

Lemma single_write_records_other pw i recs :
  pw_path pw = filename ->
  keeps (other_files filename) (Single.write_records pw filename i recs).
Proof.
  intros Hp. pose proof (pw_Write_other pw). pose proof (pw_WriteStop_other pw Hp).
  pose proof fw_Close_other.
  revert i. induction recs; intros; simpl; frame.
Qed.

Lemma multi_writeParquetFile_other recs :
  keeps (other_files filename) (Multi.writeParquetFile recs filename).
Proof.
  pose proof NewLocalFileWriter_other. pose proof NewParquetWriter_other.
  pose proof fw_Close_other.
  unfold Multi.writeParquetFile.
  apply (keeps_bind_res (other_files filename)); [frame|]. intros fw F w Hfw.
  apply NewLocalFileWriter_handle in Hfw as ->.
  generalize (world (wrap "creating file writer" (NewLocalFileWriter filename) F w)).
  generalize F. clear F w.
  apply (keeps_bind_res (other_files filename)); [frame|]. intros pw F w Hpw.
  apply NewParquetWriter_path in Hpw.
  assert (pw_path (set_CompressionType SNAPPY pw) = filename) as Hp by exact Hpw.
  pose proof (multi_write_records_other (set_CompressionType SNAPPY pw)).
  pose proof (pw_WriteStop_other _ Hp).
  cbv zeta.
  match goal with
  | |- other_files _ (world (?m F ?w')) = _ =>
      generalize w'; generalize F; change (keeps (other_files filename) m)
  end.
  frame.
Qed.

Lemma single_writeParquetFile_other recs :
  keeps (other_files filename) (Single.writeParquetFile recs filename).
Proof.
  pose proof NewLocalFileWriter_other. pose proof NewParquetWriter_other.
  pose proof fw_Close_other.
  unfold Single.writeParquetFile.
  apply (keeps_bind_res (other_files filename)); [frame|]. intros fw F w Hfw.
  apply NewLocalFileWriter_handle in Hfw as ->.
  generalize (world (wrap "creating file writer" (NewLocalFileWriter filename) F w)).
  generalize F. clear F w.
  apply (keeps_bind_res (other_files filename)); [frame|]. intros pw F w Hpw.
  apply NewParquetWriter_path in Hpw.
  assert (pw_path (set_CompressionType SNAPPY pw) = filename) as Hp by exact Hpw.
  pose proof (single_write_records_other (set_CompressionType SNAPPY pw)).
  pose proof (pw_WriteStop_other _ Hp).
  cbv zeta.
  match goal with
  | |- other_files _ (world (?m F ?w')) = _ =>
      generalize w'; generalize F; change (keeps (other_files filename) m)
  end.
  frame.
Qed.
End Other_files.

Lemma multi_archive_other x : keeps (other_files parquetFile) (Multi.archive x).
Proof.
  pose proof (multi_writeParquetFile_other parquetFile).
  pose proof (config_other parquetFile). pose proof (os_Open_other parquetFile).
  pose proof (s3_PutObject_other parquetFile).
  pose proof (delete_tables_other parquetFile).
  unfold Multi.archive. destruct (Multi.x_records x); frame.
Qed.

Lemma single_archive_other x : keeps (other_files parquetFile) (Single.archive x).
Proof.
  pose proof (single_writeParquetFile_other parquetFile).
  pose proof (config_other parquetFile). pose proof (os_Open_other parquetFile).
  pose proof (s3_PutObject_other parquetFile). pose proof (db_Exec_other parquetFile).
  unfold Single.archive.
  destruct (Single.recordCount (Single.x_scanned x) =? 0); frame.
Qed.

Lemma run_other_files p : keeps (other_files parquetFile) (run_of p).
Proof.
  destruct p; simpl; unfold Multi.run, Single.run;
    apply keeps_bind.
  - apply keeps_stores_other. intros F w. apply multi_extract_stores.
  - apply multi_archive_other.
  - apply keeps_stores_other. intros F w. apply single_extract_stores.
  - apply single_archive_other.
Qed.

(** X5. The only local file a run creates, truncates or writes is
    [/tmp/archive.parquet]: every other file of the disk is, after the run,
    exactly as it was before, however the run ends. *)
Theorem run_writes_no_other_local_file p F w :
  delete "/tmp/archive.parquet" (disk (world (run_of p F w)))
  = delete "/tmp/archive.parquet" (disk w)
  /\ (forall path, path <> "/tmp/archive.parquet" ->
        disk (world (run_of p F w)) !! path = disk w !! path).
Proof.
  pose proof (run_other_files p F w) as H. unfold other_files in H.
  split; [exact H|]. intros path Hp.
  apply (f_equal (fun d => d !! path)) in H.
  now rewrite !lookup_delete_ne in H by (intros Heq; apply Hp; now rewrite <- Heq).
Qed.
(** ** Failures *)

(** Whether an external call reported an error. *)
Definition failed (ev : Event) : bool :=
  match ev with
  | EvSqlOpen _ ok | EvPing ok | EvQuery _ _ _ ok | EvCreate _ ok
  | EvNewWriter _ ok | EvWrite _ _ ok | EvWriteStop _ ok | EvClose _ ok
  | EvLoadConfig ok | EvOpenFile _ ok | EvPutObject _ _ _ ok
  | EvDelete _ _ ok => negb ok
  | EvScanError _ | EvRowsError _ => true
  end.

(** The calls [writeParquetFile] makes on its way out after an error:
    [pw.WriteStop()] and [fw.Close()], whose own errors are dropped. *)
Definition cleanup_call (ev : Event) : Prop :=
  match ev with
  | EvWriteStop _ _ | EvClose _ _ => True
  | _ => False
  end.

(** [fail_stops m]: a failed call of [m] makes [m] return an error, and of
    the calls the embedding records only those two clean-up calls follow
    it. *)
Definition fail_stops {A} (m : M A) : Prop :=
  forall F w pre ev post,
    events (m F w) = pre ++ ev :: post -> failed ev = true ->
    is_ok (res (m F w)) = false /\ Forall cleanup_call post.

Lemma app_eq_middle {A} (l1 l2 pre post : list A) x :
  l1 ++ l2 = pre ++ x :: post ->
  (exists post1, l1 = pre ++ x :: post1 /\ post = post1 ++ l2)
  \/ (exists pre2, pre = l1 ++ pre2 /\ l2 = pre2 ++ x :: post).
Proof.
  revert pre. induction l1 as [|a l1 IH]; intros pre Heq; simpl in *.
  - right. now exists pre.
  - destruct pre as [|b pre]; simpl in *.
    + injection Heq as -> <-. left. now exists l1.
    + injection Heq as -> Heq. destruct (IH _ Heq) as [(p1 & -> & ->)|(p2 & -> & ->)].
      * left. now exists p1.
      * right. now exists p2.
Qed.

Section Fail_stops.
Context {A B : Type}.

Lemma fail_stops_ret (a : A) : fail_stops (mret a).
Proof. intros F w [|? ?] ev post Heq; discriminate. Qed.

Lemma fail_stops_bind (m : M A) (k : A -> M B) :
  fail_stops m -> (forall a, fail_stops (k a)) -> fail_stops (m ≫= k).
Proof.
  intros Hm Hk F w pre ev post. specialize (Hm F w). unfold mbind, M_bind.
  destruct (m F w) as [[a|e] w1 evs1]; simpl in *; [|apply Hm].
  specialize (Hk a F w1). destruct (k a F w1) as [r w2 evs2]. simpl in *.
  intros Heq Hf. apply app_eq_middle in Heq as [(p1 & -> & ->)|(p2 & -> & ->)].
  - destruct (Hm _ _ _ eq_refl Hf) as [? _]. discriminate.
  - exact (Hk _ _ _ eq_refl Hf).
Qed.

Lemma fail_stops_wrap ctx (m : M A) : fail_stops m -> fail_stops (wrap ctx m).
Proof.
  intros Hm F w pre ev post. specialize (Hm F w pre ev post). unfold wrap.
  destruct (m F w) as [[a|e] w1 evs1]; simpl in *; exact Hm.
Qed.

Lemma fail_stops_wrap_cleanup ctx c (m : M A) :
  fail_stops m -> emits cleanup_call c -> fail_stops (wrap_cleanup ctx c m).
Proof.
  intros Hm Hc F w pre ev post. specialize (Hm F w). unfold wrap_cleanup.
  destruct (m F w) as [[a|e] w1 evs1]; simpl in *; [apply Hm|].
  specialize (Hc F w1). destruct (c F w1) as [r w2 evs2]. simpl in *.
  intros Heq Hf. split; [reflexivity|].
  apply app_eq_middle in Heq as [(p1 & -> & ->)|(p2 & -> & ->)].
  - apply Forall_app. split; [|exact Hc]. exact (proj2 (Hm _ _ _ eq_refl Hf)).
  - apply Forall_app in Hc as [_ Hc]. now inversion Hc.
Qed.

(** A call without external effect whose error is dropped. *)
Lemma fail_stops_ignore_silent (m : M A) :
  emits (fun _ => False) m -> fail_stops (ignore_error m).
Proof.
  intros Hm F w pre ev post. specialize (Hm F w). unfold ignore_error.
  destruct (m F w) as [r w1 evs1]. simpl in *. intros ->.
  apply Forall_app in Hm as [_ Hm]. now inversion Hm.
Qed.
End Fail_stops.

Lemma nil_split {A} (ev : A) pre post : [] = pre ++ ev :: post -> False.
Proof. now destruct pre. Qed.

Lemma singleton_split {A} (x ev : A) pre post :
  [x] = pre ++ ev :: post -> pre = [] /\ ev = x /\ post = [].
Proof.
  destruct pre as [|y pre]; simpl.
  - now intros [= -> <-].
  - intros [= _ H]. now apply nil_split in H.
Qed.

(** Decides the judgement for a library call: it makes at most one call. *)
Ltac stops_prim :=
  let Heq := fresh "Heq" in
  let Hf := fresh "Hf" in
  intros ? ? ? ? ?; cbv beta delta [os_LookupEnv time_Now os_Open sql_Open
    db_Ping db_Query rows_Scan rows_Err db_Exec RowsAffected NewLocalFileWriter
    NewParquetWriter pw_Write pw_WriteStop fw_Close config_LoadDefaultConfig
    s3_PutObject fail mret M_ret] zeta;
  repeat case_match; simpl; intros Heq Hf;
  first [ apply nil_split in Heq; contradiction
        | apply singleton_split in Heq as (-> & -> & ->); simpl in *;
          first [ discriminate | split; [reflexivity | constructor] ] ].

(** Splits the judgement along the structure of the program; the lemmas on
    the functions called are taken from the context. *)
Ltac stops :=
  repeat (intros; cbv zeta;
          first [ solve [auto 2 with nocore]
                | apply fail_stops_bind
                | apply fail_stops_wrap
                | apply fail_stops_wrap_cleanup; [|solve [frame]]
                | apply fail_stops_ignore_silent; solve [frame]
                | apply fail_stops_ret ]);
  try solve [stops_prim].

Lemma getEnv_stops key fallback : fail_stops (getEnv key fallback).
Proof. unfold getEnv. stops. destruct a; stops. Qed.

Lemma multi_scan_rows_stops t cur acc : fail_stops (Multi.scan_rows t cur acc).
Proof. revert acc. induction cur; intros; simpl; stops. Qed.

Lemma single_scan_rows_stops t cur s : fail_stops (Single.scan_rows t cur s).
Proof. revert s. induction cur; intros; simpl; stops. Qed.

Lemma processTable_stops t c l : fail_stops (Multi.processTable t c l).
Proof. pose proof multi_scan_rows_stops. unfold Multi.processTable. stops. Qed.

Lemma process_tables_stops ts c l acc : fail_stops (Multi.process_tables ts c l acc).
Proof.
  pose proof processTable_stops.
  revert acc. induction ts; intros; simpl; stops.
Qed.

Lemma multi_write_records_stops pw fw i recs :
  fail_stops (Multi.write_records pw fw i recs).
Proof. revert i. induction recs; intros; simpl; stops. Qed.

Lemma single_write_records_stops pw fw i recs :
  fail_stops (Single.write_records pw fw i recs).
Proof. revert i. induction recs; intros; simpl; stops. Qed.

Lemma multi_writeParquetFile_stops recs filename :
  fail_stops (Multi.writeParquetFile recs filename).
Proof. pose proof multi_write_records_stops. unfold Multi.writeParquetFile. stops. Qed.

Lemma single_writeParquetFile_stops recs filename :
  fail_stops (Single.writeParquetFile recs filename).
Proof. pose proof single_write_records_stops. unfold Single.writeParquetFile. stops. Qed.

Lemma deleteArchivedRecords_stops t c : fail_stops (Multi.deleteArchivedRecords t c).
Proof. unfold Multi.deleteArchivedRecords. stops. Qed.

Lemma delete_tables_stops ts c : fail_stops (Multi.delete_tables ts c).
Proof. pose proof deleteArchivedRecords_stops. induction ts; simpl; stops. Qed.

Lemma run_fail_stops p : fail_stops (run_of p).
Proof.
  pose proof getEnv_stops. pose proof process_tables_stops.
  pose proof single_scan_rows_stops.
  pose proof multi_writeParquetFile_stops. pose proof single_writeParquetFile_stops.
  pose proof delete_tables_stops.
  destruct p; simpl; unfold Multi.run, Single.run; apply fail_stops_bind.
  - unfold Multi.extract. stops.
  - intros x. unfold Multi.archive. destruct (Multi.x_records x); stops.
  - unfold Single.extract. stops.
  - intros x. unfold Single.archive.
    destruct (Single.recordCount (Single.x_scanned x) =? 0); stops.
Qed.

(** A write fault on the second record. *)
Definition second_write_down : Faults :=
  mkFaults false false (fun _ => QueryOk) false false (fun n => Nat.eqb n 1)
           false false false false false (fun _ => ExecOk) 1000000.

(** A call that takes the pipeline a step further: everything [run] and the
    functions it calls do apart from stopping the writer and closing what
    was opened. *)
Definition proceeds (ev : Event) : bool :=
  match ev with
  | EvSqlOpen _ _ | EvPing _ | EvQuery _ _ _ _ | EvScanError _ | EvRowsError _
  | EvCreate _ _ | EvNewWriter _ _ | EvWrite _ _ _
  | EvLoadConfig _ | EvOpenFile _ _ | EvPutObject _ _ _ _
  | EvDelete _ _ _ => true
  | EvWriteStop _ _ | EvClose _ _ => false
  end.

Lemma cleanup_call_stays ev : cleanup_call ev -> proceeds ev = false.
Proof. destruct ev; simpl; tauto. Qed.

(** X6. In every run, of either program: when one of the recorded external
    calls reports an error, [run] returns an error and the process exits with
    status 1, and the run goes no further: no connection call, no query or
    scan, no creation of the file or of the writer, no [Write] of a record,
    no configuration load, no opening of the file, no upload and no delete
    statement follows the failed call.  (The deferred [Close] calls, whose
    errors the program drops, are not among the recorded calls.) *)
Theorem first_failed_call_ends_the_run p F w pre ev post :
  events (run_of p F w) = pre ++ ev :: post ->
  failed ev = true ->
  is_ok (res (run_of p F w)) = false
  /\ main_of p F w = 1
  /\ Forall (fun later => proceeds later = false) post.
Proof.
  intros Heq Hf. rewrite main_of_exit.
  destruct (run_fail_stops p F w pre ev post Heq Hf) as [-> Hpost].
  split; [reflexivity|]. split; [reflexivity|].
  eapply Forall_impl; [exact Hpost | exact cleanup_call_stays].
Qed.

Lemma first_failed_call_witness :
  let evs := events (run_of MultiTable second_write_down sample_world) in
  let ev := EvWrite "/tmp/archive.parquet"
              [PInt64 1; PInt64 1705312800000000000; PByteArray "dev1"; PDouble 42;
               PByteArray "a"]
              false in
  evs = take 7 evs ++ ev :: drop 8 evs
  /\ is_ok (res (run_of MultiTable second_write_down sample_world)) = false
  /\ main_of MultiTable second_write_down sample_world = 1
  /\ Forall (fun later => proceeds later = false) (drop 8 evs).
Proof.
  cbv zeta.
  assert (events (run_of MultiTable second_write_down sample_world)
          = take 7 (events (run_of MultiTable second_write_down sample_world))
            ++ EvWrite "/tmp/archive.parquet"
                 [PInt64 1; PInt64 1705312800000000000; PByteArray "dev1"; PDouble 42;
                  PByteArray "a"]
                 false
               :: drop 8 (events (run_of MultiTable second_write_down sample_world)))
    as H by (vm_compute; reflexivity).
  split; [exact H|].
  exact (first_failed_call_ends_the_run MultiTable second_write_down sample_world
           _ _ _ H eq_refl).
Defined.

(** [blames m]: when the driver can report row counts, an error of [m] comes
    with a failed external call. *)
Definition counts_available (F : Faults) : Prop :=
  forall t, exec_fault F t <> RowsAffectedFails.

Definition blames {A} (m : M A) : Prop :=
  forall F w, counts_available F ->
    is_ok (res (m F w)) = false ->
    Exists (fun ev => failed ev = true) (events (m F w)).

Section Blames.
Context {A B : Type}.

Lemma blames_ret (a : A) : blames (mret a).
Proof. intros F w _ H. discriminate. Qed.

Lemma blames_bind (m : M A) (k : A -> M B) :
  blames m -> (forall a, blames (k a)) -> blames (m ≫= k).
Proof.
  intros Hm Hk F w HF. specialize (Hm F w HF). unfold mbind, M_bind.
  destruct (m F w) as [[a|e] w1 evs1]; simpl in *; [|exact Hm].
  specialize (Hk a F w1 HF). destruct (k a F w1) as [r w2 evs2]. simpl in *.
  intros H. apply Exists_app. right. auto.
Qed.

Lemma blames_wrap ctx (m : M A) : blames m -> blames (wrap ctx m).
Proof.
  intros Hm F w HF. specialize (Hm F w HF). unfold wrap.
  destruct (m F w) as [[a|e] w1 evs1]; simpl in *; exact Hm.
Qed.

Lemma blames_wrap_cleanup ctx c (m : M A) :
  blames m -> blames (wrap_cleanup ctx c m).
Proof.
  intros Hm F w HF. specialize (Hm F w HF). unfold wrap_cleanup.
  destruct (m F w) as [[a|e] w1 evs1]; simpl in *; [exact Hm|].
  destruct (c F w1) as [r w2 evs2]. simpl. intros _.
  apply Exists_app. left. auto.
Qed.

Lemma blames_ignore_error (m : M A) : blames (ignore_error m).
Proof. intros F w _. unfold ignore_error. now destruct (m F w). Qed.
End Blames.

Ltac blames_prim :=
  intros ? ? ?; cbv beta delta [os_LookupEnv time_Now os_Open sql_Open
    db_Ping db_Query rows_Scan rows_Err NewLocalFileWriter
    NewParquetWriter pw_Write pw_WriteStop fw_Close config_LoadDefaultConfig
    s3_PutObject mret M_ret] zeta;
  repeat case_match; simpl; intros ?; first [discriminate | now constructor].

Ltac blame :=
  repeat (intros; cbv zeta;
          first [ solve [auto 2 with nocore]
                | apply blames_bind
                | apply blames_wrap
                | apply blames_wrap_cleanup
                | apply blames_ignore_error
                | apply blames_ret ]);
  try solve [blames_prim].

Lemma getEnv_blames key fallback : blames (getEnv key fallback).
Proof. unfold getEnv. blame. Qed.

Lemma multi_scan_rows_blames t cur acc : blames (Multi.scan_rows t cur acc).
Proof. revert acc. induction cur; intros; simpl; blame. Qed.

Lemma single_scan_rows_blames t cur s : blames (Single.scan_rows t cur s).
Proof. revert s. induction cur; intros; simpl; blame. Qed.

Lemma processTable_blames t c l : blames (Multi.processTable t c l).
Proof. pose proof multi_scan_rows_blames. unfold Multi.processTable. blame. Qed.

Lemma process_tables_blames ts c l acc : blames (Multi.process_tables ts c l acc).
Proof.
  pose proof processTable_blames.
  revert acc. induction ts; intros; simpl; blame.
Qed.

Lemma multi_write_records_blames pw fw i recs :
  blames (Multi.write_records pw fw i recs).
Proof. revert i. induction recs; intros; simpl; blame. Qed.

Lemma single_write_records_blames pw fw i recs :
  blames (Single.write_records pw fw i recs).
Proof. revert i. induction recs; intros; simpl; blame. Qed.

Lemma multi_writeParquetFile_blames recs filename :
  blames (Multi.writeParquetFile recs filename).
Proof. pose proof multi_write_records_blames. unfold Multi.writeParquetFile. blame. Qed.

Lemma single_writeParquetFile_blames recs filename :
  blames (Single.writeParquetFile recs filename).
Proof. pose proof single_write_records_blames. unfold Single.writeParquetFile. blame. Qed.

(** The one place where an error comes without a failed call: the row count
    of a statement that ran. *)
Lemma deleteArchivedRecords_blames t c : blames (Multi.deleteArchivedRecords t c).
Proof.
  intros F w HF. specialize (HF t). unfold Multi.deleteArchivedRecords, db_Exec.
  mrun. destruct (exec_fault F t); table_cases w t as rows Hdb; mrun;
    intros ?; first [discriminate | congruence | now constructor].
Qed.

Lemma delete_tables_blames ts c : blames (Multi.delete_tables ts c).
Proof. pose proof deleteArchivedRecords_blames. induction ts; simpl; blame. Qed.

Lemma db_Exec_blames t c : blames (db_Exec t c).
Proof.
  intros F w _. unfold db_Exec.
  destruct (exec_fault F t); table_cases w t as rows Hdb; simpl;
    intros ?; first [discriminate | now constructor].
Qed.

(** X7. A run, of either program, does not fail on its own: when the driver
    can report the row count of every statement, a run that returns an error
    made an external call that reported one.  Put the other way round, a run
    in which every external call succeeds returns [nil]. *)
Theorem error_return_has_a_failed_call p F w :
  counts_available F ->
  is_ok (res (run_of p F w)) = false ->
  Exists (fun ev => failed ev = true) (events (run_of p F w)).
Proof.
  revert F w. change (blames (run_of p)).
  pose proof getEnv_blames. pose proof process_tables_blames.
  pose proof single_scan_rows_blames.
  pose proof multi_writeParquetFile_blames. pose proof single_writeParquetFile_blames.
  pose proof delete_tables_blames. pose proof db_Exec_blames.
  destruct p; simpl; unfold Multi.run, Single.run; apply blames_bind.
  - unfold Multi.extract. blame.
  - intros x. unfold Multi.archive. destruct (Multi.x_records x); blame.
  - unfold Single.extract. blame.
  - intros x. unfold Single.archive.
    destruct (Single.recordCount (Single.x_scanned x) =? 0); blame.
Qed.

Lemma error_return_witness :
  counts_available upload_down
  /\ is_ok (res (run_of SingleTable upload_down sample_world)) = false
  /\ Exists (fun ev => failed ev = true)
       (events (run_of SingleTable upload_down sample_world)).
Proof.
  assert (counts_available upload_down) as HF by (intros t; discriminate).
  assert (is_ok (res (run_of SingleTable upload_down sample_world)) = false) as Hr
    by (vm_compute; reflexivity).
  split; [exact HF|]. split; [exact Hr|].
  exact (error_return_has_a_failed_call SingleTable upload_down sample_world HF Hr).
Defined.

(** *** Failures before the upload *)

(** A failed call of the encoder, or a failed preparation of the upload
    (loading the AWS configuration, opening the encoded file). *)
Definition fails_before_upload (ev : Event) : bool :=
  match ev with
  | EvCreate _ ok | EvNewWriter _ ok | EvWrite _ _ ok | EvWriteStop _ ok
  | EvClose _ ok | EvLoadConfig ok | EvOpenFile _ ok => negb ok
  | _ => false
  end.

Lemma fails_before_upload_failed ev : fails_before_upload ev = true -> failed ev = true.
Proof. now destruct ev. Qed.

(** X8. In every run, of either program, in which a call of the encoder
    fails (creating the file, creating the writer, writing a record, finishing
    or closing the file), or loading the AWS configuration or opening the
    encoded file fails: [run] returns an error, the process exits with status
    1, nothing is uploaded, no delete statement is issued, and the database
    and the object store are left as they were. *)
Theorem failure_before_the_upload_leaves_the_sources_alone p F w ev :
  ev ∈ events (run_of p F w) ->
  fails_before_upload ev = true ->
  is_ok (res (run_of p F w)) = false
  /\ main_of p F w = 1
  /\ Forall (fun ev => is_put ev = false /\ is_delete ev = false)
       (events (run_of p F w))
  /\ database (world (run_of p F w)) = database w
  /\ objects (world (run_of p F w)) = objects w.
Proof.
  intros Hin Hf. rewrite main_of_exit.
  pose proof (fails_before_upload_failed _ Hf) as Hfailed.
  assert (forall l, Forall (extract_call (run_cutoff F w) 100) l ->
            Forall (fun ev => is_put ev = false /\ is_delete ev = false) l
            /\ Forall (fun ev => fails_before_upload ev = false) l) as Hq
    by (intros l H; split; (eapply Forall_impl; [exact H|]);
        intros [] Hc; simpl in *; tauto).
  assert (forall l, Forall (file_call parquetFile) l ->
            Forall (fun ev => is_put ev = false /\ is_delete ev = false) l) as He
    by (intros l H; eapply Forall_impl; [exact H|]; intros [] Hc; simpl in *; tauto).
  assert (forall qs e1 e2 tl,
            events (run_of p F w) = qs ++ (e1 ++ ev :: e2) ++ EvLoadConfig true :: tl ->
            False) as Hstop.
  { intros qs e1 e2 tl Hev.
    destruct (run_fail_stops p F w (qs ++ e1) ev (e2 ++ EvLoadConfig true :: tl))
      as [_ Hpost]; [rewrite Hev; now rewrite <- !app_assoc | exact Hfailed |].
    apply Forall_app in Hpost as [_ Hpost]. now inversion Hpost. }
  destruct (run_shape_holds p F w)
    as [_ _ Hcalls _|_ _ Hcalls _ _|qs enc tl _ _ Hev Hqs _ Henc Htl Hres Hdb
       |qs enc _ _ Hev Hqs _ Henc _ _ _
       |qs enc dels done rest _ _ Hev Hqs _ Henc Hdels _ _ _ _ _].
  - destruct (Hq _ Hcalls) as [_ Hn].
    pose proof (proj1 (Forall_forall _ _) Hn _ Hin). congruence.
  - destruct (Hq _ Hcalls) as [_ Hn].
    pose proof (proj1 (Forall_forall _ _) Hn _ Hin). congruence.
  - rewrite Hres. injection Hdb as Hdb Hobj. repeat split; auto.
    rewrite Hev, !Forall_app. split; [apply Hq, Hqs|]. split; [apply He, Henc|].
    destruct Htl as [-> | [-> | ->]]; repeat constructor.
  - exfalso. rewrite Hev in Hin. apply in_failed_upload_run in Hin.
    destruct Hin as [Hin | [Hin | [-> | [-> | ->]]]]; try discriminate.
    + destruct (Hq _ Hqs) as [_ Hn].
      pose proof (proj1 (Forall_forall _ _) Hn _ Hin). congruence.
    + apply list_elem_of_split in Hin as (e1 & e2 & ->). eapply Hstop, Hev.
  - exfalso. rewrite Hev in Hin. apply in_uploaded_run in Hin.
    destruct Hin as [Hin | [Hin | [-> | [-> | [-> | Hin]]]]]; try discriminate.
    + destruct (Hq _ Hqs) as [_ Hn].
      pose proof (proj1 (Forall_forall _ _) Hn _ Hin). congruence.
    + apply list_elem_of_split in Hin as (e1 & e2 & ->). eapply Hstop, Hev.
    + pose proof (proj1 (Forall_forall _ _) Hdels _ Hin) as Hc.
      destruct ev; simpl in *; try contradiction. discriminate.
Qed.

(** The file cannot be finished: [pw.WriteStop()] fails. *)
Definition stop_down : Faults :=
  mkFaults false false (fun _ => QueryOk) false false (fun _ => false)
           true false false false false (fun _ => ExecOk) 1000000.

Lemma failure_before_the_upload_witness :
  EvWriteStop "/tmp/archive.parquet" false
    ∈ events (run_of SingleTable stop_down sample_world)
  /\ is_ok (res (run_of SingleTable stop_down sample_world)) = false
  /\ main_of SingleTable stop_down sample_world = 1
  /\ Forall (fun ev => is_put ev = false /\ is_delete ev = false)
       (events (run_of SingleTable stop_down sample_world))
  /\ database (world (run_of SingleTable stop_down sample_world))
     = database sample_world
  /\ objects (world (run_of SingleTable stop_down sample_world))
     = objects sample_world.
Proof.
  assert (EvWriteStop "/tmp/archive.parquet" false
            ∈ events (run_of SingleTable stop_down sample_world)) as H
    by (vm_compute; repeat constructor).
  split; [exact H|].
  exact (failure_before_the_upload_leaves_the_sources_alone SingleTable stop_down
           sample_world _ H eq_refl).
Defined.

(** *** Failures of the connection *)

Definition ping_down : Faults :=
  mkFaults false true (fun _ => QueryOk) false false (fun _ => false)
           false false false false false (fun _ => ExecOk) 1000000.

(** A call that reads a source, writes the local file, prepares or makes the
    upload, or deletes: the calls of the pipeline once the connection is
    established. *)
Definition touches_data (ev : Event) : bool :=
  match ev with
  | EvSqlOpen _ _ | EvPing _ => false
  | EvQuery _ _ _ _ | EvScanError _ | EvRowsError _
  | EvCreate _ _ | EvNewWriter _ _ | EvWrite _ _ _ | EvWriteStop _ _ | EvClose _ _
  | EvLoadConfig _ | EvOpenFile _ _ | EvPutObject _ _ _ _
  | EvDelete _ _ _ => true
  end.

Definition is_ping (ev : Event) : bool :=
  match ev with EvPing _ => true | _ => false end.

(** X9. In every run, of either program, in which [sql.Open] or [db.Ping]
    returns an error: the first call of the run is [sql.Open] with the
    connection string of the configuration; [db.Ping] is called only if that
    succeeded; no query is sent, no file is written, nothing is uploaded and
    nothing is deleted; [run] returns an error, the process exits with status
    1 and database, disk and object store are left as they were. *)
Theorem connection_failure_stops_before_any_query p F w :
  open_fails F = true \/ ping_fails F = true ->
  (exists rest,
      events (run_of p F w)
      = EvSqlOpen (default "postgresql://localhost:5432/iot?sslmode=disable"
                     (environ w !! "PG_CONN_STRING")) (negb (open_fails F)) :: rest)
  /\ (open_fails F = true ->
      Forall (fun ev => is_ping ev = false) (events (run_of p F w)))
  /\ (open_fails F = false -> EvPing false ∈ events (run_of p F w))
  /\ Forall (fun ev => touches_data ev = false) (events (run_of p F w))
  /\ is_ok (res (run_of p F w)) = false
  /\ main_of p F w = 1
  /\ stores (world (run_of p F w)) = stores w.
Proof.
  intros Hdown. rewrite main_of_exit.
  destruct p; simpl; unfold Multi.run, Single.run, mbind, M_bind;
    rewrite ?multi_extract_eq, ?single_extract_start;
    destruct (open_fails F); simpl;
    try (repeat split; eauto; try discriminate; repeat constructor; fail);
    destruct (ping_fails F); simpl;
    try (repeat split; eauto; try discriminate; repeat constructor; fail);
    destruct Hdown; discriminate.
Qed.

Lemma connection_failure_witness :
  (open_fails ping_down = true \/ ping_fails ping_down = true)
  /\ EvPing false ∈ events (run_of MultiTable ping_down sample_world)
  /\ Forall (fun ev => touches_data ev = false)
       (events (run_of MultiTable ping_down sample_world))
  /\ is_ok (res (run_of MultiTable ping_down sample_world)) = false
  /\ main_of MultiTable ping_down sample_world = 1
  /\ stores (world (run_of MultiTable ping_down sample_world)) = stores sample_world.
Proof.
  assert (open_fails ping_down = true \/ ping_fails ping_down = true) as H
    by (right; reflexivity).
  split; [exact H|].
  split; [exact (proj1 (proj2 (proj2
            (connection_failure_stops_before_any_query MultiTable ping_down
               sample_world H))) eq_refl)|].
  exact (proj2 (proj2 (proj2
           (connection_failure_stops_before_any_query MultiTable ping_down
              sample_world H)))).
Defined.

(** ** The purger *)

(** X10. When [deleteArchivedRecords] returns a count, the delete statement
    ran on an existing table, the table now holds exactly its rows that are
    not older than the cutoff, every other table is as it was, and the count
    is the number of rows that were removed. *)
Theorem deleteArchivedRecords_counts_the_rows_removed t c F w n :
  res (Multi.deleteArchivedRecords t c F w) = Ok n ->
  exists rows,
    database w !! t = Some rows
    /\ database (world (Multi.deleteArchivedRecords t c F w))
       = <[t := sql_delete rows c]> (database w)
    /\ (forall r, r ∈ sql_delete rows c
                  <-> r ∈ rows /\ Before (row_timestamp r) c = false)
    /\ n = Z.of_nat (length rows) - Z.of_nat (length (sql_delete rows c))
    /\ events (Multi.deleteArchivedRecords t c F w) = [EvDelete t c true].
Proof.
  unfold Multi.deleteArchivedRecords, db_Exec. mrun.
  destruct (exec_fault F t); table_cases w t as rows Hdb; mrun;
    try discriminate.
  intros [= <-]. exists rows. split; [reflexivity|]. split; [reflexivity|].
  split; [intros r; apply sql_delete_elem|]. split; [|reflexivity].
  unfold sql_delete_count, sql_delete.
  pose proof (List.filter_length (older_than c) rows). lia.
Qed.

Lemma deleteArchivedRecords_count_witness :
  res (Multi.deleteArchivedRecords "a" (run_cutoff no_faults sample_world)
         no_faults sample_world) = Ok 2
  /\ exists rows,
       database sample_world !! "a" = Some rows
       /\ database (world (Multi.deleteArchivedRecords "a"
                             (run_cutoff no_faults sample_world) no_faults sample_world))
          = <["a" := sql_delete rows (run_cutoff no_faults sample_world)]>
              (database sample_world)
       /\ (forall r, r ∈ sql_delete rows (run_cutoff no_faults sample_world)
                     <-> r ∈ rows
                         /\ Before (row_timestamp r) (run_cutoff no_faults sample_world)
                            = false)
       /\ 2 = Z.of_nat (length rows)
              - Z.of_nat (length (sql_delete rows (run_cutoff no_faults sample_world)))
       /\ events (Multi.deleteArchivedRecords "a" (run_cutoff no_faults sample_world)
                    no_faults sample_world)
          = [EvDelete "a" (run_cutoff no_faults sample_world) true].
Proof.
  assert (res (Multi.deleteArchivedRecords "a" (run_cutoff no_faults sample_world)
                 no_faults sample_world) = Ok 2) as H by (vm_compute; reflexivity).
  split; [exact H|].
  exact (deleteArchivedRecords_counts_the_rows_removed "a" _ no_faults sample_world 2 H).
Defined.

(** The statement runs, the driver cannot tell how many rows it touched. *)
Definition count_down : Faults :=
  mkFaults false false (fun _ => QueryOk) false false (fun _ => false)
           false false false false false (fun _ => RowsAffectedFails) 1000000.

(** X11. An error of [deleteArchivedRecords] does not mean that nothing was
    deleted.  Either the statement itself failed and the database is as it
    was, or the statement ran — the rows older than the cutoff are gone — and
    only [RowsAffected] failed. *)
Theorem deleteArchivedRecords_may_fail_after_deleting t c F w :
  is_ok (res (Multi.deleteArchivedRecords t c F w)) = false ->
  (events (Multi.deleteArchivedRecords t c F w) = [EvDelete t c false]
   /\ database (world (Multi.deleteArchivedRecords t c F w)) = database w)
  \/ (events (Multi.deleteArchivedRecords t c F w) = [EvDelete t c true]
      /\ exec_fault F t = RowsAffectedFails
      /\ exists rows,
           database w !! t = Some rows
           /\ database (world (Multi.deleteArchivedRecords t c F w))
              = <[t := sql_delete rows c]> (database w)).
Proof.
  unfold Multi.deleteArchivedRecords, db_Exec. mrun.
  destruct (exec_fault F t); table_cases w t as rows Hdb; mrun;
    try discriminate; eauto 10.
Qed.

Lemma deleteArchivedRecords_failure_witness :
  is_ok (res (Multi.deleteArchivedRecords "a" (run_cutoff count_down sample_world)
                count_down sample_world)) = false
  /\ table_rows (world (Multi.deleteArchivedRecords "a"
                          (run_cutoff count_down sample_world) count_down sample_world))
       "a"
     = [mkRow 3 (Date 2024 10 1 0 0 0) "dev1" 44]
  /\ ((events (Multi.deleteArchivedRecords "a" (run_cutoff count_down sample_world)
                 count_down sample_world)
       = [EvDelete "a" (run_cutoff count_down sample_world) false]
       /\ database (world (Multi.deleteArchivedRecords "a"
                             (run_cutoff count_down sample_world) count_down
                             sample_world))
          = database sample_world)
      \/ (events (Multi.deleteArchivedRecords "a" (run_cutoff count_down sample_world)
                    count_down sample_world)
          = [EvDelete "a" (run_cutoff count_down sample_world) true]
          /\ exec_fault count_down "a" = RowsAffectedFails
          /\ exists rows,
               database sample_world !! "a" = Some rows
               /\ database (world (Multi.deleteArchivedRecords "a"
                                     (run_cutoff count_down sample_world) count_down
                                     sample_world))
                  = <["a" := sql_delete rows (run_cutoff count_down sample_world)]>
                      (database sample_world))).
Proof.
  assert (is_ok (res (Multi.deleteArchivedRecords "a"
                        (run_cutoff count_down sample_world) count_down sample_world))
          = false) as H by (vm_compute; reflexivity).
  split; [exact H|]. split; [vm_compute; reflexivity|].
  exact (deleteArchivedRecords_may_fail_after_deleting "a" _ count_down sample_world H).
Defined.

(** *** The order of the delete statements *)

(** The delete statements that ran, on the sources [done], in order. *)
Definition deletes_on (c : Time) (done : list string) : list Event :=
  (fun t => EvDelete t c true) <$> done.

(** Nothing, or the failed statement on the first source of [rest]. *)
Definition failed_delete (c : Time) (rest : list string) (tl : list Event) : Prop :=
  tl = [] \/ exists t rest', rest = t :: rest' /\ tl = [EvDelete t c false].

Lemma filter_deletes_on c done :
  List.filter is_delete (deletes_on c done) = deletes_on c done.
Proof. induction done as [|t done IH]; simpl; [reflexivity | now rewrite IH]. Qed.

Lemma filter_failed_delete c rest tl :
  failed_delete c rest tl -> List.filter is_delete tl = tl.
Proof. intros [-> | (t & rest' & _ & ->)]; reflexivity. Qed.

Lemma multi_delete_tables_trace ts c F w :
  let o := Multi.delete_tables ts c F w in
  exists done rest tl,
    ts = done ++ rest
    /\ events o = deletes_on c done ++ tl
    /\ failed_delete c rest tl
    /\ database (world o) = purge c done (database w)
    /\ (is_ok (res o) = true -> rest = []).
Proof.
  revert w. induction ts as [|t ts IH]; intros w; simpl.
  - exists [], [], []. mrun. repeat split; auto. now left.
  - mrun.
    destruct (multi_deleteArchivedRecords_cases t c F w) as [(Hr & Hw & He)|(Hs & Hw & He)].
    + destruct (Multi.deleteArchivedRecords t c F w) as [[n|e] w1 evs1];
        simpl in *; [discriminate|]. subst.
      exists [], (t :: ts), [EvDelete t c false]. simpl.
      repeat split; auto; try discriminate. right. eauto.
    + destruct (Multi.deleteArchivedRecords t c F w) as [[n|e] w1 evs1];
        simpl in *; subst.
      * specialize (IH (set_database (purge c [t] (database w)) (tick F w))).
        destruct (Multi.delete_tables ts c F _) as [r w2 evs2]. simpl in *.
        destruct IH as (done & rest & tl & -> & -> & Htl & Hdb & Hok).
        exists (t :: done), rest, tl. repeat split; auto.
      * exists [t], ts, []. simpl. repeat split; auto; try discriminate. now left.
Qed.

(** A run, as far as the purge is concerned: calls that delete nothing,
    then the delete statements on a prefix [done] of the sources, then at most
    one failed statement. *)
Lemma run_purge_trace p F w :
  let o := run_of p F w in
  let c := run_cutoff F w in
  exists quiet done rest tl,
    events o = quiet ++ deletes_on c done ++ tl
    /\ Forall (fun ev => is_delete ev = false) quiet
    /\ sources_of p w = done ++ rest
    /\ failed_delete c rest tl
    /\ database (world o) = purge c done (database w)
    /\ (is_ok (res o) = true -> done = [] \/ rest = [])
    /\ (p = SingleTable -> done <> [] -> is_ok (res o) = true).
Proof.
  cbv zeta.
  assert (forall l, Forall (extract_call (run_cutoff F w) 100) l ->
            Forall (fun ev => is_delete ev = false) l) as Hq
    by (intros l H; eapply Forall_impl; [exact H|]; intros [] Hc; simpl in *; tauto).
  assert (forall l, Forall (file_call parquetFile) l ->
            Forall (fun ev => is_delete ev = false) l) as He
    by (intros l H; eapply Forall_impl; [exact H|]; intros [] Hc; simpl in *; tauto).
  assert (forall tl, before_upload tl -> Forall (fun ev => is_delete ev = false) tl) as Hb
    by (intros tl [-> | [-> | ->]]; repeat constructor).
  assert (forall (r : result unit) (w' : World) (evs : list Event),
            Forall (fun ev => is_delete ev = false) evs ->
            database w' = database w ->
            exists quiet done rest tl,
              evs = quiet ++ deletes_on (run_cutoff F w) done ++ tl
              /\ Forall (fun ev => is_delete ev = false) quiet
              /\ sources_of p w = done ++ rest
              /\ failed_delete (run_cutoff F w) rest tl
              /\ database w' = purge (run_cutoff F w) done (database w)
              /\ (is_ok r = true -> done = [] \/ rest = [])
              /\ (p = SingleTable -> done <> [] -> is_ok r = true)) as Hquiet.
  { intros r w' evs Hall Hdb. exists evs, [], (sources_of p w), [].
    simpl. rewrite app_nil_r.
    split; [reflexivity|]. split; [exact Hall|]. split; [reflexivity|].
    split; [now left|]. split; [exact Hdb|].
    split; [auto | intros _ H; now destruct H]. }
  destruct p; simpl; unfold Multi.run, Single.run, mbind, M_bind.
  - pose proof (multi_extract_ok F w) as Hok.
    pose proof (multi_extract_stores F w) as Hst.
    pose proof (multi_extract_calls F w) as Hca.
    destruct (Multi.extract F w) as [[x|e] w1 evs1]; simpl in *.
    2:{ injection Hst as Hdb _ _. apply (Hquiet (Fail e) w1 evs1); auto. }
    destruct (Hok _ eq_refl) as (Hx & _ & _). injection Hst as Hdb _ _.
    destruct (Multi.x_records x) as [|first rest] eqn:Hrecs.
    { unfold Multi.archive. rewrite Hrecs. mrun. rewrite app_nil_r.
      apply (Hquiet (Ok tt) w1 evs1); auto. }
    assert (Multi.x_cutoff x = run_cutoff F w) as Hcu by now rewrite Hx.
    assert (Multi.x_tables x = configured_tables w) as Hta by now rewrite Hx.
    destruct (multi_archive_cases x first rest F w1 Hrecs)
      as (enc & Henc & [(tl & Hr & Hev & Htl & Hk)
                       |[(Hr & Hev & Hk & Hd)|(w5 & Hw5 & Hr & Hdd & Hev & Hd & Ho)]]);
      cbv zeta in *;
      destruct (Multi.archive x F w1) as [r w2 evs2]; simpl in *.
    + injection Hk as Hk _. apply (Hquiet r w2 (evs1 ++ evs2)); [|congruence].
      rewrite Hev, !Forall_app. auto.
    + injection Hk as Hk _. apply (Hquiet r w2 (evs1 ++ evs2)); [|congruence].
      rewrite Hev, !Forall_app. repeat split; auto.
    + destruct (multi_delete_tables_trace (Multi.x_tables x) (Multi.x_cutoff x) F w5)
        as (done & rst & tl & Hsplit & Htr & Htl & Hpdb & Hpok).
      cbv zeta in *. rewrite Hcu in *.
      exists (evs1 ++ enc ++ [EvLoadConfig true; EvOpenFile parquetFile true;
                              EvPutObject (Multi.x_bucket x)
                                (Multi.s3Key (Multi.latest first rest))
                                (multi_encoded (Multi.x_records x)) true]),
        done, rst, tl.
      split; [rewrite Hev, Htr; now rewrite <- !app_assoc|].
      split; [rewrite !Forall_app; repeat split; auto; repeat constructor|].
      split; [now rewrite <- Hta|]. split; [exact Htl|].
      split; [rewrite Hdd, Hpdb; congruence|].
      split; [intros H; right; apply Hpok; now rewrite <- Hr | discriminate].
  - pose proof (single_extract_ok F w) as Hok.
    pose proof (single_extract_stores F w) as Hst.
    pose proof (single_extract_calls F w) as Hca.
    destruct (Single.extract F w) as [[x|e] w1 evs1]; simpl in *.
    2:{ injection Hst as Hdb _ _. apply (Hquiet (Fail e) w1 evs1); auto. }
    destruct (Hok _ eq_refl) as (Hx & _ & _). injection Hst as Hdb _ _.
    destruct (Z.eq_dec (Single.recordCount (Single.x_scanned x)) 0) as [Hz|Hne].
    { unfold Single.archive. rewrite Hz. change (0 =? 0) with true. mrun.
      rewrite app_nil_r.
      apply (Hquiet (Ok tt) w1 evs1); auto. }
    assert (Single.x_cutoff x = run_cutoff F w) as Hcu by now rewrite Hx.
    assert (Single.x_table x = single_table w) as Hta by now rewrite Hx.
    destruct (single_archive_cases x F w1 Hne)
      as (enc & Henc & [(tl & Hr & Hev & Htl & Hk)
                       |[(Hr & Hev & Hk & Hd)|(w5 & Hw5 & Hr & Hdd & Hev & Hd & Ho)]]);
      cbv zeta in *;
      destruct (Single.archive x F w1) as [r w2 evs2]; simpl in *.
    + injection Hk as Hk _. apply (Hquiet r w2 (evs1 ++ evs2)); [|congruence].
      rewrite Hev, !Forall_app. auto.
    + injection Hk as Hk _. apply (Hquiet r w2 (evs1 ++ evs2)); [|congruence].
      rewrite Hev, !Forall_app. repeat split; auto.
    + set (quiet := evs1 ++ enc ++ [EvLoadConfig true; EvOpenFile parquetFile true;
                              EvPutObject (Single.x_bucket x)
                                (Single.s3Key (Single.lastTimestamp (Single.x_scanned x))
                                   (Single.x_table x))
                                (single_encoded (Single.records (Single.x_scanned x)))
                                true]).
      assert (Forall (fun ev => is_delete ev = false) quiet) as Hquiet'
        by (unfold quiet; rewrite !Forall_app; repeat split; auto; repeat constructor).
      destruct (single_purge_cases x F w5) as [(Hpr & Hpw & Hpe)|(Hpr & Hps & Hpw & Hpe)];
        cbv zeta in *.
      * exists quiet, [], [single_table w], [EvDelete (single_table w) (run_cutoff F w) false].
        split; [rewrite Hev, Hpe; unfold quiet; rewrite ?Hcu, ?Hta; simpl;
                now rewrite <- !app_assoc|].
        split; [exact Hquiet'|]. split; [reflexivity|].
        split; [right; eauto|].
        split; [rewrite Hdd, Hpw; simpl; congruence|].
        split; [auto | intros _ H; now destruct H].
      * exists quiet, [single_table w], [], [].
        split; [rewrite Hev, Hpe; unfold quiet; rewrite ?Hcu, ?Hta; simpl;
                now rewrite <- !app_assoc|].
        split; [exact Hquiet'|]. split; [reflexivity|].
        split; [now left|].
        split; [rewrite Hdd, Hpw; simpl; rewrite Hcu, Hta; congruence|].
        split; [auto | intros _ _; congruence].
Qed.

(** X12. The delete statements of a run, of either program, follow the
    configured sources in order, one statement per source, and stop at the
    first statement that fails: the statements that ran cover a prefix [done]
    of the sources, at most one failed statement follows, on the next source.
    After the run a source of [done] holds exactly its rows that are not older
    than the cutoff, and every other table holds all the rows it held. *)
Theorem purge_stops_at_the_first_failed_delete p F w :
  let o := run_of p F w in
  let c := run_cutoff F w in
  exists done rest tl,
    sources_of p w = done ++ rest
    /\ List.filter is_delete (events o) = ((fun t => EvDelete t c true) <$> done) ++ tl
    /\ (tl = [] \/ exists t rest', rest = t :: rest' /\ tl = [EvDelete t c false])
    /\ (forall t, t ∈ done -> table_rows (world o) t = sql_delete (table_rows w t) c)
    /\ (forall t, t ∉ done -> table_rows (world o) t = table_rows w t).
Proof.
  cbv zeta.
  destruct (run_purge_trace p F w)
    as (quiet & done & rest & tl & Hev & Hq & Hsrc & Htl & Hdb & _ & _).
  cbv zeta in *. exists done, rest, tl.
  split; [exact Hsrc|].
  split.
  { rewrite Hev, !List.filter_app, (filter_none _ _ Hq), filter_deletes_on,
      (filter_failed_delete _ _ _ Htl). reflexivity. }
  split; [exact Htl|].
  split; intros t Ht; rewrite (table_rows_purge _ _ _ _ t Hdb).
  - now rewrite decide_True.
  - now rewrite decide_False.
Qed.

(** X13. In the single-table program the row count of the delete statement
    is read and its error dropped: once the statement ran, [run] returns [nil]
    and the process exits with status 0, whether or not [RowsAffected] could
    report the count. *)
Theorem single_table_run_succeeds_once_the_delete_ran F w t c :
  EvDelete t c true ∈ events (Single.run F w) ->
  res (Single.run F w) = Ok tt /\ Single.main F w = 0.
Proof.
  intros Hin.
  destruct (run_purge_trace SingleTable F w)
    as (quiet & done & rest & tl & Hev & Hq & Hsrc & Htl & _ & _ & Hok).
  cbv zeta in *. simpl in *.
  assert (done <> []) as Hne.
  { intros ->. rewrite Hev in Hin. simpl in Hin.
    apply elem_of_app in Hin as [Hin|Hin].
    - pose proof (proj1 (Forall_forall _ _) Hq _ Hin). discriminate.
    - destruct Htl as [-> | (t' & rest' & _ & ->)]; [inversion Hin|].
      apply list_elem_of_singleton in Hin. discriminate. }
  specialize (Hok eq_refl Hne). unfold Single.main.
  destruct (res (Single.run F w)) as [[]|]; [auto | discriminate].
Qed.

Lemma single_table_delete_witness :
  EvDelete "a" (run_cutoff count_down sample_world) true
    ∈ events (Single.run count_down sample_world)
  /\ exec_fault count_down "a" = RowsAffectedFails
  /\ res (Single.run count_down sample_world) = Ok tt
  /\ Single.main count_down sample_world = 0.
Proof.
  assert (EvDelete "a" (run_cutoff count_down sample_world) true
            ∈ events (Single.run count_down sample_world)) as H
    by (vm_compute; repeat constructor).
  split; [exact H|]. split; [reflexivity|].
  exact (single_table_run_succeeds_once_the_delete_ran count_down sample_world _ _ H).
Defined.

(** ** The extractor *)




Lemma sql_select_nil rows c :
  sql_select rows c 100 = [] <-> forall r, r ∈ rows -> Before (row_timestamp r) c = false.
Proof.
  split.
  - intros Hnil r Hr. destruct (Before (row_timestamp r) c) eqn:Hb; [|reflexivity].
    exfalso. apply (f_equal length) in Hnil. rewrite sql_select_length in Hnil.
    assert (r ∈ List.filter (older_than c) rows) as Hin
      by (apply elem_of_List_filter; auto).
    destruct (List.filter (older_than c) rows); [inversion Hin|].
    simpl in Hnil. change (Z.to_nat 100) with 100%nat in Hnil. lia.
  - intros Hall. destruct (sql_select rows c 100) as [|r q] eqn:Hs; [reflexivity|].
    exfalso. destruct (sql_select_elem rows c 100 r) as [Hr Hb]; [rewrite Hs; left|].
    rewrite (Hall _ Hr) in Hb. discriminate.
Qed.

Lemma flat_map_nil {A B} (f : A -> list B) (l : list A) :
  flat_map f l = [] <-> forall a, a ∈ l -> f a = [].
Proof.
  induction l as [|a l IH]; simpl.
  - split; [intros _ a Ha; inversion Ha | reflexivity].
  - split.
    + intros [Ha Hl]%app_eq_nil b [->|Hb]%elem_of_cons; [exact Ha|].
      now apply IH.
    + intros H. rewrite (H a) by left. apply IH. intros b Hb. apply H. now right.
Qed.

(** An empty batch and sources without old rows are the same thing. *)
Lemma batch_rows_nil p F w :
  batch_rows p F w = [] <->
  forall t r, t ∈ sources_of p w -> r ∈ table_rows w t ->
    Before (row_timestamp r) (run_cutoff F w) = false.
Proof.
  unfold batch_rows. rewrite flat_map_nil. split.
  - intros Hall t r Ht. now apply sql_select_nil, Hall.
  - intros Hall t Ht. apply sql_select_nil. intros r. now apply Hall.
Qed.

(** X15. The batch of a run, of either program, is empty exactly when no
    configured source holds a row older than the cutoff: the limit of 100
    rows per query never hides that something is to be archived. *)
Theorem batch_is_empty_only_when_nothing_is_old p F w ts :
  batch_timestamps p F w = Some ts ->
  (ts = [] <->
   forall t r, t ∈ sources_of p w -> r ∈ table_rows w t ->
     Before (row_timestamp r) (run_cutoff F w) = false).
Proof.
  intros H. rewrite (batch_timestamps_all_sources _ _ _ _ H).
  rewrite <- batch_rows_nil.
  split; [apply fmap_nil_inv | now intros ->].
Qed.

Lemma empty_batch_means_nothing_old_witness :
  batch_timestamps MultiTable no_faults quiet_world = Some []
  /\ (forall t r, t ∈ sources_of MultiTable quiet_world ->
        r ∈ table_rows quiet_world t ->
        Before (row_timestamp r) (run_cutoff no_faults quiet_world) = false).
Proof.
  assert (batch_timestamps MultiTable no_faults quiet_world = Some []) as H
    by (vm_compute; reflexivity).
  split; [exact H|].
  exact (proj1 (batch_is_empty_only_when_nothing_is_old MultiTable no_faults
                  quiet_world [] H) eq_refl).
Defined.

Lemma sorted_take_drop {A} (R : relation A) n (l : list A) x y :
  StronglySorted R l -> x ∈ take n l -> y ∈ drop n l -> R x y.
Proof.
  intros Hs. revert n. induction Hs as [|a l Hs IH Ha]; intros n Hx Hy.
  - rewrite take_nil in Hx. inversion Hx.
  - destruct n as [|n]; simpl in *; [inversion Hx|].
    apply elem_of_cons in Hx as [->|Hx].
    + apply (proj1 (Forall_forall _ _) Ha). eapply subseteq_drop, Hy.
    + eapply IH; eauto.
Qed.

(** What a bounded query leaves out is not newer than what it returns. *)
Lemma sql_select_newest rows c limit r r' :
  r ∈ sql_select rows c limit ->
  r' ∈ rows -> Before (row_timestamp r') c = true ->
  r' ∉ sql_select rows c limit ->
  t_ns (row_timestamp r') <= t_ns (row_timestamp r).
Proof.
  intros Hr Hr' Hold Hout.
  assert (r' ∈ List.filter (older_than c) rows) as Hin
    by (apply elem_of_List_filter; auto).
  rewrite (sql_select_rest rows c limit) in Hin.
  apply elem_of_app in Hin as [Hin|Hin]; [contradiction|].
  exact (sorted_take_drop newer_or_equal _ _ r r'
           (order_by_timestamp_desc_sorted _) Hr Hin).
Qed.

(** X16. When a source holds more rows older than the cutoff than one query
    returns, the batch of the multi-table program holds the newest of them:
    a row of the source that is older than the cutoff and has no record in the
    batch is not newer than any row of that source that has one. *)
Theorem batch_holds_the_newest_old_rows F w x t r r' :
  res (Multi.extract F w) = Ok x ->
  Multi.tag t r ∈ Multi.x_records x ->
  r' ∈ table_rows w t ->
  Before (row_timestamp r') (run_cutoff F w) = true ->
  Multi.tag t r' ∉ Multi.x_records x ->
  t_ns (row_timestamp r') <= t_ns (row_timestamp r).
Proof.
  intros Hex Hin Hr' Hold Hout.
  destruct (multi_extract_ok _ _ _ Hex) as (-> & _ & _). simpl in *.
  apply in_batch_of in Hin as (t0 & r0 & Ht0 & Hr0 & Heq).
  assert (t0 = t) as -> by (apply (f_equal Multi.TableName) in Heq; now simpl in Heq).
  apply tag_inj in Heq as <-.
  eapply sql_select_newest; eauto.
  intros Hsel. apply Hout. apply in_batch_of. eauto.
Qed.

Lemma newest_old_rows_witness :
  res (Multi.extract no_faults crowded_world)
  = Ok (Multi.mkExtracted (s3_bucket crowded_world) (configured_tables crowded_world)
          (run_cutoff no_faults crowded_world)
          (batch_of crowded_world (configured_tables crowded_world)
             (run_cutoff no_faults crowded_world) 100))
  /\ t_ns (row_timestamp (mkRow 0 (mkTime 0 0) "dev" 0))
     <= t_ns (row_timestamp (mkRow 1 (mkTime 1000000000 0) "dev" 0)).
Proof.
  assert (res (Multi.extract no_faults crowded_world)
          = Ok (Multi.mkExtracted (s3_bucket crowded_world)
                  (configured_tables crowded_world)
                  (run_cutoff no_faults crowded_world)
                  (batch_of crowded_world (configured_tables crowded_world)
                     (run_cutoff no_faults crowded_world) 100))) as Hex
    by (vm_compute; reflexivity).
  split; [exact Hex|].
  apply (batch_holds_the_newest_old_rows no_faults crowded_world _ "a" _ _ Hex).
  - apply (bool_decide_unpack _). vm_compute. exact I.
  - apply (bool_decide_unpack _). vm_compute. exact I.
  - vm_compute. reflexivity.
  - apply (bool_decide_unpack _). vm_compute. exact I.
Defined.

(** ** The configuration *)

(** The number of commas of a string, and whether it has one. *)
Fixpoint count_commas (s : string) : nat :=
  match s with
  | EmptyString => 0
  | String c rest => (if Ascii.eqb c "," then 1 else 0) + count_commas rest
  end.

Definition has_comma (s : string) : bool := negb (Nat.eqb (count_commas s) 0).

(** White space, one rune after the other. *)
Inductive white : string -> Prop :=
  | white_nil : white ""
  | white_cons e s : e ∈ space_runes -> white s -> white (e +:+ s).

(** The string starts, or ends, with a white-space rune. *)
Definition starts_with_space (s : string) : Prop :=
  exists e rest, e ∈ space_runes /\ s = e +:+ rest.

Definition ends_with_space (s : string) : Prop :=
  exists front e, e ∈ space_runes /\ s = front +:+ e.

Lemma Split_comma_length s : length (Split_comma s) = S (count_commas s).
Proof.
  induction s as [|c s IH]; simpl; [reflexivity|].
  destruct (Ascii.eqb c ","); simpl; [now rewrite IH|].
  destruct (Split_comma s); simpl in *; [discriminate | exact IH].
Qed.

Lemma Split_comma_no_comma s : Forall (fun n => has_comma n = false) (Split_comma s).
Proof.
  induction s as [|c s IH]; simpl; [repeat constructor|].
  destruct (Ascii.eqb c ",") eqn:Hc; [constructor; [reflexivity | exact IH]|].
  destruct (Split_comma s) as [|piece pieces]; [repeat constructor|].
  - unfold has_comma. simpl. now rewrite Hc.
  - inversion IH as [|? ? Hp Hps]; subst. constructor; [|exact Hps].
    unfold has_comma in *. simpl. now rewrite Hc.
Qed.

(** [strings.Join(strings.Split(s, ","), ",")] gives [s] back. *)
Lemma Split_comma_join s : String.concat "," (Split_comma s) = s.
Proof.
  induction s as [|c s IH]; simpl; [reflexivity|].
  destruct (Ascii.eqb_spec c ",") as [->|Hc].
  - pose proof (Split_comma_length s) as Hl.
    destruct (Split_comma s) as [|p ps]; [discriminate|].
    change (String.concat "," ("" :: p :: ps))
      with ("" +:+ "," +:+ String.concat "," (p :: ps)).
    now rewrite IH.
  - pose proof (Split_comma_length s) as Hl.
    destruct (Split_comma s) as [|p ps]; [discriminate|].
    destruct ps as [|q ps]; simpl in *; now rewrite <- IH.
Qed.

Lemma string_app_cons x (a b : string) : String x a +:+ b = String x (a +:+ b).
Proof. reflexivity. Qed.

Lemma string_app_nil_l (b : string) : "" +:+ b = b.
Proof. reflexivity. Qed.

(** Computes the appends whose left side is known. *)
Ltac string_simpl := rewrite ?string_app_cons, ?string_app_nil_l in *.

Lemma string_app_assoc (a b c : string) : (a +:+ b) +:+ c = a +:+ (b +:+ c).
Proof. induction a as [|x a IH]; string_simpl; [reflexivity | now rewrite IH]. Qed.

Lemma string_app_nil_r (a : string) : a +:+ "" = a.
Proof. induction a as [|x a IH]; string_simpl; [reflexivity | now rewrite IH]. Qed.

Lemma count_commas_app a b : count_commas (a +:+ b) = (count_commas a + count_commas b)%nat.
Proof.
  induction a as [|x a IH]; string_simpl; [reflexivity|]. simpl. rewrite IH. lia.
Qed.

Lemma has_comma_app a b c :
  has_comma (a +:+ b +:+ c) = false -> has_comma b = false.
Proof.
  unfold has_comma. rewrite !count_commas_app. intros H.
  apply negb_false_iff, Nat.eqb_eq in H. apply negb_false_iff, Nat.eqb_eq. lia.
Qed.

Lemma is_space_rune_spec s : is_space_rune s = true <-> s ∈ space_runes.
Proof.
  unfold is_space_rune. rewrite existsb_exists. split.
  - intros (e & Hin & ->%String.eqb_eq). now apply list_elem_of_In.
  - intros Hin. exists s. split; [now apply list_elem_of_In | apply String.eqb_refl].
Qed.

(** A white-space rune is encoded on one, two or three bytes. *)
Lemma space_rune_bytes e :
  e ∈ space_runes ->
  (exists a, e = String a "")
  \/ (exists a b, e = String a (String b ""))
  \/ (exists a b c, e = String a (String b (String c ""))).
Proof.
  intros H. apply list_elem_of_In in H. unfold space_runes in H. simpl in H.
  repeat (destruct H as [<-|H]; [eauto 8|]). destruct H.
Qed.

Lemma white_app a b : white a -> white b -> white (a +:+ b).
Proof.
  induction 1 as [|e s He _ IH]; intros Hb; string_simpl; [exact Hb|].
  rewrite string_app_assoc. constructor; auto.
Qed.

Lemma white_rune e : e ∈ space_runes -> white e.
Proof. intros H. rewrite <- (string_app_nil_r e). constructor; [exact H | constructor]. Qed.

(** What [trim_left] removes is white space, and what it leaves does not
    start with a white-space rune. *)
Lemma trim_left_spec n : forall s,
  (String.length s <= n)%nat ->
  (exists front, white front /\ s = front +:+ trim_left s)
  /\ ~ starts_with_space (trim_left s).
Proof.
  assert (forall k, (exists front, white front /\ k = front +:+ trim_left k)
                    /\ ~ starts_with_space (trim_left k) ->
          forall e, e ∈ space_runes ->
            (exists front, white front /\ e +:+ k = front +:+ trim_left k)
            /\ ~ starts_with_space (trim_left k)) as Hstep.
  { intros k [(front & Hw & Hk) Hns] e He. split; [|exact Hns].
    exists (e +:+ front). split; [now constructor|].
    rewrite string_app_assoc. now rewrite <- Hk. }
  assert (forall s, (forall e rest, e ∈ space_runes -> s <> e +:+ rest) ->
            (exists front, white front /\ s = front +:+ s) /\ ~ starts_with_space s)
    as Hstop.
  { intros s Hno. split; [exists ""; split; [constructor | reflexivity]|].
    intros (e & rest & He & Hs). exact (Hno e rest He Hs). }
  induction n as [|n IH]; intros s Hn.
  { destruct s; [|simpl in Hn; lia]. apply Hstop. intros e rest He.
    destruct (space_rune_bytes e He) as [(a & ->)|[(a & b & ->)|(a & b & c & ->)]];
      string_simpl; discriminate. }
  destruct s as [|a s1]; [apply Hstop; intros e rest He;
    destruct (space_rune_bytes e He) as [(a & ->)|[(a & b & ->)|(a & b & c & ->)]];
      string_simpl; discriminate|].
  cbn [trim_left]. simpl in Hn.
  destruct (is_space_rune (String a "")) eqn:E1.
  { apply is_space_rune_spec in E1.
    apply (Hstep s1 (IH s1 ltac:(lia)) _ E1). }
  destruct s1 as [|b s2].
  { apply Hstop. intros e rest He Heq.
    destruct (space_rune_bytes e He) as [(x & ->)|[(x & y & ->)|(x & y & z & ->)]];
      string_simpl; try discriminate.
    injection Heq as <- _. apply is_space_rune_spec in He. congruence. }
  destruct (is_space_rune (String a (String b ""))) eqn:E2.
  { apply is_space_rune_spec in E2. simpl in Hn.
    apply (Hstep s2 (IH s2 ltac:(lia)) _ E2). }
  destruct s2 as [|c s3].
  { apply Hstop. intros e rest He Heq.
    destruct (space_rune_bytes e He) as [(x & ->)|[(x & y & ->)|(x & y & z & ->)]];
      string_simpl; try discriminate; apply is_space_rune_spec in He.
    - injection Heq as <- _. congruence.
    - injection Heq as <- <- _. congruence. }
  destruct (is_space_rune (String a (String b (String c "")))) eqn:E3.
  { apply is_space_rune_spec in E3. simpl in Hn.
    apply (Hstep s3 (IH s3 ltac:(lia)) _ E3). }
  apply Hstop. intros e rest He Heq.
  destruct (space_rune_bytes e He) as [(x & ->)|[(x & y & ->)|(x & y & z & ->)]];
    string_simpl; apply is_space_rune_spec in He.
  - injection Heq as <- _. congruence.
  - injection Heq as <- <- _. congruence.
  - injection Heq as <- <- <- _. congruence.
Qed.

(** What [trim_right] removes is white space, and what it leaves does not
    end with a white-space rune. *)
Lemma trim_right_spec s :
  (exists back, white back /\ s = trim_right s +:+ back)
  /\ ~ ends_with_space (trim_right s).
Proof.
  induction s as [|a s [(back & Hw & Hs) Hne]]; cbn [trim_right].
  { split; [exists ""; split; [constructor | reflexivity]|].
    intros (front & e & He & Heq).
    destruct (space_rune_bytes e He) as [(x & ->)|[(x & y & ->)|(x & y & z & ->)]];
      destruct front; string_simpl; discriminate. }
  cbv zeta. destruct (is_space_rune (String a (trim_right s))) eqn:E.
  - apply is_space_rune_spec in E. split.
    + exists (String a (trim_right s) +:+ back). split.
      * now constructor.
      * string_simpl. now rewrite <- Hs.
    + intros (front & e & He & Heq).
      destruct (space_rune_bytes e He) as [(x & ->)|[(x & y & ->)|(x & y & z & ->)]];
        destruct front; string_simpl; discriminate.
  - split; [exists back; split; [exact Hw | string_simpl; now rewrite <- Hs]|].
    intros (front & e & He & Heq). destruct front as [|x front]; string_simpl.
    + subst e. apply is_space_rune_spec in He. congruence.
    + injection Heq as _ Heq. apply Hne. now exists front, e.
Qed.

(** A source name as [run] leaves it: free of commas and of white space at
    both ends. *)
Definition clean_name (n : string) : Prop :=
  has_comma n = false /\ ~ starts_with_space n /\ ~ ends_with_space n.

(** [TrimSpace] removes white space, and only white space, at both ends. *)
Lemma TrimSpace_spec s :
  (exists front back, white front /\ white back /\ s = front +:+ TrimSpace s +:+ back)
  /\ ~ starts_with_space (TrimSpace s)
  /\ ~ ends_with_space (TrimSpace s).
Proof.
  unfold TrimSpace.
  destruct (trim_left_spec (String.length s) s (Nat.le_refl _))
    as [(front & Hf & Hs) Hstart].
  destruct (trim_right_spec (trim_left s)) as [(back & Hb & Ht) Hend].
  split; [exists front, back; split; [exact Hf|]; split; [exact Hb|];
          now rewrite <- Ht|].
  split; [|exact Hend].
  intros (e & rest & He & Heq). apply Hstart. exists e, (rest +:+ back).
  split; [exact He|]. now rewrite Ht, Heq, string_app_assoc.
Qed.

(** [strings.TrimSpace] also removes the white space beyond ASCII: here a
    no-break space (U+00A0) before [b] and an ideographic space (U+3000)
    after it. *)
Example TrimSpace_unicode :
  TrimSpace <$> Split_comma ("a," +:+ bytes [194; 160]%nat +:+ "b" +:+ bytes [227; 128; 128]%nat
                             +:+ ", c d ")
  = ["a"; "b"; "c d"].
Proof. vm_compute. reflexivity. Qed.

(** X17. The table list of the multi-table program: whatever [TABLE_NAMES]
    holds, splitting it at the commas loses nothing; the list of sources has
    one entry more than the value has commas, so it is never empty; every
    entry is the piece between two commas without the white space (Unicode
    white space, as [strings.TrimSpace] takes it) at its two ends, and
    without anything else removed: it is free of commas and neither starts
    nor ends with a white-space rune.  When the extraction completes these
    entries are the sources of the run. *)
Theorem table_list_is_split_and_trimmed s :
  let names := TrimSpace <$> Split_comma s in
  String.concat "," (Split_comma s) = s
  /\ length names = S (count_commas s)
  /\ Forall2 (fun piece name =>
                exists front back,
                  white front /\ white back /\ piece = front +:+ name +:+ back)
       (Split_comma s) names
  /\ Forall clean_name names
  /\ (forall F w x,
        default "iot_data" (environ w !! "TABLE_NAMES") = s ->
        res (Multi.extract F w) = Ok x ->
        Multi.x_tables x = names).
Proof.
  cbv zeta. split; [apply Split_comma_join|].
  split; [rewrite length_fmap; apply Split_comma_length|].
  split; [|split].
  - apply Forall2_fmap_r, Forall_Forall2_diag, Forall_forall.
    intros piece _. exact (proj1 (TrimSpace_spec piece)).
  - apply Forall_fmap. eapply Forall_impl; [apply Split_comma_no_comma|].
    intros n Hn. destruct (TrimSpace_spec n) as [(front & back & _ & _ & Heq) Hends].
    split; [|exact Hends]. rewrite Heq in Hn. exact (has_comma_app _ _ _ Hn).
  - intros F w x Hs Hex. destruct (multi_extract_ok _ _ _ Hex) as (-> & _ & _).
    simpl. unfold configured_tables, env_or. now rewrite Hs.
Qed.

(** A call that goes where the configuration says: the database behind
    [conn], a table of [sources], the bucket [bucket]. *)
Definition addressed (conn bucket : string) (sources : list string) (ev : Event)
    : Prop :=
  match ev with
  | EvSqlOpen c _ => c = conn
  | EvQuery t _ _ _ | EvScanError t | EvRowsError t | EvDelete t _ _ => t ∈ sources
  | EvPutObject b _ _ _ => b = bucket
  | _ => True
  end.

Section Addressed.
Variables (conn bucket : string) (sources : list string).

Lemma multi_scan_rows_addressed t cur acc :
  t ∈ sources -> emits (addressed conn bucket sources) (Multi.scan_rows t cur acc).
Proof. intros Ht. revert acc. induction cur; intros; simpl; frame. Qed.

Lemma single_scan_rows_addressed t cur s :
  t ∈ sources -> emits (addressed conn bucket sources) (Single.scan_rows t cur s).
Proof. intros Ht. revert s. induction cur; intros; simpl; frame. Qed.

Lemma processTable_addressed t c l :
  t ∈ sources -> emits (addressed conn bucket sources) (Multi.processTable t c l).
Proof.
  intros Ht. pose proof (multi_scan_rows_addressed t) as Hs.
  unfold Multi.processTable. frame.
Qed.

Lemma process_tables_addressed ts c l acc :
  (forall t, t ∈ ts -> t ∈ sources) ->
  emits (addressed conn bucket sources) (Multi.process_tables ts c l acc).
Proof.
  revert acc. induction ts as [|t ts IH]; intros acc Hts; simpl; [frame|].
  apply emits_bind.
  - apply emits_wrap, processTable_addressed, Hts. left.
  - intros recs. apply IH. intros t' Ht'. apply Hts. now right.
Qed.

Lemma single_query_addressed t c l b :
  t ∈ sources ->
  emits (addressed conn bucket sources)
    (rows ← wrap "querying old records" (db_Query t c l);
     scanned ← Single.scan_rows t (cursor rows) (Single.mkScanned [] zero_Time 0);
     wrap "reading rows" (rows_Err t rows);;
     mret (Single.mkExtracted b t c scanned)).
Proof. intros Ht. pose proof (single_scan_rows_addressed t) as Hs. frame. Qed.

Lemma file_calls_addressed {A} path (m : M A) :
  emits (file_call path) m -> emits (addressed conn bucket sources) m.
Proof. apply emits_weaken. intros [] H; simpl in *; tauto. Qed.

Lemma deleteArchivedRecords_addressed t c :
  t ∈ sources ->
  emits (addressed conn bucket sources) (Multi.deleteArchivedRecords t c).
Proof. intros Ht. unfold Multi.deleteArchivedRecords. frame. Qed.

Lemma delete_tables_addressed ts c :
  (forall t, t ∈ ts -> t ∈ sources) ->
  emits (addressed conn bucket sources) (Multi.delete_tables ts c).
Proof.
  induction ts as [|t ts IH]; intros Hts; simpl; [frame|].
  apply emits_bind.
  - apply emits_wrap, deleteArchivedRecords_addressed, Hts. left.
  - intros _. apply IH. intros t' Ht'. apply Hts. now right.
Qed.

Lemma multi_archive_addressed x :
  Multi.x_bucket x = bucket -> (forall t, t ∈ Multi.x_tables x -> t ∈ sources) ->
  emits (addressed conn bucket sources) (Multi.archive x).
Proof.
  intros Hb Hts. unfold Multi.archive. destruct (Multi.x_records x); [frame|].
  cbv zeta. apply emits_bind.
  { eapply emits_wrap, file_calls_addressed, multi_writeParquetFile_emits. }
  intros _. apply emits_bind; [frame|]. intros _.
  apply emits_bind; [frame|]. intros file.
  apply emits_bind; [frame|]. intros _.
  apply emits_bind; [now apply delete_tables_addressed | frame].
Qed.

Lemma single_archive_addressed x :
  Single.x_bucket x = bucket -> Single.x_table x ∈ sources ->
  emits (addressed conn bucket sources) (Single.archive x).
Proof.
  intros Hb Hts. unfold Single.archive.
  destruct (Single.recordCount (Single.x_scanned x) =? 0); [frame|].
  cbv zeta. apply emits_bind.
  { eapply emits_wrap, file_calls_addressed, single_writeParquetFile_emits. }
  intros _. apply emits_bind; [frame|]. intros _.
  apply emits_bind; [frame|]. intros file.
  apply emits_bind; [frame|]. intros _.
  apply emits_bind; [frame|]. intros result. frame.
Qed.
End Addressed.

(** X18. Every external call of a run, of either program, goes where the
    configuration says.  The database is opened with the value of
    [PG_CONN_STRING], every query and every delete statement is on one of the
    configured sources ([TABLE_NAMES], split and trimmed; [TABLE_NAME] in the
    single-table program), and the upload goes to the bucket [S3_BUCKET]; a
    variable that is not set stands for its default. *)
Theorem calls_are_addressed_as_configured p F w :
  Forall (addressed
            (default "postgresql://localhost:5432/iot?sslmode=disable"
               (environ w !! "PG_CONN_STRING"))
            (default "my-iot-archive" (environ w !! "S3_BUCKET"))
            (match p with
             | MultiTable =>
                 TrimSpace <$> Split_comma (default "iot_data" (environ w !! "TABLE_NAMES"))
             | SingleTable => [default "iot_data" (environ w !! "TABLE_NAME")]
             end))
         (events (run_of p F w)).
Proof.
  fold (env_or w "PG_CONN_STRING" "postgresql://localhost:5432/iot?sslmode=disable").
  fold (env_or w "S3_BUCKET" "my-iot-archive").
  fold (env_or w "TABLE_NAMES" "iot_data") (env_or w "TABLE_NAME" "iot_data").
  fold (pg_conn w) (s3_bucket w) (configured_tables w) (single_table w).
  destruct p; simpl; unfold Multi.run, Single.run, mbind, M_bind.
  - pose proof (multi_extract_ok F w) as Hok.
    assert (Forall (addressed (pg_conn w) (s3_bucket w) (configured_tables w))
              (events (Multi.extract F w))) as Hev.
    { rewrite multi_extract_eq.
      destruct (open_fails F); [repeat constructor|].
      destruct (ping_fails F); [repeat constructor|].
      pose proof (process_tables_addressed (pg_conn w) (s3_bucket w)
                    (configured_tables w) (configured_tables w) (run_cutoff F w) 100 []
                    (fun t H => H) F (connected F w)) as H.
      destruct (Multi.process_tables _ _ _ _ _ _) as [[recs|e] w' evs];
        repeat constructor; exact H. }
    destruct (Multi.extract F w) as [[x|e] w1 evs1]; simpl in *; [|exact Hev].
    destruct (Hok _ eq_refl) as (-> & _ & _).
    match goal with
    | |- context [Multi.archive ?x' F w1] =>
        pose proof (multi_archive_addressed (pg_conn w) (s3_bucket w)
                      (configured_tables w) x' eq_refl (fun t H => H) F w1) as Ha
    end.
    destruct (Multi.archive _ F w1) as [r w2 evs2]. simpl in *.
    apply Forall_app. now split.
  - pose proof (single_extract_ok F w) as Hok.
    assert (Forall (addressed (pg_conn w) (s3_bucket w) [single_table w])
              (events (Single.extract F w))) as Hev.
    { rewrite single_extract_start.
      destruct (open_fails F); [repeat constructor|].
      destruct (ping_fails F); [repeat constructor|].
      pose proof (single_query_addressed (pg_conn w) (s3_bucket w) [single_table w]
                    (single_table w) (run_cutoff F w) 100 (s3_bucket w)
                    (list_elem_of_here _ _) F (connected F w)) as H.
      destruct (@mbind M _ _ _ _ _ F (connected F w)) as [r w' evs];
        repeat constructor; exact H. }
    destruct (Single.extract F w) as [[x|e] w1 evs1]; simpl in *; [|exact Hev].
    destruct (Hok _ eq_refl) as (-> & _ & _).
    match goal with
    | |- context [Single.archive ?x' F w1] =>
        pose proof (single_archive_addressed (pg_conn w) (s3_bucket w)
                      [single_table w] x' eq_refl (list_elem_of_here _ _) F w1) as Ha
    end.
    destruct (Single.archive _ F w1) as [r w2 evs2]. simpl in *.
    apply Forall_app. now split.
Qed.

(** ** The object key *)

(** X19. The object key only depends on the wall-clock second of the
    timestamp it is computed from (and, in the single-table program, on the
    table name): two timestamps within the same second give the same key, so
    the time suffix does not tell apart two batches whose latest rows fall
    into the same second. *)
Theorem object_key_has_second_resolution t u :
  t_ns t / 1000000000 + t_off t = t_ns u / 1000000000 + t_off u ->
  Multi.s3Key t = Multi.s3Key u
  /\ (forall tableName, Single.s3Key t tableName = Single.s3Key u tableName).
Proof.
  intros H. change (local_secs t = local_secs u) in H.
  unfold Multi.s3Key, Single.s3Key, Format_20060102_150405, Year, Month, Day,
    Hour, Minute, Second, local_days, secs_of_day.
  rewrite H. auto.
Qed.

Lemma object_key_resolution_witness :
  Equal (Date 2024 3 20 8 30 0)
        (mkTime (t_ns (Date 2024 3 20 8 30 0) + 999999999) 0) = false
  /\ Multi.s3Key (Date 2024 3 20 8 30 0)
     = Multi.s3Key (mkTime (t_ns (Date 2024 3 20 8 30 0) + 999999999) 0)
  /\ (forall tableName,
        Single.s3Key (Date 2024 3 20 8 30 0) tableName
        = Single.s3Key (mkTime (t_ns (Date 2024 3 20 8 30 0) + 999999999) 0) tableName).
Proof.
  split; [vm_compute; reflexivity|].
  apply (object_key_has_second_resolution (Date 2024 3 20 8 30 0)).
  vm_compute. reflexivity.
Defined.

(** ** The encoder *)

(** The successful [Write] calls for [rows], in order. *)
Definition written (path : string) (rows : list (list PValue)) : list Event :=
  (fun row => EvWrite path row true) <$> rows.

(** The sequences of calls [writeParquetFile] can make on the file [f] for
    the encoded records [rows], with whether it returns [nil]. *)
Inductive encoder_trace (f : string) (rows : list (list PValue))
    : bool -> list Event -> Prop :=
  | create_failed :
      encoder_trace f rows false [EvCreate f false]
  | writer_failed closed :
      encoder_trace f rows false
        [EvCreate f true; EvNewWriter f false; EvClose f closed]
  | write_failed n row stopped closed :
      rows !! n = Some row ->
      encoder_trace f rows false
        ([EvCreate f true; EvNewWriter f true] ++ written f (take n rows)
         ++ [EvWrite f row false; EvWriteStop f stopped; EvClose f closed])
  | stop_failed closed :
      encoder_trace f rows false
        ([EvCreate f true; EvNewWriter f true] ++ written f rows
         ++ [EvWriteStop f false; EvClose f closed])
  | file_finished closed :
      encoder_trace f rows closed
        ([EvCreate f true; EvNewWriter f true] ++ written f rows
         ++ [EvWriteStop f true; EvClose f closed]).

(** The calls of the write loop: every record written, or the records
    before the failing one, the failed [Write] and the clean-up. *)
Definition write_loop_trace (f : string) (rows : list (list PValue))
    (ok : bool) (evs : list Event) : Prop :=
  (ok = true /\ evs = written f rows)
  \/ (ok = false
      /\ exists n row stopped closed,
           rows !! n = Some row
           /\ evs = written f (take n rows)
                    ++ [EvWrite f row false; EvWriteStop f stopped; EvClose f closed]).

Lemma write_loop_trace_cons f row rows ok evs :
  write_loop_trace f rows ok evs ->
  write_loop_trace f (row :: rows) ok (EvWrite f row true :: evs).
Proof.
  intros [(-> & ->)|(-> & n & row' & s & c & Hn & ->)].
  - left. auto.
  - right. split; [reflexivity|]. exists (S n), row', s, c. auto.
Qed.

Lemma multi_write_records_trace pw i recs F w :
  let o := Multi.write_records pw (pw_path pw) i recs F w in
  write_loop_trace (pw_path pw) (multi_encode recs) (is_ok (res o)) (events o).
Proof.
  revert i w. induction recs as [|r recs IH]; intros i w; simpl.
  - left. auto.
  - unfold pw_Write. mrun.
    destruct (write_fails F _); mrun.
    + destruct (stop_fails F); mrun; destruct (close_fails F); mrun;
        right; (split; [reflexivity|]);
        exists 0%nat, (Multi.marshal (Multi.ToParquet r)); eauto.
    + match goal with
      | |- context [Multi.write_records pw (pw_path pw) (i + 1) recs F ?w'] =>
          specialize (IH (i + 1) w');
          destruct (Multi.write_records pw (pw_path pw) (i + 1) recs F w')
            as [r' w2 evs2]
      end.
      simpl in *. now apply write_loop_trace_cons.
Qed.

Lemma single_write_records_trace pw i recs F w :
  let o := Single.write_records pw (pw_path pw) i recs F w in
  write_loop_trace (pw_path pw) (single_encode recs) (is_ok (res o)) (events o).
Proof.
  revert i w. induction recs as [|r recs IH]; intros i w; simpl.
  - left. auto.
  - unfold pw_Write. mrun.
    destruct (write_fails F _); mrun.
    + destruct (stop_fails F); mrun; destruct (close_fails F); mrun;
        right; (split; [reflexivity|]);
        exists 0%nat, (Single.marshal (Single.ToParquet r)); eauto.
    + match goal with
      | |- context [Single.write_records pw (pw_path pw) (i + 1) recs F ?w'] =>
          specialize (IH (i + 1) w');
          destruct (Single.write_records pw (pw_path pw) (i + 1) recs F w')
            as [r' w2 evs2]
      end.
      simpl in *. now apply write_loop_trace_cons.
Qed.

Lemma multi_writeParquetFile_trace recs filename F w :
  let o := Multi.writeParquetFile recs filename F w in
  encoder_trace filename (multi_encode recs) (is_ok (res o)) (events o).
Proof.
  cbv zeta. unfold Multi.writeParquetFile. mrun.
  destruct (create_fails F); mrun; [constructor|].
  destruct (writer_fails F); mrun.
  { destruct (close_fails F); mrun; constructor. }
  match goal with
  | |- context [Multi.write_records ?pw filename 0 recs F ?w'] =>
      pose proof (multi_write_records_trace pw 0 recs F w') as Hloop;
      change (pw_path pw) with filename in Hloop; cbv zeta in Hloop;
      destruct (Multi.write_records pw filename 0 recs F w') as [[[]|e] w3 evs3]
  end; mrun.
  - destruct Hloop as [(_ & ->)|(? & _)]; [|discriminate].
    destruct (stop_fails F); mrun; destruct (close_fails F); mrun;
      first [apply (stop_failed filename) | apply (file_finished filename)].
  - destruct Hloop as [(? & _)|(_ & n & row & s & c & Hn & ->)]; [discriminate|].
    now apply (write_failed filename).
Qed.

Lemma single_writeParquetFile_trace recs filename F w :
  let o := Single.writeParquetFile recs filename F w in
  encoder_trace filename (single_encode recs) (is_ok (res o)) (events o).
Proof.
  cbv zeta. unfold Single.writeParquetFile. mrun.
  destruct (create_fails F); mrun; [constructor|].
  destruct (writer_fails F); mrun.
  { destruct (close_fails F); mrun; constructor. }
  match goal with
  | |- context [Single.write_records ?pw filename 0 recs F ?w'] =>
      pose proof (single_write_records_trace pw 0 recs F w') as Hloop;
      change (pw_path pw) with filename in Hloop; cbv zeta in Hloop;
      destruct (Single.write_records pw filename 0 recs F w') as [[[]|e] w3 evs3]
  end; mrun.
  - destruct Hloop as [(_ & ->)|(? & _)]; [|discriminate].
    destruct (stop_fails F); mrun; destruct (close_fails F); mrun;
      first [apply (stop_failed filename) | apply (file_finished filename)].
  - destruct Hloop as [(? & _)|(_ & n & row & s & c & Hn & ->)]; [discriminate|].
    now apply (write_failed filename).
Qed.

(** X20. The calls of [writeParquetFile], in both programs, follow one of
    five sequences: the file cannot be created; the writer cannot be created
    and the file is closed; the records before the first failing [Write] are
    written, in order, then [WriteStop] and [Close] are called on the way out;
    every record is written and [WriteStop] fails, then the file is closed;
    every record is written, one [Write] per record and in the order of the
    batch, the writer is stopped and the file closed.  [nil] is returned only
    in the last case and when [Close] succeeded; a file that was created is
    closed exactly once, by the last call. *)
Theorem writeParquetFile_call_sequence filename F w :
  (forall recs,
      encoder_trace filename
        ((fun r => Multi.marshal (Multi.ToParquet r)) <$> recs)
        (is_ok (res (Multi.writeParquetFile recs filename F w)))
        (events (Multi.writeParquetFile recs filename F w)))
  /\ (forall recs,
         encoder_trace filename
           ((fun r => Single.marshal (Single.ToParquet r)) <$> recs)
           (is_ok (res (Single.writeParquetFile recs filename F w)))
           (events (Single.writeParquetFile recs filename F w))).
Proof.
  split; intros recs;
    [apply multi_writeParquetFile_trace | apply single_writeParquetFile_trace].
Qed.

Lemma multi_write_records_prefix pw i recs F w cols rws cdc :
  disk w !! pw_path pw = Some (mkFile cols rws cdc false) ->
  exists n cdc' fin',
    disk (world (Multi.write_records pw (pw_path pw) i recs F w))
    = <[pw_path pw := mkFile cols (rws ++ take n (multi_encode recs)) cdc' fin']>
        (disk w)
    /\ (is_ok (res (Multi.write_records pw (pw_path pw) i recs F w)) = true ->
        take n (multi_encode recs) = multi_encode recs /\ cdc' = cdc /\ fin' = false).
Proof.
  revert i w rws. induction recs as [|r recs IH]; intros i w rws Hf.
  - exists 0%nat, cdc, false. simpl. rewrite app_nil_r.
    split; [symmetry; now apply insert_id | auto].
  - simpl. unfold pw_Write. mrun. unfold file_at. rewrite Hf. mrun.
    destruct (write_fails F (length rws)); mrun.
    + unfold file_at. mrun. rewrite Hf. mrun.
      destruct (stop_fails F); mrun; destruct (close_fails F); mrun.
      all: first [ exists 0%nat, cdc, false; simpl; rewrite app_nil_r;
                   split; [symmetry; now apply insert_id | discriminate]
                 | exists 0%nat, (CompressionType pw), true; simpl;
                   rewrite app_nil_r; split; [reflexivity | discriminate] ].
    + match goal with
      | |- context [Multi.write_records pw (pw_path pw) (i + 1) recs F ?w'] =>
          destruct (IH (i + 1) w' (rws ++ [Multi.marshal (Multi.ToParquet r)]))
            as (n & cdc' & fin' & Hd & Hfull); [apply lookup_insert_eq|];
          destruct (Multi.write_records pw (pw_path pw) (i + 1) recs F w')
            as [r' w2 evs2]
      end.
      simpl in *. exists (S n), cdc', fin'. rewrite Hd, insert_insert_eq.
      simpl. split; [now rewrite <- app_assoc|].
      intros Hr. destruct (Hfull Hr) as (-> & -> & ->). auto.
Qed.

Lemma single_write_records_prefix pw i recs F w cols rws cdc :
  disk w !! pw_path pw = Some (mkFile cols rws cdc false) ->
  exists n cdc' fin',
    disk (world (Single.write_records pw (pw_path pw) i recs F w))
    = <[pw_path pw := mkFile cols (rws ++ take n (single_encode recs)) cdc' fin']>
        (disk w)
    /\ (is_ok (res (Single.write_records pw (pw_path pw) i recs F w)) = true ->
        take n (single_encode recs) = single_encode recs /\ cdc' = cdc /\ fin' = false).
Proof.
  revert i w rws. induction recs as [|r recs IH]; intros i w rws Hf.
  - exists 0%nat, cdc, false. simpl. rewrite app_nil_r.
    split; [symmetry; now apply insert_id | auto].
  - simpl. unfold pw_Write. mrun. unfold file_at. rewrite Hf. mrun.
    destruct (write_fails F (length rws)); mrun.
    + unfold file_at. mrun. rewrite Hf. mrun.
      destruct (stop_fails F); mrun; destruct (close_fails F); mrun.
      all: first [ exists 0%nat, cdc, false; simpl; rewrite app_nil_r;
                   split; [symmetry; now apply insert_id | discriminate]
                 | exists 0%nat, (CompressionType pw), true; simpl;
                   rewrite app_nil_r; split; [reflexivity | discriminate] ].
    + match goal with
      | |- context [Single.write_records pw (pw_path pw) (i + 1) recs F ?w'] =>
          destruct (IH (i + 1) w' (rws ++ [Single.marshal (Single.ToParquet r)]))
            as (n & cdc' & fin' & Hd & Hfull); [apply lookup_insert_eq|];
          destruct (Single.write_records pw (pw_path pw) (i + 1) recs F w')
            as [r' w2 evs2]
      end.
      simpl in *. exists (S n), cdc', fin'. rewrite Hd, insert_insert_eq.
      simpl. split; [now rewrite <- app_assoc|].
      intros Hr. destruct (Hfull Hr) as (-> & -> & ->). auto.
Qed.

(** What [writeParquetFile] leaves at [filename]: nothing new when the file
    could not be created, otherwise a file with the first [n] encoded
    records. *)
Definition leaves_a_prefix (filename : string) (encoded : list (list PValue))
    (w : World) (o : Out unit) : Prop :=
  (Forall (fun ev => ev = EvCreate filename false) (events o)
   /\ disk (world o) = disk w)
  \/ (exists f n,
         disk (world o) = <[filename := f]> (disk w)
         /\ rows f = take n encoded
         /\ (is_ok (res o) = true ->
             f = mkFile (columns f) encoded SNAPPY true)).

Lemma multi_writeParquetFile_prefix recs filename F w :
  leaves_a_prefix filename (multi_encode recs) w
    (Multi.writeParquetFile recs filename F w).
Proof.
  unfold leaves_a_prefix, Multi.writeParquetFile in *. mrun.
  destruct (create_fails F); mrun; [left; split; [repeat constructor | reflexivity]|].
  right. destruct (writer_fails F); mrun.
  { exists empty_file, 0%nat.
    destruct (close_fails F); mrun; repeat split; auto; discriminate. }
  match goal with
  | |- context [Multi.write_records ?pw filename 0 recs F ?w'] =>
      destruct (multi_write_records_prefix pw 0 recs F w' Multi.schema [] UNCOMPRESSED)
        as (n & cdc & fin & Hd & Hfull); [apply lookup_insert_eq|];
      change (pw_path pw) with filename in Hd, Hfull;
      destruct (Multi.write_records pw filename 0 recs F w') as [[[]|e] w3 evs3]
  end; mrun; simpl in Hd.
  - destruct (Hfull eq_refl) as (Hn & -> & ->).
    unfold file_at. rewrite ?Hd, ?lookup_insert_eq. mrun.
    destruct (stop_fails F); mrun; destruct (close_fails F); mrun;
      rewrite ?Hd, ?insert_insert_eq;
      (eexists _, n; split; [reflexivity|]; split; [reflexivity|]);
      first [discriminate | intros _; simpl; now rewrite Hn].
  - rewrite Hd, !insert_insert_eq.
    eexists _, n. split; [reflexivity|]. split; [reflexivity | discriminate].
Qed.

Lemma single_writeParquetFile_prefix recs filename F w :
  leaves_a_prefix filename (single_encode recs) w
    (Single.writeParquetFile recs filename F w).
Proof.
  unfold leaves_a_prefix, Single.writeParquetFile in *. mrun.
  destruct (create_fails F); mrun; [left; split; [repeat constructor | reflexivity]|].
  right. destruct (writer_fails F); mrun.
  { exists empty_file, 0%nat.
    destruct (close_fails F); mrun; repeat split; auto; discriminate. }
  match goal with
  | |- context [Single.write_records ?pw filename 0 recs F ?w'] =>
      destruct (single_write_records_prefix pw 0 recs F w' Single.schema []
                  UNCOMPRESSED) as (n & cdc & fin & Hd & Hfull);
        [apply lookup_insert_eq|];
      change (pw_path pw) with filename in Hd, Hfull;
      destruct (Single.write_records pw filename 0 recs F w') as [[[]|e] w3 evs3]
  end; mrun; simpl in Hd.
  - destruct (Hfull eq_refl) as (Hn & -> & ->).
    unfold file_at. rewrite ?Hd, ?lookup_insert_eq. mrun.
    destruct (stop_fails F); mrun; destruct (close_fails F); mrun;
      rewrite ?Hd, ?insert_insert_eq;
      (eexists _, n; split; [reflexivity|]; split; [reflexivity|]);
      first [discriminate | intros _; simpl; now rewrite Hn].
  - rewrite Hd, !insert_insert_eq.
    eexists _, n. split; [reflexivity|]. split; [reflexivity | discriminate].
Qed.

(** X21. What [writeParquetFile] leaves on disk, in both programs: when the
    file cannot be created the disk is as it was; otherwise whatever the file
    held before is gone and, however the call ends, the file holds the first
    [n] encoded records of the batch, in order, for some [n] — all of them,
    compressed with SNAPPY and finished, when [nil] is returned.  A failed
    call never leaves rows of another batch behind. *)
Theorem writeParquetFile_leaves_a_prefix_of_the_batch filename F w :
  (forall recs,
      leaves_a_prefix filename
        ((fun r => Multi.marshal (Multi.ToParquet r)) <$> recs) w
        (Multi.writeParquetFile recs filename F w))
  /\ (forall recs,
         leaves_a_prefix filename
           ((fun r => Single.marshal (Single.ToParquet r)) <$> recs) w
           (Single.writeParquetFile recs filename F w)).
Proof.
  split; intros recs;
    [apply multi_writeParquetFile_prefix | apply single_writeParquetFile_prefix].
Qed.

(** ** Archived and deleted rows *)

Lemma sql_select_all rows c r :
  (length (List.filter (older_than c) rows) <= 100)%nat ->
  r ∈ sql_select rows c 100 <-> r ∈ rows /\ Before (row_timestamp r) c = true.
Proof.
  intros Hlen. unfold sql_select.
  rewrite take_ge
    by (rewrite (Permutation_length (order_by_timestamp_desc_perm _));
        change (Z.to_nat 100) with 100%nat; lia).
  rewrite order_by_timestamp_desc_perm, elem_of_List_filter.
  unfold older_than. tauto.
Qed.

(** X22. Within the batch limit the purge removes exactly what was archived:
    when a run of the multi-table program ends without error, a configured
    source that held at most 100 rows older than the cutoff has lost exactly
    the rows that have a record in the batch. *)
Theorem within_the_limit_exactly_the_archived_rows_are_deleted F w x t r :
  res (Multi.extract F w) = Ok x ->
  is_ok (res (Multi.run F w)) = true ->
  t ∈ Multi.x_tables x ->
  (length (List.filter (older_than (run_cutoff F w)) (table_rows w t)) <= 100)%nat ->
  r ∈ table_rows w t ->
  (r ∉ table_rows (world (Multi.run F w)) t <-> Multi.tag t r ∈ Multi.x_records x).
Proof.
  intros Hex Hok Ht Hlen Hr.
  destruct (multi_extract_ok _ _ _ Hex) as (-> & _ & _). simpl in *.
  assert (Multi.tag t r ∈ batch_of w (configured_tables w) (run_cutoff F w) 100
          <-> Before (row_timestamp r) (run_cutoff F w) = true) as ->.
  { rewrite in_batch_of. split.
    - intros (t0 & r0 & _ & Hr0 & Heq).
      assert (t0 = t) as -> by (apply (f_equal Multi.TableName) in Heq; now simpl in Heq).
      apply tag_inj in Heq as <-. now apply sql_select_elem in Hr0.
    - intros Hb. exists t, r. split; [exact Ht|]. split; [|reflexivity].
      now apply sql_select_all. }
  destruct (run_database MultiTable F w) as (_ & Hdb). cbv zeta in Hdb. simpl in Hdb.
  destruct Hdb as [(_ & Hdb & Hempty)
                  |(quiet & dels & done & rest & _ & _ & _ & _ & Hsrc & Hrest & Hdb)].
  - specialize (Hempty Hok). simpl in Hempty. rewrite Hex in Hempty. simpl in Hempty.
    injection Hempty as Hnil. apply fmap_nil_inv in Hnil.
    unfold table_rows at 1. rewrite Hdb. fold (table_rows w t).
    split; [contradiction|]. intros Hb. exfalso.
    assert (Multi.tag t r ∈ batch_of w (configured_tables w) (run_cutoff F w) 100) as Hin
      by (apply in_batch_of; exists t, r; split; [exact Ht|]; split; [|reflexivity];
          now apply sql_select_all).
    rewrite Hnil in Hin. inversion Hin.
  - rewrite (table_rows_purge _ _ _ _ t Hdb).
    rewrite decide_True by (rewrite (Hrest Hok), app_nil_r in Hsrc; now rewrite <- Hsrc).
    now apply sql_delete_gone.
Qed.

Lemma within_the_limit_witness :
  res (Multi.extract no_faults sample_world)
  = Ok (Multi.mkExtracted "my-iot-archive" ["a"; "b"]
          (run_cutoff no_faults sample_world)
          [Multi.tag "a" (mkRow 2 (Date 2024 3 20 8 30 0) "dev2" 43);
           Multi.tag "a" (mkRow 1 (Date 2024 1 15 10 0 0) "dev1" 42)])
  /\ (mkRow 3 (Date 2024 10 1 0 0 0) "dev1" 44
        ∉ table_rows (world (Multi.run no_faults sample_world)) "a"
      <-> Multi.tag "a" (mkRow 3 (Date 2024 10 1 0 0 0) "dev1" 44)
            ∈ [Multi.tag "a" (mkRow 2 (Date 2024 3 20 8 30 0) "dev2" 43);
               Multi.tag "a" (mkRow 1 (Date 2024 1 15 10 0 0) "dev1" 42)]).
Proof.
  assert (res (Multi.extract no_faults sample_world)
          = Ok (Multi.mkExtracted "my-iot-archive" ["a"; "b"]
                  (run_cutoff no_faults sample_world)
                  [Multi.tag "a" (mkRow 2 (Date 2024 3 20 8 30 0) "dev2" 43);
                   Multi.tag "a" (mkRow 1 (Date 2024 1 15 10 0 0) "dev1" 42)])) as Hex
    by (vm_compute; reflexivity).
  split; [exact Hex|].
  apply (within_the_limit_exactly_the_archived_rows_are_deleted no_faults sample_world
           _ "a" _ Hex).
  - vm_compute. reflexivity.
  - apply (bool_decide_unpack _). vm_compute. exact I.
  - vm_compute. lia.
  - apply (bool_decide_unpack _). vm_compute. exact I.
Defined.

(** ** The scan loop of the single-table program *)

(** X23. What the scan loop of the single-table program holds when the
    extraction completes: [records] are the rows the query returned, in the
    order of the query; [recordCount] is their number, so that the test
    [recordCount == 0] is the test for an empty batch; and [lastTimestamp] is
    the timestamp of the first record — the zero time when there is none —
    which no other record of the batch is after. *)
Theorem single_table_scan_keeps_count_and_latest F w x :
  res (Single.extract F w) = Ok x ->
  let s := Single.x_scanned x in
  let returned := sql_select (table_rows w (Single.x_table x)) (Single.x_cutoff x) 100 in
  Single.records s
  = (fun r => Single.mkIoTRecord (row_id r) (row_timestamp r) (row_device_id r)
                (row_value r)) <$> returned
  /\ Single.recordCount s = Z.of_nat (length (Single.records s))
  /\ (Single.recordCount s = 0 <-> Single.records s = [])
  /\ Single.lastTimestamp s
     = match Single.records s with
       | [] => zero_Time
       | first :: _ => Single.Timestamp first
       end
  /\ (forall rec, rec ∈ Single.records s ->
        After (Single.Timestamp rec) (Single.lastTimestamp s) = false).
Proof.
  intros Hex. destruct (single_extract_ok _ _ _ Hex) as (-> & _ & _). cbv zeta. simpl.
  set (q := sql_select _ _ _).
  pose proof (sql_select_sorted (table_rows w (single_table w)) (run_cutoff F w) 100)
    as Hs. fold q in Hs.
  split; [reflexivity|]. split; [now rewrite length_fmap|].
  split; [destruct q; simpl; split; intros; (reflexivity || discriminate || lia)|].
  split; [now destruct q|].
  intros rec Hrec. apply After_false.
  apply list_elem_of_fmap in Hrec as (r' & -> & Hr'). simpl.
  destruct q as [|r q']; [inversion Hr'|]. simpl.
  exact (sorted_head_max _ _ Hs _ Hr').
Qed.

Lemma single_table_scan_witness :
  res (Single.extract no_faults sample_world)
  = Ok (Single.mkExtracted "my-iot-archive" "a" (run_cutoff no_faults sample_world)
          (Single.mkScanned
             [Single.mkIoTRecord 2 (Date 2024 3 20 8 30 0) "dev2" 43;
              Single.mkIoTRecord 1 (Date 2024 1 15 10 0 0) "dev1" 42]
             (Date 2024 3 20 8 30 0) 2))
  /\ Single.recordCount
       (Single.mkScanned
          [Single.mkIoTRecord 2 (Date 2024 3 20 8 30 0) "dev2" 43;
           Single.mkIoTRecord 1 (Date 2024 1 15 10 0 0) "dev1" 42]
          (Date 2024 3 20 8 30 0) 2)
     = Z.of_nat (length [Single.mkIoTRecord 2 (Date 2024 3 20 8 30 0) "dev2" 43;
                         Single.mkIoTRecord 1 (Date 2024 1 15 10 0 0) "dev1" 42]).
Proof.
  assert (res (Single.extract no_faults sample_world)
          = Ok (Single.mkExtracted "my-iot-archive" "a"
                  (run_cutoff no_faults sample_world)
                  (Single.mkScanned
                     [Single.mkIoTRecord 2 (Date 2024 3 20 8 30 0) "dev2" 43;
                      Single.mkIoTRecord 1 (Date 2024 1 15 10 0 0) "dev1" 42]
                     (Date 2024 3 20 8 30 0) 2))) as Hex
    by (vm_compute; reflexivity).
  split; [exact Hex|].
  exact (proj1 (proj2 (single_table_scan_keeps_count_and_latest no_faults sample_world
                         _ Hex))).
Defined.

(** ** What a successful run has done *)

(** X24. When a run, of either program, returns [nil], no configured source
    holds a row older than the cutoff any more — either there was none and
    nothing was touched, or the batch was uploaded and every source purged.
    In the second case the artifact of the run is in the object store under
    the key of the run and in the local file. *)
Theorem successful_run_leaves_no_old_row p F w :
  is_ok (res (run_of p F w)) = true ->
  (forall t r, t ∈ sources_of p w -> r ∈ table_rows (world (run_of p F w)) t ->
     Before (row_timestamp r) (run_cutoff F w) = false)
  /\ ((batch_timestamps p F w = Some [] /\ stores (world (run_of p F w)) = stores w)
      \/ (objects (world (run_of p F w)) !! (s3_bucket w, key_of p F w)
          = Some (artifact_of p F w)
          /\ disk (world (run_of p F w)) !! parquetFile = Some (artifact_of p F w)
          /\ forall t, t ∈ sources_of p w ->
               table_rows (world (run_of p F w)) t
               = sql_delete (table_rows w t) (run_cutoff F w))).
Proof.
  intros Hok.
  destruct (run_shape_holds p F w)
    as [_ Hres _ _|Hb _ _ _ Hst|qs enc tl _ _ _ _ _ _ _ Hres _
       |qs enc _ _ _ _ _ _ Hres _ _
       |qs enc dels done rest _ _ _ _ _ _ _ Hsrc Hrest Hdb Hdisk Hobj];
    try congruence.
  - split; [|left; auto].
    pose proof (batch_timestamps_all_sources _ _ _ _ Hb) as Hnil.
    symmetry in Hnil. apply fmap_nil_inv in Hnil.
    intros t r Ht Hr. apply (proj1 (batch_rows_nil p F w) Hnil t r Ht).
    unfold table_rows in *. injection Hst as Hdb _ _. now rewrite <- Hdb.
  - rewrite (Hrest Hok), app_nil_r in Hsrc. subst done.
    assert (forall t, t ∈ sources_of p w ->
              table_rows (world (run_of p F w)) t
              = sql_delete (table_rows w t) (run_cutoff F w)) as Hrows
      by (intros t Ht; rewrite (table_rows_purge _ _ _ _ t Hdb); now rewrite decide_True).
    split.
    + intros t r Ht Hr. rewrite (Hrows t Ht) in Hr.
      now apply sql_delete_elem in Hr.
    + right. split; [rewrite Hobj; apply lookup_insert_eq|].
      split; [rewrite Hdisk; apply lookup_insert_eq | exact Hrows].
Qed.

Lemma successful_run_witness :
  is_ok (res (run_of MultiTable no_faults sample_world)) = true
  /\ table_rows (world (run_of MultiTable no_faults sample_world)) "a"
     = [mkRow 3 (Date 2024 10 1 0 0 0) "dev1" 44]
  /\ (forall t r, t ∈ sources_of MultiTable sample_world ->
        r ∈ table_rows (world (run_of MultiTable no_faults sample_world)) t ->
        Before (row_timestamp r) (run_cutoff no_faults sample_world) = false).
Proof.
  assert (is_ok (res (run_of MultiTable no_faults sample_world)) = true) as H
    by (vm_compute; reflexivity).
  split; [exact H|]. split; [vm_compute; reflexivity|].
  exact (proj1 (successful_run_leaves_no_old_row MultiTable no_faults sample_world H)).
Defined.
